(** * Verification of [src/library/utils/index.ts]

    A shallow embedding of the utility module (uuid, wbiSign, packFormData,
    deepestIterate, waitForMoment) together with the host facilities the
    functions call (JavaScript strings, [toString], [encodeURIComponent],
    lodash's [forEach]/[forOwn], CryptoJS's MD5, promises, mutation observers
    and lifecycle events), followed by the theorems about them. *)

From Stdlib Require Import String Ascii ZArith List Bool Lia.
From Stdlib Require Import QArith Qround.
From Stdlib Require Import Sorting.Sorted Sorting.Permutation.
Import ListNotations.

Local Open Scope Z_scope.

Set Warnings "-register-all".

(* ================================================================== *)
(** * Part I: definitions *)
(* ================================================================== *)

(** ** JavaScript strings

    A JavaScript string is a finite sequence of UTF-16 code units; indexing
    ([s[n]]), [slice], [replace] and the default [sort] comparison all work
    on code units. *)

Definition code_unit := Z.
Definition jstring := list code_unit.

(** An ASCII literal as a JavaScript string. *)
Definition js (s : string) : jstring :=
  map (fun a => Z.of_N (N_of_ascii a)) (list_ascii_of_string s).

(** [s[n]]: the code unit at index [n], or [undefined] out of range. *)
Definition char_at (s : jstring) (n : nat) : option code_unit := nth_error s n.

(** [Array.prototype.join] on an array of strings-or-undefined: an
    [undefined] element contributes the empty string. *)
Fixpoint join_opt (sep : jstring) (l : list (option jstring)) : jstring :=
  match l with
  | [] => []
  | [x] => match x with Some s => s | None => [] end
  | x :: rest =>
      (match x with Some s => s | None => [] end) ++ sep ++ join_opt sep rest
  end.

(** [Array.prototype.join] on an array of strings. *)
Definition join (sep : jstring) (l : list jstring) : jstring :=
  join_opt sep (map Some l).

(** [s.slice(0, n)]. *)
Definition slice0 (n : nat) (s : jstring) : jstring := firstn n s.

(** [s.replace(/[cls]/g, repl)] for a character class [cls] and a
    replacement string [repl]. *)
Definition replace_class (cls : code_unit -> bool) (repl : jstring)
    (s : jstring) : jstring :=
  flat_map (fun c => if cls c then repl else [c]) s.

(** Lexicographic comparison of two strings by code units: the order of
    JavaScript's [<] on strings and of [Array.prototype.sort] without a
    comparison function. *)
Fixpoint str_compare (a b : jstring) : comparison :=
  match a, b with
  | [], [] => Eq
  | [], _ :: _ => Lt
  | _ :: _, [] => Gt
  | x :: a', y :: b' =>
      match x ?= y with
      | Eq => str_compare a' b'
      | c => c
      end
  end.

Definition str_leb (a b : jstring) : bool :=
  match str_compare a b with Gt => false | _ => true end.

Definition str_le (a b : jstring) : Prop := str_leb a b = true.

Fixpoint str_eqb (a b : jstring) : bool :=
  match a, b with
  | [], [] => true
  | x :: a', y :: b' => (x =? y) && str_eqb a' b'
  | _, _ => false
  end.

(** [Array.prototype.sort()] on an array of strings: insertion into the
    sorted position keeps equal elements in their original order (the sort
    is stable). *)
Fixpoint sort_insert (x : jstring) (l : list jstring) : list jstring :=
  match l with
  | [] => [x]
  | y :: l' => if str_leb x y then x :: l else y :: sort_insert x l'
  end.

Fixpoint sort (l : list jstring) : list jstring :=
  match l with
  | [] => []
  | x :: l' => sort_insert x (sort l')
  end.

(** ** Exceptions *)

Inductive error := TypeError | URIError.

Inductive result (A : Type) :=
| Ok (a : A)
| Throw (e : error).
Arguments Ok {A} a.
Arguments Throw {A} e.

Definition bind {A B} (r : result A) (k : A -> result B) : result B :=
  match r with
  | Ok a => k a
  | Throw e => Throw e
  end.

Notation "x <- r ;; k" := (bind r (fun x => k))
  (at level 61, r at next level, right associativity).

(** [Array.prototype.map] with a callback that may throw: elements are
    visited left to right and the first exception aborts the call. *)
Fixpoint map_result {A B} (f : A -> result B) (l : list A) : result (list B) :=
  match l with
  | [] => Ok []
  | x :: l' =>
      y <- f x ;;
      ys <- map_result f l' ;;
      Ok (y :: ys)
  end.

(** ** Numbers rendered as strings *)

(** [d.toString(16)] for [0 <= d < 16]: one lowercase hexadecimal digit. *)
Definition hex_digit (d : Z) : code_unit :=
  if d <? 10 then 48 + d else 87 + d.

(** One uppercase hexadecimal digit, as [encodeURIComponent] prints it. *)
Definition HEX_digit (d : Z) : code_unit :=
  if d <? 10 then 48 + d else 55 + d.

(** Decimal digits of a non-negative integer, most significant first. *)
Fixpoint dec_digits (fuel : nat) (n : Z) (acc : jstring) : jstring :=
  match fuel with
  | O => acc
  | S fuel' =>
      let acc' := (48 + n mod 10) :: acc in
      if n <? 10 then acc' else dec_digits fuel' (n / 10) acc'
  end.

Definition decimal (n : Z) : jstring :=
  dec_digits (S (Z.to_nat (Z.log2 n))) n [].

(** The Number nearest to a non-negative integer [m], ties going to the
    even significand: a Number (an IEEE 754 double) has 53 significant
    bits, so from [2^53] on the integers it holds are the multiples of a
    power of two [ulp].  (Integers from about [2^1024] on, which round to
    [Infinity], are outside the model.) *)
Definition to_double (m : Z) : Z :=
  let e := Z.log2 m - 52 in
  if e <=? 0 then m
  else
    let ulp := 2 ^ e in
    let q := m / ulp in
    let r := m mod ulp in
    let half := ulp / 2 in
    if r <? half then q * ulp
    else if half <? r then (q + 1) * ulp
    else if Z.even q then q * ulp else (q + 1) * ulp.

(** [Number::toString] looks for the fewest digits that read back as the
    same Number: integers [n], [k] and [s] with [10^(k-1) <= s < 10^k] and
    [s * 10^(n-k)] rounding to [x], with [k] as small as possible and then
    [s * 10^(n-k)] as close to [x] as possible (the even [s] on a tie).
    [shortest_at x n k] is that [s] for given [n] and [k], if there is
    one: only the two multiples of [10^(n-k)] around [x] can be it. *)
Definition shortest_at (x n k : Z) : option Z :=
  let p := 10 ^ (n - k) in
  let lo := x / p in
  let hi := lo + 1 in
  let fits s :=
    (k <=? n) && (10 ^ (k - 1) <=? s) && (s <? 10 ^ k)
    && (to_double (s * p) =? x) in
  match fits lo, fits hi with
  | true, true =>
      let below := x - lo * p in
      let above := hi * p - x in
      if below <? above then Some lo
      else if above <? below then Some hi
      else if Z.even lo then Some lo else Some hi
  | true, false => Some lo
  | false, true => Some hi
  | false, false => None
  end.

Fixpoint shortest_from (x n : Z) (ks : list Z) : option (Z * Z) :=
  match ks with
  | [] => None
  | k :: ks' =>
      match shortest_at x n k with
      | Some s => Some (s, k)
      | None => shortest_from x n ks'
      end
  end.

(** The triple [(s, k, n)] for a positive integer-valued Number [x] with
    [D] decimal digits.  Seventeen digits tell any two Numbers apart, and
    [n] is [D] unless [x] is the Number nearest to [10^D], which reads
    back from the single digit 1. *)
Definition shortest_digits (x : Z) : option (Z * Z * Z) :=
  let D := Z.of_nat (length (decimal x)) in
  if to_double (10 ^ D) =? x then Some (1, 1, D + 1)
  else
    match shortest_from x D (map Z.of_nat (seq 1 17)) with
    | Some (s, k) => Some (s, k, D)
    | None => None
    end.

Definition MAX_SAFE_INTEGER : Z := 9007199254740991.

(** [Number::toString] on a non-negative integer-valued Number, given by
    an integer [x] that stands for the Number nearest to it.  Up to
    [2^53 - 1] every integer is a Number of its own, so the fewest digits
    that read back as [x] are its decimal digits without the trailing
    zeros, and the result is the decimal digits of [x].  Beyond, the
    result is the digits of [s] followed by [n - k] zeros up to 21 digits,
    and the exponent form [d.ddde+N] from 22 digits on. *)
Definition positive_toString (x : Z) : jstring :=
  if x <=? MAX_SAFE_INTEGER then decimal x
  else
    match shortest_digits (to_double x) with
    | Some (s, k, n) =>
        if n <=? 21 then decimal s ++ repeat 48 (Z.to_nat (n - k))
        else
          match decimal s with
          | d :: rest =>
              (d :: (if k =? 1 then [] else 46 :: rest))
              ++ [101; 43] ++ decimal (n - 1)
          | [] => []
          end
    | None => decimal x
    end.

(** [n.toString()] for an integer-valued Number. *)
Definition number_toString (n : Z) : jstring :=
  if n <? 0 then 45 :: positive_toString (- n) else positive_toString n.

(** ** uuid *)

(** The random source: [Math.random()] returns a value in [[0, 1)]; the
    i-th call of a run returns [rnd i]. *)
Definition random_source := nat -> Q.

Definition in_unit_interval (q : Q) : Prop := (0 <= q)%Q /\ (q < 1)%Q.

(** [(16 * Math.random()) | 0]. *)
Definition randomInt (q : Q) : Z := Z.lor (Qfloor (16 * q)) 0.

(** The replacement callback of [uuid] at one matched character. *)
Definition uuid_replacer (char : code_unit) (q : Q) : jstring :=
  let r := randomInt q in
  [hex_digit (if char =? 120 (* 'x' *) then r else Z.lor (Z.land 3 r) 8)].

(** [template.replace(/[xy]/g, f)] where [f] draws one random number per
    match; [i] counts the calls to [Math.random] made so far. *)
Fixpoint replace_xy (rnd : random_source) (i : nat) (template : jstring)
    : jstring :=
  match template with
  | [] => []
  | c :: rest =>
      if (c =? 120) || (c =? 121)
      then uuid_replacer c (rnd i) ++ replace_xy rnd (S i) rest
      else c :: replace_xy rnd i rest
  end.

Definition uuid_template : jstring := js "xxxxxxxx-xxxx-4xxx-yxxx-xxxxxxxxxxxx".

Definition uuid (rnd : random_source) : jstring :=
  replace_xy rnd 0 uuid_template.

(** The pattern
    [[0-9a-f]{8}-[0-9a-f]{4}-4[0-9a-f]{3}-[89ab][0-9a-f]{3}-[0-9a-f]{12}]:
    a sequence of character classes, each matching one character. *)
Inductive char_class :=
| CHex                     (**r [[0-9a-f]] *)
| CVariant                 (**r [[89ab]] *)
| CLit (c : code_unit).    (**r the character itself *)

Definition is_lower_hex (c : code_unit) : bool :=
  ((48 <=? c) && (c <=? 57)) || ((97 <=? c) && (c <=? 102)).

Definition in_class (cls : char_class) (c : code_unit) : bool :=
  match cls with
  | CHex => is_lower_hex c
  | CVariant => existsb (Z.eqb c) (js "89ab")
  | CLit l => c =? l
  end.

Fixpoint matches (pattern : list char_class) (s : jstring) : bool :=
  match pattern, s with
  | [], [] => true
  | cls :: pattern', c :: s' => in_class cls c && matches pattern' s'
  | _, _ => false
  end.

Definition uuid_pattern : list char_class :=
  repeat CHex 8 ++ [CLit 45] ++ repeat CHex 4 ++ [CLit 45]
  ++ [CLit 52] ++ repeat CHex 3 ++ [CLit 45]
  ++ [CVariant] ++ repeat CHex 3 ++ [CLit 45] ++ repeat CHex 12.

(** The character class that a character of the template turns into:
    [x] a hexadecimal digit, [y] a variant digit, any other itself. *)
Definition class_of_template (c : code_unit) : char_class :=
  if c =? 120 then CHex else if c =? 121 then CVariant else CLit c.

(** ** wbiSign: the salt *)

Definition salt_table : list nat :=
  [46; 47; 18; 2; 53; 8; 23; 32; 15; 50; 10; 31; 58; 3; 45; 35; 27; 43; 5; 49;
   33; 9; 42; 19; 29; 28; 14; 39; 12; 38; 41; 13; 37; 48; 7; 16; 24; 55; 40;
   61; 26; 17; 0; 1; 60; 51; 30; 4; 22; 25; 54; 21; 56; 59; 6; 63; 57; 62; 11;
   36; 20; 34; 44; 52]%nat.

(** [table.map((n) => imgAndSubKey[n]).join('').slice(0, 32)]: each array
    element is a one-character string or [undefined]. *)
Definition wbi_salt (imgKey subKey : jstring) : jstring :=
  let imgAndSubKey := imgKey ++ subKey in
  slice0 32
    (join_opt []
       (map (fun n => option_map (fun c => [c]) (char_at imgAndSubKey n))
            salt_table)).

(** What one table entry contributes to the salt, in the words of the
    specification: the character of [S] at position [n], or nothing when
    [n] is past the end of [S]. *)
Definition picked (S : jstring) (n : nat) : jstring :=
  match nth_error S n with
  | Some c => [c]
  | None => []
  end.

(** ** JavaScript values

    Values as the module meets them: primitives, arrays, plain objects
    (their own enumerable string-keyed properties in enumeration order) and
    any other object (a class instance, a [Date], a [URL], ...), given by
    the string its [toString()] returns and its own enumerable string-keyed
    properties.  [VNumber n] holds an integer-valued Number: [n] itself
    up to [2^53], the Number nearest to [n] beyond. *)

Inductive value :=
| VUndefined
| VNull
| VBoolean (b : bool)
| VNumber (n : Z)
| VString (s : jstring)
| VArray (elems : list value)
| VObject (props : list (jstring * value))
| VHost (repr : jstring) (own : list (jstring * value)).

Definition object := list (jstring * value).

Definition is_nullish (v : value) : bool :=
  match v with
  | VUndefined | VNull => true
  | _ => false
  end.

(** [o[key]]: the first binding of [key], [undefined] when there is none. *)
Fixpoint get (o : object) (key : jstring) : value :=
  match o with
  | [] => VUndefined
  | (k, v) :: o' => if str_eqb k key then v else get o' key
  end.

Fixpoint has_own (o : object) (key : jstring) : bool :=
  match o with
  | [] => false
  | (k, _) :: o' => str_eqb k key || has_own o' key
  end.

(** [o[key] = v]: an existing property keeps its place in the enumeration
    order, a new one (with a non-index key such as [wts]) goes last. *)
Fixpoint set (o : object) (key : jstring) (v : value) : object :=
  match o with
  | [] => [(key, v)]
  | (k, v0) :: o' =>
      if str_eqb k key then (k, v) :: o' else (k, v0) :: set o' key v
  end.

Definition Object_keys (o : object) : list jstring := map fst o.

(** [v.toString()].  On [undefined] and [null] the property access throws
    a TypeError.  An array joins its elements with a comma, [undefined] and
    [null] elements giving the empty string.  A plain object inherits
    [Object.prototype.toString] unless an own property named [toString]
    shadows it; in this model such a property never holds a function, so
    calling it throws a TypeError. *)
Fixpoint toString (v : value) : result jstring :=
  match v with
  | VUndefined | VNull => Throw TypeError
  | VBoolean b => Ok (js (if b then "true" else "false"))
  | VNumber n => Ok (number_toString n)
  | VString s => Ok s
  | VArray elems =>
      strs <- map_result
                (fun x => if is_nullish x then Ok [] else toString x)
                elems ;;
      Ok (join (js ",") strs)
  | VObject props =>
      if has_own props (js "toString") then Throw TypeError
      else Ok (js "[object Object]")
  | VHost repr _ => Ok repr
  end.

(** ** encodeURIComponent and UTF-8 *)

Definition is_alnum (c : code_unit) : bool :=
  ((48 <=? c) && (c <=? 57)) || ((65 <=? c) && (c <=? 90))
  || ((97 <=? c) && (c <=? 122)).

(** The marks [- _ . ! ~ * ' ( )] that [encodeURIComponent] leaves alone. *)
Definition is_uri_mark (c : code_unit) : bool :=
  existsb (Z.eqb c) (js "-_.!~*'()").

Definition uri_unescaped (c : code_unit) : bool := is_alnum c || is_uri_mark c.

Definition is_leading_surrogate (c : code_unit) : bool :=
  (0xD800 <=? c) && (c <=? 0xDBFF).

Definition is_trailing_surrogate (c : code_unit) : bool :=
  (0xDC00 <=? c) && (c <=? 0xDFFF).

Definition surrogate_pair_to_code_point (lead trail : code_unit) : Z :=
  (lead - 0xD800) * 0x400 + (trail - 0xDC00) + 0x10000.

(** The UTF-8 octets of a code point. *)
Definition utf8_octets (cp : Z) : list Z :=
  if cp <? 0x80 then [cp]
  else if cp <? 0x800 then
    [Z.lor 0xC0 (Z.shiftr cp 6); Z.lor 0x80 (Z.land cp 0x3F)]
  else if cp <? 0x10000 then
    [Z.lor 0xE0 (Z.shiftr cp 12);
     Z.lor 0x80 (Z.land (Z.shiftr cp 6) 0x3F);
     Z.lor 0x80 (Z.land cp 0x3F)]
  else
    [Z.lor 0xF0 (Z.shiftr cp 18);
     Z.lor 0x80 (Z.land (Z.shiftr cp 12) 0x3F);
     Z.lor 0x80 (Z.land (Z.shiftr cp 6) 0x3F);
     Z.lor 0x80 (Z.land cp 0x3F)].

(** [%XX] with uppercase hexadecimal digits. *)
Definition percent_octet (b : Z) : jstring :=
  [37; HEX_digit (Z.shiftr b 4); HEX_digit (Z.land b 15)].

Definition percent_encode (cp : Z) : jstring :=
  flat_map percent_octet (utf8_octets cp).

(** The abstract operation Encode of ECMAScript: code units of the
    unescaped set are copied; any other is read as a code point (a
    surrogate pair counts as one), and an unpaired surrogate throws a
    URIError. *)
Fixpoint uri_encode (unescaped : code_unit -> bool) (s : jstring)
    : result jstring :=
  match s with
  | [] => Ok []
  | c :: rest =>
      if unescaped c then r <- uri_encode unescaped rest ;; Ok (c :: r)
      else if is_leading_surrogate c then
        match rest with
        | c2 :: rest' =>
            if is_trailing_surrogate c2 then
              r <- uri_encode unescaped rest' ;;
              Ok (percent_encode (surrogate_pair_to_code_point c c2) ++ r)
            else Throw URIError
        | [] => Throw URIError
        end
      else if is_trailing_surrogate c then Throw URIError
      else r <- uri_encode unescaped rest ;; Ok (percent_encode c ++ r)
  end.

Definition encodeURIComponent (s : jstring) : result jstring :=
  uri_encode uri_unescaped s.

(** CryptoJS parses a string message as UTF-8
    ([unescape(encodeURIComponent(s))] read as bytes): the octets of each
    code point, a URIError on an unpaired surrogate. *)
Fixpoint utf8_parse (s : jstring) : result (list Z) :=
  match s with
  | [] => Ok []
  | c :: rest =>
      if is_leading_surrogate c then
        match rest with
        | c2 :: rest' =>
            if is_trailing_surrogate c2 then
              r <- utf8_parse rest' ;;
              Ok (utf8_octets (surrogate_pair_to_code_point c c2) ++ r)
            else Throw URIError
        | [] => Throw URIError
        end
      else if is_trailing_surrogate c then Throw URIError
      else r <- utf8_parse rest ;; Ok (utf8_octets c ++ r)
  end.

(** ** MD5 (RFC 1321), as [CryptoJS.MD5(message).toString()] computes it *)

Definition w32 (x : Z) : Z := x mod 2 ^ 32.

Definition not32 (x : Z) : Z := Z.lxor x 0xFFFFFFFF.

Definition rotl32 (x n : Z) : Z :=
  w32 (Z.lor (Z.shiftl x n) (Z.shiftr x (32 - n))).

Definition md5_shift : list Z :=
  [7; 12; 17; 22; 7; 12; 17; 22; 7; 12; 17; 22; 7; 12; 17; 22;
   5; 9; 14; 20; 5; 9; 14; 20; 5; 9; 14; 20; 5; 9; 14; 20;
   4; 11; 16; 23; 4; 11; 16; 23; 4; 11; 16; 23; 4; 11; 16; 23;
   6; 10; 15; 21; 6; 10; 15; 21; 6; 10; 15; 21; 6; 10; 15; 21].

Definition md5_K : list Z :=
  [0xd76aa478; 0xe8c7b756; 0x242070db; 0xc1bdceee;
   0xf57c0faf; 0x4787c62a; 0xa8304613; 0xfd469501;
   0x698098d8; 0x8b44f7af; 0xffff5bb1; 0x895cd7be;
   0x6b901122; 0xfd987193; 0xa679438e; 0x49b40821;
   0xf61e2562; 0xc040b340; 0x265e5a51; 0xe9b6c7aa;
   0xd62f105d; 0x02441453; 0xd8a1e681; 0xe7d3fbc8;
   0x21e1cde6; 0xc33707d6; 0xf4d50d87; 0x455a14ed;
   0xa9e3e905; 0xfcefa3f8; 0x676f02d9; 0x8d2a4c8a;
   0xfffa3942; 0x8771f681; 0x6d9d6122; 0xfde5380c;
   0xa4beea44; 0x4bdecfa9; 0xf6bb4b60; 0xbebfbc70;
   0x289b7ec6; 0xeaa127fa; 0xd4ef3085; 0x04881d05;
   0xd9d4d039; 0xe6db99e5; 0x1fa27cf8; 0xc4ac5665;
   0xf4292244; 0x432aff97; 0xab9423a7; 0xfc93a039;
   0x655b59c3; 0x8f0ccc92; 0xffeff47d; 0x85845dd1;
   0x6fa87e4f; 0xfe2ce6e0; 0xa3014314; 0x4e0811a1;
   0xf7537e82; 0xbd3af235; 0x2ad7d2bb; 0xeb86d391].

Definition md5_state := (Z * Z * Z * Z)%type.

Definition md5_init : md5_state :=
  (0x67452301, 0xefcdab89, 0x98badcfe, 0x10325476).

(** Round [i] of the compression function on the sixteen words [M]. *)
Definition md5_step (M : list Z) (st : md5_state) (i : nat) : md5_state :=
  let '(A, B, C, D) := st in
  let iz := Z.of_nat i in
  let '(F, g) :=
    if iz <? 16 then (Z.lor (Z.land B C) (Z.land (not32 B) D), iz)
    else if iz <? 32 then
      (Z.lor (Z.land D B) (Z.land (not32 D) C), (5 * iz + 1) mod 16)
    else if iz <? 48 then (Z.lxor B (Z.lxor C D), (3 * iz + 5) mod 16)
    else (Z.lxor C (Z.lor B (not32 D)), (7 * iz) mod 16) in
  let F' := w32 (F + A + nth i md5_K 0 + nth (Z.to_nat g) M 0) in
  (D, w32 (B + rotl32 F' (nth i md5_shift 0)), B, C).

Definition md5_block (st : md5_state) (M : list Z) : md5_state :=
  let '(A, B, C, D) := st in
  let '(a, b, c, d) := fold_left (md5_step M) (seq 0 64) st in
  (w32 (A + a), w32 (B + b), w32 (C + c), w32 (D + d)).

Fixpoint le_bytes (n : nat) (x : Z) : list Z :=
  match n with
  | O => []
  | S n' => x mod 256 :: le_bytes n' (x / 256)
  end.

Fixpoint le_word (bs : list Z) : Z :=
  match bs with
  | [] => 0
  | b :: r => b + 256 * le_word r
  end.

Fixpoint le_words (n : nat) (bs : list Z) : list Z :=
  match n with
  | O => []
  | S n' => le_word (firstn 4 bs) :: le_words n' (skipn 4 bs)
  end.

(** The message, a 1 bit, zeros up to 56 modulo 64 bytes, and the length in
    bits as eight little-endian bytes. *)
Definition md5_pad (msg : list Z) : list Z :=
  let len := Z.of_nat (List.length msg) in
  msg ++ [0x80] ++ repeat 0 (Z.to_nat ((55 - len) mod 64))
      ++ le_bytes 8 (8 * len).

Fixpoint md5_blocks (n : nat) (bs : list Z) (st : md5_state) : md5_state :=
  match n with
  | O => st
  | S n' =>
      md5_blocks n' (skipn 64 bs) (md5_block st (le_words 16 (firstn 64 bs)))
  end.

(** The 16-byte digest of a byte sequence. *)
Definition MD5 (msg : list Z) : list Z :=
  let padded := md5_pad msg in
  let '(a, b, c, d) := md5_blocks (List.length padded / 64) padded md5_init in
  le_bytes 4 a ++ le_bytes 4 b ++ le_bytes 4 c ++ le_bytes 4 d.

(** [WordArray.toString()]: two lowercase hexadecimal digits per byte. *)
Definition hex_stringify (bytes : list Z) : jstring :=
  flat_map (fun b => [hex_digit (Z.shiftr b 4); hex_digit (Z.land b 15)])
           bytes.

(** [CryptoJS.MD5(message).toString()] for a string message. *)
Definition CryptoJS_MD5 (message : jstring) : result jstring :=
  bytes <- utf8_parse message ;;
  Ok (hex_stringify (MD5 bytes)).

(** ** wbiSign *)

(** Modelled from the spec: [ts] of [@/library/luxon] is not among the
    sources; the spec gives its result as the current Unix time in whole
    seconds.  The clock is the wall-clock time in milliseconds since the
    epoch. *)
Definition ts (clock_ms : Z) : Z := clock_ms / 1000.

(** The class of the regular expression [/[!'()*]/g]. *)
Definition wbi_filtered (c : code_unit) : bool :=
  existsb (Z.eqb c) (js "!'()*").

(** The callback of [.map] in [wbiSign], for one key. *)
Definition wbi_pair (params : object) (key : jstring) : result jstring :=
  s <- toString (get params key) ;;
  let value := replace_class wbi_filtered [] s in
  k <- encodeURIComponent key ;;
  v <- encodeURIComponent value ;;
  Ok (k ++ js "=" ++ v).

Definition wbi_query (params : object) : result jstring :=
  pairs <- map_result (wbi_pair params) (sort (Object_keys params)) ;;
  Ok (join (js "&") pairs).

(** [wbiSign(params, imgKey, subKey)] at clock time [clock_ms]: the
    mutated [params] object and the returned string or the exception. *)
Definition wbiSign (clock_ms : Z) (params : object) (imgKey subKey : jstring)
    : object * result jstring :=
  let salt := wbi_salt imgKey subKey in
  let params := set params (js "wts") (VNumber (ts clock_ms)) in
  (params,
   query <- wbi_query params ;;
   wbiSign <- CryptoJS_MD5 (query ++ salt) ;;
   Ok (query ++ js "&w_rid=" ++ wbiSign)).

(** The order the specification names: strings compared by code points, a
    surrogate pair counting as the one code point it encodes. *)
Fixpoint code_points (s : jstring) : list Z :=
  match s with
  | [] => []
  | c :: rest =>
      if is_leading_surrogate c then
        match rest with
        | c2 :: rest' =>
            if is_trailing_surrogate c2
            then surrogate_pair_to_code_point c c2 :: code_points rest'
            else c :: code_points rest
        | [] => [c]
        end
      else c :: code_points rest
  end.

Definition code_point_leb (a b : jstring) : bool :=
  str_leb (code_points a) (code_points b).

(** Inputs on which [wbiSign] cannot throw: keys and secrets made of ASCII
    characters, values that are ASCII strings or integers. *)
Definition is_ascii (c : code_unit) : bool := (0 <=? c) && (c <? 128).

Definition ascii_string (s : jstring) : Prop :=
  Forall (fun c => is_ascii c = true) s.

Definition ascii_scalar (v : value) : Prop :=
  match v with
  | VString s => ascii_string s
  | VNumber _ => True
  | _ => False
  end.

Definition ascii_params (params : object) : Prop :=
  Forall (fun kv => ascii_string (fst kv) /\ ascii_scalar (snd kv)) params.

(** ** packFormData *)

(** lodash's [isArrayLike] on a plain object: its [length] is a Number that
    is a valid array length. *)
Definition array_like_length (o : object) : option Z :=
  match get o (js "length") with
  | VNumber n =>
      if (0 <=? n) && (n <=? MAX_SAFE_INTEGER) then Some n else None
  | _ => None
  end.

(** The calls [_.forEach(o, iteratee)] makes, as (value, key) pairs in
    order.  As lodash documents, an object with a [length] property is
    iterated like an array: over the indices below [length], whether or not
    they are bound, with the index as key.  Any other object is iterated
    over its own enumerable properties.  (The iteratee of [packFormData]
    returns [undefined], so the iteration never exits early.) *)
Definition forEach_calls (o : object) : list (value * value) :=
  match array_like_length o with
  | Some n =>
      map (fun i => (get o (number_toString (Z.of_nat i)),
                     VNumber (Z.of_nat i)))
          (seq 0 (Z.to_nat n))
  | None => map (fun kv => (snd kv, VString (fst kv))) o
  end.

(** A form carrier: its entries in the order they were appended. *)
Definition FormData := list (jstring * jstring).

(** The name argument of [FormData.append], converted to a string. *)
Definition entry_name (key : value) : jstring :=
  match key with
  | VString s => s
  | VNumber n => number_toString n
  | _ => []
  end.

(** Both parameters of [FormData.append] are scalar-value strings
    ([USVString]): the conversion of a JavaScript string replaces every
    surrogate that is not part of a pair by U+FFFD. *)
Fixpoint to_USVString (s : jstring) : jstring :=
  match s with
  | [] => []
  | c :: rest =>
      if is_leading_surrogate c then
        match rest with
        | c2 :: rest' =>
            if is_trailing_surrogate c2
            then c :: c2 :: to_USVString rest'
            else 0xFFFD :: to_USVString rest
        | [] => [0xFFFD]
        end
      else if is_trailing_surrogate c then 0xFFFD :: to_USVString rest
      else c :: to_USVString rest
  end.

Definition FormData_append (fd : FormData) (name : value) (v : jstring)
    : FormData :=
  fd ++ [(to_USVString (entry_name name), to_USVString v)].

(** A loop whose body may throw: the first exception aborts it. *)
Fixpoint fold_result {A S} (f : S -> A -> result S) (l : list A) (s : S)
    : result S :=
  match l with
  | [] => Ok s
  | x :: l' => s' <- f s x ;; fold_result f l' s'
  end.

Definition packFormData (json : object) : result FormData :=
  fold_result
    (fun formData '(value, key) =>
       s <- toString value ;;
       Ok (FormData_append formData key s))
    (forEach_calls json) [].

(** ** deepestIterate *)

Definition isPlainObject (v : value) : bool :=
  match v with
  | VObject _ => true
  | _ => false
  end.

(** lodash's [isEmpty]: no own enumerable string-keyed property (no
    element, for an array or a string).  [deepestIterate] asks it of plain
    objects only. *)
Definition isEmpty (v : value) : bool :=
  match v with
  | VObject [] | VArray [] | VString [] | VHost _ [] => true
  | VObject _ | VArray _ | VString _ | VHost _ _ => false
  | _ => true
  end.

(** [path ? path + '.' + key : key]: [undefined] and the empty string are
    falsy. *)
Definition new_path (path : option jstring) (key : jstring) : jstring :=
  match path with
  | Some ((_ :: _) as p) => p ++ js "." ++ key
  | _ => key
  end.

(** [deepestIterate(obj, fn, path)], with the callback [fn] acting on a
    state of the caller's: [_.forOwn] visits the own enumerable properties
    of an object, plain or not (the indices of an array or of a string), in
    enumeration order; [undefined], [null], booleans and numbers have
    none. *)
Fixpoint deepestIterate {S : Type} (obj : value)
    (fn : value -> jstring -> S -> S) (path : option jstring) (s : S)
    {struct obj} : S :=
  match obj with
  | VObject props | VHost _ props =>
      fold_left
        (fun s '(key, value) =>
           let newPath := new_path path key in
           if isPlainObject value && negb (isEmpty value)
           then deepestIterate value fn (Some newPath) s
           else fn value newPath s)
        props s
  | VArray elems =>
      (fix forOwn (i : nat) (l : list value) (s : S) {struct l} : S :=
         match l with
         | [] => s
         | value :: rest =>
             let newPath := new_path path (number_toString (Z.of_nat i)) in
             forOwn (Datatypes.S i) rest
               (if isPlainObject value && negb (isEmpty value)
                then deepestIterate value fn (Some newPath) s
                else fn value newPath s)
         end) 0%nat elems s
  | VString str =>
      fold_left
        (fun s '(i, c) =>
           fn (VString [c]) (new_path path (number_toString (Z.of_nat i))) s)
        (combine (seq 0 (List.length str)) str) s
  | _ => s
  end.

(** The leaves of a plain-object tree in the words of the specification:
    a leaf is any value that is not a non-empty plain object; each comes
    with the keys on the way from the root. *)
Definition non_empty_plain_object (v : value) : bool :=
  match v with
  | VObject (_ :: _) => true
  | _ => false
  end.

Fixpoint leaves (obj : value) : list (value * list jstring) :=
  match obj with
  | VObject props =>
      flat_map
        (fun '(key, value) =>
           if non_empty_plain_object value
           then map (fun '(leaf, keys) => (leaf, key :: keys)) (leaves value)
           else [(value, [key])])
        props
  | _ => []
  end.

(** The dotted path: the keys joined with [.]. *)
Definition dotted (keys : list jstring) : jstring := join (js ".") keys.

(** The path that the code hands to the callback for a leaf reached
    through [keys], starting from [path]. *)
Fixpoint code_path (path : option jstring) (keys : list jstring) : jstring :=
  match keys with
  | [] => match path with Some p => p | None => [] end
  | key :: keys' => code_path (Some (new_path path key)) keys'
  end.

(** Does a property of the root with the empty string as key hold a
    non-empty plain object? *)
Definition empty_key_branch (props : list (jstring * value)) : bool :=
  existsb (fun '(k, v) => str_eqb k [] && non_empty_plain_object v) props.

(** The callback that records its calls. *)
Definition record_call (v : value) (path : jstring)
    (calls : list (value * jstring)) : list (value * jstring) :=
  calls ++ [(v, path)].

(** ** The host: document, promises, mutation observers, event listeners *)

Inductive ready_state := Loading | Interactive | Complete.

(** The children of the root element that the waiter looks for. *)
Inductive element := Head | Body.

Inductive event_type := DOMContentLoaded | LoadEvent.

Inductive event_target := TheDocument | TheWindow.

(** What the waiter reads of the document.  The root element
    ([document.documentElement]) always exists, as its type says. *)
Record document := mkDocument {
  readyState : ready_state;
  has_head : bool;   (**r [document.head] is not [null] *)
  has_body : bool    (**r [document.body] is not [null] *)
}.

Inductive promise_state :=
| Pending
| Fulfilled
| Rejected (reason : value).

(** Promises and observers are named by their index in the host's tables. *)
Definition promise := nat.
Definition observer := nat.

(** A [MutationObserver] created by the waiter.  Its callback is
    [() => { if (document.<awaited>) { observer.disconnect(); resolve() } }]
    with [resolve] belonging to [obs_promise]; [attached] tells whether it
    currently observes the child list of the root element. *)
Record observer_record := mkObserver {
  awaited : element;
  obs_promise : promise;
  attached : bool
}.

(** An event listener registered by the waiter: [() => resolve()] with
    [resolve] belonging to [lst_promise]. *)
Record listener := mkListener {
  lst_target : event_target;
  lst_type : event_type;
  lst_promise : promise
}.

(** The calls made to the host, oldest first. *)
Inductive effect :=
| EObserve (o : observer)
| EDisconnect (o : observer)
| EAddEventListener (t : event_target) (ty : event_type)
| EResolve (p : promise)
| EReject (p : promise).

Record host := mkHost {
  doc : document;
  promises : list promise_state;
  observers : list observer_record;
  listeners : list listener;
  log : list effect
}.

Definition present (d : document) (e : element) : bool :=
  match e with
  | Head => has_head d
  | Body => has_body d
  end.

Definition promise_status (h : host) (p : promise) : promise_state :=
  nth p (promises h) Pending.

Fixpoint update {A} (l : list A) (i : nat) (f : A -> A) : list A :=
  match l, i with
  | [], _ => []
  | x :: l', O => f x :: l'
  | x :: l', S i' => x :: update l' i' f
  end.

Definition emit (e : effect) (h : host) : host :=
  mkHost (doc h) (promises h) (observers h) (listeners h) (log h ++ [e]).

(** [new Promise(...)], before its executor runs. *)
Definition new_promise (h : host) : host * promise :=
  (mkHost (doc h) (promises h ++ [Pending]) (observers h) (listeners h)
          (log h),
   List.length (promises h)).

(** Settling a promise that is already settled does nothing. *)
Definition settle (p : promise) (st : promise_state) (h : host) : host :=
  mkHost (doc h)
         (update (promises h) p
                 (fun old => match old with Pending => st | _ => old end))
         (observers h) (listeners h) (log h).

Definition resolve (p : promise) (h : host) : host :=
  settle p Fulfilled (emit (EResolve p) h).

Definition reject (p : promise) (reason : value) (h : host) : host :=
  settle p (Rejected reason) (emit (EReject p) h).

(** [new MutationObserver(callback)]. *)
Definition new_observer (e : element) (p : promise) (h : host)
    : host * observer :=
  (mkHost (doc h) (promises h) (observers h ++ [mkObserver e p false])
          (listeners h) (log h),
   List.length (observers h)).

Definition set_attached (o : observer) (b : bool) (h : host) : host :=
  mkHost (doc h) (promises h)
         (update (observers h) o
                 (fun r => mkObserver (awaited r) (obs_promise r) b))
         (listeners h) (log h).

(** [observer.observe(document.documentElement, { childList: true })]. *)
Definition observe (o : observer) (h : host) : host :=
  set_attached o true (emit (EObserve o) h).

(** [observer.disconnect()]. *)
Definition disconnect (o : observer) (h : host) : host :=
  set_attached o false (emit (EDisconnect o) h).

(** [target.addEventListener(type, () => resolve())]: every call passes a
    fresh closure, so every call registers a listener. *)
Definition addEventListener (t : event_target) (ty : event_type)
    (p : promise) (h : host) : host :=
  let h := emit (EAddEventListener t ty) h in
  mkHost (doc h) (promises h) (observers h)
         (listeners h ++ [mkListener t ty p]) (log h).

(** ** waitForMoment *)

(** The [document-head] and [document-body] cases. *)
Definition wait_for_element (e : element) (h : host) : host * promise :=
  let (h, p) := new_promise h in
  if present (doc h) e then (resolve p h, p)
  else
    let (h, o) := new_observer e p h in
    (observe o h, p).

Definition is_loading (rs : ready_state) : bool :=
  match rs with Loading => true | _ => false end.

Definition is_complete (rs : ready_state) : bool :=
  match rs with Complete => true | _ => false end.

(** [moment === label] for a string literal [label]: only a string can be
    strictly equal to it. *)
Definition strict_equal (moment : value) (label : string) : bool :=
  match moment with
  | VString s => str_eqb s (js label)
  | _ => false
  end.

(** [waitForMoment(moment)]: the host afterwards and the promise returned.
    The [switch] compares [moment] with each label by strict equality. *)
Definition waitForMoment (moment : value) (h : host) : host * promise :=
  if strict_equal moment "document-start" then
    let (h, p) := new_promise h in (resolve p h, p)
  else if strict_equal moment "document-head" then wait_for_element Head h
  else if strict_equal moment "document-body" then wait_for_element Body h
  else if strict_equal moment "document-end" then
    let (h, p) := new_promise h in
    if negb (is_loading (readyState (doc h))) then (resolve p h, p)
    else (addEventListener TheDocument DOMContentLoaded p h, p)
  else if strict_equal moment "window-load" then
    let (h, p) := new_promise h in
    if is_complete (readyState (doc h)) then (resolve p h, p)
    else (addEventListener TheWindow LoadEvent p h, p)
  else
    let (h, p) := new_promise h in
    (reject p (VString (js "Illegal moment")) h, p).

(** ** What the page does afterwards *)

Inductive page_event :=
| Mutation (head body : bool)
    (**r the child list of the root element changes, leaving [document.head]
       and [document.body] present or not as given; the observers of the
       root element are notified *)
| ReadyStateChange (rs : ready_state)
| Dispatch (t : event_target) (ty : event_type).
    (**r an event of type [ty] is dispatched at [t] *)

(** The callback of observer [o], run on a notification. *)
Definition observer_callback (h : host) (o : observer) : host :=
  match nth_error (observers h) o with
  | Some r =>
      if attached r && present (doc h) (awaited r)
      then resolve (obs_promise r) (disconnect o h)
      else h
  | None => h
  end.

Definition notify_observers (h : host) : host :=
  fold_left observer_callback (seq 0 (List.length (observers h))) h.

Definition event_target_eqb (a b : event_target) : bool :=
  match a, b with
  | TheDocument, TheDocument | TheWindow, TheWindow => true
  | _, _ => false
  end.

Definition event_type_eqb (a b : event_type) : bool :=
  match a, b with
  | DOMContentLoaded, DOMContentLoaded | LoadEvent, LoadEvent => true
  | _, _ => false
  end.

Definition listener_callback (t : event_target) (ty : event_type)
    (h : host) (l : listener) : host :=
  if event_target_eqb (lst_target l) t && event_type_eqb (lst_type l) ty
  then resolve (lst_promise l) h
  else h.

Definition set_doc (d : document) (h : host) : host :=
  mkHost d (promises h) (observers h) (listeners h) (log h).

Definition step (h : host) (ev : page_event) : host :=
  match ev with
  | Mutation hd bd =>
      notify_observers (set_doc (mkDocument (readyState (doc h)) hd bd) h)
  | ReadyStateChange rs =>
      set_doc (mkDocument rs (has_head (doc h)) (has_body (doc h))) h
  | Dispatch t ty => fold_left (listener_callback t ty) (listeners h) h
  end.

Definition run (h : host) (evs : list page_event) : host :=
  fold_left step evs h.

(** ** Notions used to state the properties of the waiter *)

Definition legal_moments : list string :=
  ["document-start"; "document-head"; "document-body"; "document-end";
   "window-load"]%string.

Definition is_legal_moment (moment : value) : bool :=
  existsb (strict_equal moment) legal_moments.

(** A host in which every callback registered so far belongs to a promise
    that exists. *)
Definition well_formed (h : host) : Prop :=
  Forall (fun l => (lst_promise l < length (promises h))%nat) (listeners h)
  /\ Forall (fun r => (obs_promise r < length (promises h))%nat)
            (observers h).

(** Is the event a dispatch of [ty] at [t]? *)
Definition is_dispatch (t : event_target) (ty : event_type)
    (ev : page_event) : bool :=
  match ev with
  | Dispatch t' ty' => event_target_eqb t' t && event_type_eqb ty' ty
  | _ => false
  end.

(** Is the event a mutation after which the element exists? *)
Definition brings (e : element) (ev : page_event) : bool :=
  match ev with
  | Mutation hd bd => match e with Head => hd | Body => bd end
  | _ => false
  end.

Definition is_disconnect (o : observer) (eff : effect) : bool :=
  match eff with
  | EDisconnect o' => Nat.eqb o' o
  | _ => false
  end.

(** How many times [o.disconnect()] has been called. *)
Definition disconnections (o : observer) (h : host) : nat :=
  length (filter (is_disconnect o) (log h)).

(** Is observer [o] observing? *)
Definition is_attached (o : observer) (h : host) : bool :=
  match nth_error (observers h) o with
  | Some r => attached r
  | None => false
  end.

(** The subscriptions that still serve promise [p]: observers that are
    observing, and registered listeners. *)
Definition subscriptions (p : promise) (h : host) : nat :=
  length (filter (fun r => attached r && Nat.eqb (obs_promise r) p)
                 (observers h))
  + length (filter (fun l => Nat.eqb (lst_promise l) p) (listeners h)).

(** What the page events leave alone: the registered listeners, the
    number of promises, the observers apart from their attachment, and the
    outcome of promises already settled; and no promise gets rejected. *)
Record evolves (h h' : host) : Prop := mkEvolves {
  ev_listeners : listeners h' = listeners h;
  ev_promises : length (promises h') = length (promises h);
  ev_observers :
    map (fun r => (awaited r, obs_promise r)) (observers h')
    = map (fun r => (awaited r, obs_promise r)) (observers h);
  ev_rejected :
    forall q reason,
      promise_status h' q = Rejected reason ->
      promise_status h q = Rejected reason;
  ev_settled :
    forall q, promise_status h q <> Pending ->
              promise_status h' q = promise_status h q
}.

(** Promise [p] is served by the listener for [ty] at [t] and by no other
    callback. *)
Definition served_by_listener (p : promise) (t : event_target)
    (ty : event_type) (h : host) : Prop :=
  (p < length (promises h))%nat
  /\ In (mkListener t ty p) (listeners h)
  /\ (forall l, In l (listeners h) -> lst_promise l = p ->
                l = mkListener t ty p)
  /\ Forall (fun ap => snd ap <> p)
            (map (fun r => (awaited r, obs_promise r)) (observers h)).

(** A promise once settled stays as it is; resolving a pending one
    fulfils it. *)
Definition resolved (st : promise_state) : promise_state :=
  match st with
  | Pending => Fulfilled
  | Fulfilled => Fulfilled
  | Rejected reason => Rejected reason
  end.

(** The moment that waits for an element. *)
Definition element_moment (e : element) : value :=
  VString (js match e with
              | Head => "document-head"
              | Body => "document-body"
              end).

(** The first host of a page that is still loading. *)
Definition loading_page : host :=
  mkHost (mkDocument Loading false false) [] [] [] [].

(* ================================================================== *)
(** * Further definitions: the rest of the module and notions used to
      state more of what the code does *)
(* ================================================================== *)

(** ** Strings of code units, and counting a character *)

Definition is_code_unit (c : Z) : Prop := 0 <= c < 65536.

Definition code_units (s : jstring) : Prop := Forall is_code_unit s.

Definition count_char (c : code_unit) (s : jstring) : nat :=
  length (filter (Z.eqb c) s).

(** A mapping whose keys are all different, as the keys of an object
    are. *)
Definition distinct_keys (o : object) : Prop := NoDup (Object_keys o).

(** ** The alphabet of the query string *)

Definition is_HEX (c : code_unit) : bool :=
  ((48 <=? c) && (c <=? 57)) || ((65 <=? c) && (c <=? 70)).

(** The unreserved characters of RFC 3986: letters, digits and [- _ . ~]. *)
Definition is_unreserved (c : code_unit) : bool :=
  is_alnum c || existsb (Z.eqb c) (js "-_.~").

(** What a percent-encoded key is made of: the characters that
    [encodeURIComponent] leaves alone, and [%]. *)
Definition key_char (c : code_unit) : bool := uri_unescaped c || (c =? 37).

(** What a percent-encoded, cleaned value is made of: unreserved
    characters and [%]. *)
Definition value_char (c : code_unit) : bool := is_unreserved c || (c =? 37).

(** Keys, and the strings of the values, are strings of code units. *)
Definition code_unit_params (params : object) : Prop :=
  Forall (fun kv => code_units (fst kv)
                    /\ forall s, toString (snd kv) = Ok s -> code_units s)
         params.

(** A pair [key=value] of the query, in which neither part holds [=] or
    [&]. *)
Definition well_shaped_pair (pair : jstring) : Prop :=
  exists k v, pair = k ++ js "=" ++ v
              /\ Forall (fun c => key_char c = true) k
              /\ Forall (fun c => value_char c = true) v.

(** The key under which [_.forEach] hands over index [i], as a string. *)
Definition index_key (i : nat) : jstring := number_toString (Z.of_nat i).

(** [String.prototype.isWellFormed]: the string holds no surrogate outside
    a pair. *)
Fixpoint isWellFormed (s : jstring) : bool :=
  match s with
  | [] => true
  | c :: rest =>
      if is_leading_surrogate c then
        match rest with
        | c2 :: rest' => is_trailing_surrogate c2 && isWellFormed rest'
        | [] => false
        end
      else negb (is_trailing_surrogate c) && isWellFormed rest
  end.

(** ** Waiters among other waiters *)

(** What happens on a page: the page events, and further calls of
    [waitForMoment]. *)
Inductive activity :=
| PageEvent (ev : page_event)
| Call (moment : value).

Definition act (h : host) (a : activity) : host :=
  match a with
  | PageEvent ev => step h ev
  | Call moment => fst (waitForMoment moment h)
  end.

Definition perform (h : host) (acts : list activity) : host :=
  fold_left act acts h.

Definition page_events (acts : list activity) : list page_event :=
  flat_map (fun a => match a with PageEvent ev => [ev] | Call _ => [] end)
           acts.

(** What a call of [waitForMoment] adds to the host [h], giving [h'] and
    the promise [p]: one promise, and for it one subscription or none. *)
Definition call_frame (h h' : host) (p : promise) : Prop :=
  p = length (promises h)
  /\ doc h' = doc h
  /\ exists st obs lst,
       promises h' = promises h ++ [st]
       /\ observers h' = observers h ++ obs
       /\ listeners h' = listeners h ++ lst
       /\ Forall (fun r => obs_promise r = p /\ attached r = true
                           /\ present (doc h) (awaited r) = false) obs
       /\ Forall (fun l => lst_promise l = p) lst
       /\ (length obs + length lst)%nat
          = match st with Pending => 1%nat | _ => 0%nat end.

(** The state of the promise that [waitForMoment(moment)] returned when the
    document was [d], after the page events [evs]. *)
Definition outcome (moment : value) (d : document) (evs : list page_event)
    : promise_state :=
  let when (now : bool) (later : page_event -> bool) :=
    if now || existsb later evs then Fulfilled else Pending in
  if strict_equal moment "document-start" then Fulfilled
  else if strict_equal moment "document-head" then
    when (has_head d) (brings Head)
  else if strict_equal moment "document-body" then
    when (has_body d) (brings Body)
  else if strict_equal moment "document-end" then
    when (negb (is_loading (readyState d)))
         (is_dispatch TheDocument DOMContentLoaded)
  else if strict_equal moment "window-load" then
    when (is_complete (readyState d)) (is_dispatch TheWindow LoadEvent)
  else Rejected (VString (js "Illegal moment")).

(** No observer is observing while the element it awaits exists. *)
Definition tidy (h : host) : Prop :=
  forall o r,
    nth_error (observers h) o = Some r ->
    attached r = true -> present (doc h) (awaited r) = false.

(** Promise [p] is served by observer [o], which awaits [e], and by no
    other callback. *)
Definition served_by_observer (p : promise) (o : observer) (e : element)
    (att : bool) (h : host) : Prop :=
  (p < length (promises h))%nat
  /\ nth_error (observers h) o = Some (mkObserver e p att)
  /\ (forall i r, nth_error (observers h) i = Some r ->
                  obs_promise r = p -> i = o)
  /\ Forall (fun l => lst_promise l <> p) (listeners h).


(* ================================================================== *)
(** * Part II: theorems *)
(* ================================================================== *)

(** ** The MD5 model agrees with the RFC 1321 test suite *)

Example MD5_empty :
  CryptoJS_MD5 (js "") = Ok (js "d41d8cd98f00b204e9800998ecf8427e").
Proof. vm_compute. reflexivity. Qed.

Example MD5_abc :
  CryptoJS_MD5 (js "abc") = Ok (js "900150983cd24fb0d6963f7d28e17f72").
Proof. vm_compute. reflexivity. Qed.

Example MD5_two_blocks :
  CryptoJS_MD5 (repeat 97 70) = Ok (js "0f5c6c4e740bfcc08c3c26ccb2673d46").
Proof. vm_compute. reflexivity. Qed.

(** ** General facts about the string and list helpers *)

Lemma join_opt_empty_sep (l : list (option jstring)) :
  join_opt [] l
  = flat_map (fun x => match x with Some s => s | None => [] end) l.
Proof.
  induction l as [|x l IH]; [reflexivity|].
  destruct l as [|y l].
  - simpl. now rewrite app_nil_r.
  - change (join_opt [] (x :: y :: l))
      with ((match x with Some s => s | None => [] end)
              ++ [] ++ join_opt [] (y :: l)).
    rewrite IH. reflexivity.
Qed.

Lemma flat_map_singletons {A B} (f : A -> list B) (g : A -> B) (l : list A) :
  Forall (fun x => f x = [g x]) l -> flat_map f l = map g l.
Proof.
  induction 1 as [|x l Hx _ IH]; simpl; [reflexivity|].
  now rewrite Hx, IH.
Qed.

(** ** wbiSign: the salt (claim C1) *)

Section Salt.

Variables imgKey subKey : jstring.

Let S := imgKey ++ subKey.

Lemma wbi_salt_unfold :
  wbi_salt imgKey subKey = firstn 32 (flat_map (picked S) salt_table).
Proof.
  unfold wbi_salt, slice0, char_at. fold S.
  rewrite join_opt_empty_sep, flat_map_concat_map, map_map.
  rewrite <- flat_map_concat_map.
  f_equal. apply flat_map_ext. intros n. unfold picked.
  now destruct (nth_error S n).
Qed.

Lemma picked_length (l : list nat) :
  length (flat_map (picked S) l)
  = length (filter (fun n => (n <? length S)%nat) l).
Proof.
  induction l as [|n l IH]; simpl; [reflexivity|].
  rewrite length_app, IH. unfold picked.
  destruct (nth_error S n) eqn:E.
  - assert (n < length S)%nat as H
      by (apply nth_error_Some; congruence).
    apply Nat.ltb_lt in H. now rewrite H.
  - apply nth_error_None in E.
    assert ((n <? length S)%nat = false) as H by (apply Nat.ltb_ge; lia).
    now rewrite H.
Qed.

Lemma picked_in_range (d : code_unit) (l : list nat) :
  Forall (fun n => (n < length S)%nat) l ->
  flat_map (picked S) l = map (fun n => nth n S d) l.
Proof.
  intros H. apply flat_map_singletons.
  eapply Forall_impl; [|exact H]. intros n Hn. unfold picked.
  now rewrite (nth_error_nth' S d Hn).
Qed.

End Salt.

Lemma salt_table_bounded : Forall (fun n => (n < 64)%nat) salt_table.
Proof. repeat constructor. Qed.

(** Claim C1.  The salt of [wbiSign] is made of the characters of
    [S = imgKey + subKey] at the 64 positions of the fixed table, in table
    order, cut to the first 32 characters.  There is no bounds check: a
    table entry past the end of [S] contributes no character, so the salt has
    [min 32 k] characters where [k] counts the table entries inside [S];
    when [S] has at least 64 characters the salt has exactly 32 and its
    i-th character is the character of [S] at the i-th table entry. *)
Theorem wbi_salt_spec (imgKey subKey : jstring) :
  let S := imgKey ++ subKey in
  length salt_table = 64%nat
  /\ wbi_salt imgKey subKey = firstn 32 (flat_map (picked S) salt_table)
  /\ length (wbi_salt imgKey subKey)
     = Nat.min 32
         (length (filter (fun n => (n <? length S)%nat) salt_table))
  /\ ((64 <= length S)%nat ->
      length (wbi_salt imgKey subKey) = 32%nat
      /\ forall i, (i < 32)%nat ->
           nth_error (wbi_salt imgKey subKey) i
           = nth_error S (nth i salt_table 0%nat)).
Proof.
  cbv zeta. split; [reflexivity|]. split; [apply wbi_salt_unfold|].
  split.
  - rewrite wbi_salt_unfold, length_firstn, picked_length. reflexivity.
  - intros Hlen.
    assert (Forall (fun n => (n < length (imgKey ++ subKey))%nat) salt_table)
      as Hin.
    { eapply Forall_impl; [|exact salt_table_bounded].
      simpl. intros; lia. }
    rewrite wbi_salt_unfold, (picked_in_range imgKey subKey 0 _ Hin).
    split.
    + rewrite length_firstn, length_map. reflexivity.
    + intros i Hi.
      rewrite nth_error_firstn.
      apply Nat.ltb_lt in Hi as Hi'. rewrite Hi'.
      rewrite nth_error_map.
      assert (i < length salt_table)%nat as Hi2 by (simpl; lia).
      rewrite (nth_error_nth' salt_table 0%nat Hi2). unfold option_map.
      rewrite Forall_forall in Hin.
      symmetry. apply nth_error_nth'. apply Hin. now apply nth_In.
Qed.

(** The theorem at the keys of a real session: 64 characters in all. *)
Lemma wbi_salt_spec_witness :
  (64 <= length (js "7cd084941338484aae1ad9425b84077c"
                   ++ js "4932caff0ff746eab6f01bf08b70ac45"))%nat
  /\ wbi_salt (js "7cd084941338484aae1ad9425b84077c")
              (js "4932caff0ff746eab6f01bf08b70ac45")
     = js "ea1db124af3c7062474693fa704f4ff8"
  /\ length (wbi_salt (js "7cd084941338484aae1ad9425b84077c")
                      (js "4932caff0ff746eab6f01bf08b70ac45")) = 32%nat.
Proof.
  split; [vm_compute; lia|].
  split; [vm_compute; reflexivity|].
  apply (wbi_salt_spec (js "7cd084941338484aae1ad9425b84077c")
                       (js "4932caff0ff746eab6f01bf08b70ac45")).
  vm_compute; lia.
Defined.

(** With keys that are too short the missing characters are skipped
    silently. *)
Example wbi_salt_short_keys :
  wbi_salt (js "abc") (js "de") = js "cdabe".
Proof. reflexivity. Qed.

(** ** uuid (claim C9) *)

Lemma randomInt_range (q : Q) :
  in_unit_interval q -> 0 <= randomInt q < 16.
Proof.
  intros [H0 H1]. unfold randomInt. rewrite Z.lor_0_r. split.
  - change 0 with (Qfloor (inject_Z 0)). apply Qfloor_resp_le.
    change (inject_Z 0) with (16 * 0)%Q.
    apply Qmult_le_l; [reflexivity | exact H0].
  - rewrite Zlt_Qlt. eapply Qle_lt_trans; [apply Qfloor_le|].
    change (inject_Z 16) with (16 * 1)%Q.
    apply Qmult_lt_l; [reflexivity | exact H1].
Qed.

Lemma nibble_cases (r : Z) (P : Z -> Prop) :
  0 <= r < 16 ->
  P 0 -> P 1 -> P 2 -> P 3 -> P 4 -> P 5 -> P 6 -> P 7 ->
  P 8 -> P 9 -> P 10 -> P 11 -> P 12 -> P 13 -> P 14 -> P 15 -> P r.
Proof.
  intros Hr.
  assert (r = 0 \/ r = 1 \/ r = 2 \/ r = 3 \/ r = 4 \/ r = 5 \/ r = 6
          \/ r = 7 \/ r = 8 \/ r = 9 \/ r = 10 \/ r = 11 \/ r = 12
          \/ r = 13 \/ r = 14 \/ r = 15) as H by lia.
  intros; repeat (destruct H as [->|H]; [assumption|]); subst; assumption.
Qed.

Lemma hex_digit_is_hex (r : Z) :
  0 <= r < 16 -> is_lower_hex (hex_digit r) = true.
Proof.
  intros Hr. pattern r. apply nibble_cases; [exact Hr|..]; reflexivity.
Qed.

(** Masking with [0011] and setting bit [1000] leaves one of 8, 9, 10, 11,
    printed as one of [8 9 a b]. *)
Lemma variant_nibble (r : Z) :
  0 <= r < 16 ->
  8 <= Z.lor (Z.land 3 r) 8 <= 11
  /\ in_class CVariant (hex_digit (Z.lor (Z.land 3 r) 8)) = true.
Proof.
  intros Hr. pattern r. apply nibble_cases; [exact Hr|..];
    repeat split; vm_compute; try reflexivity; intro; discriminate.
Qed.

Lemma replace_xy_matches (rnd : random_source) (template : jstring) :
  (forall i, in_unit_interval (rnd i)) ->
  forall i,
    matches (map class_of_template template) (replace_xy rnd i template)
    = true.
Proof.
  intros Hrnd. induction template as [|c rest IH]; intros i; simpl.
  - reflexivity.
  - unfold class_of_template at 1.
    destruct (c =? 120) eqn:Ex; simpl.
    + rewrite IH, andb_true_r. apply hex_digit_is_hex.
      apply randomInt_range, Hrnd.
    + destruct (c =? 121) eqn:Ey; simpl.
      * rewrite IH, andb_true_r.
        apply (variant_nibble (randomInt (rnd i))).
        apply randomInt_range, Hrnd.
      * rewrite IH, andb_true_r. apply Z.eqb_refl.
Qed.

(** Claim C9.  Whatever the random source returns (each value in
    [[0, 1)]), the string built by [uuid] matches
    [[0-9a-f]{8}-[0-9a-f]{4}-4[0-9a-f]{3}-[89ab][0-9a-f]{3}-[0-9a-f]{12}]:
    every [x] is replaced by the hexadecimal digit of a random integer in
    0..15, the version character is the constant [4], and the variant
    character is the digit of [(3 & r) | 8] for the sixteenth random integer
    [r], which is one of 8, 9, a, b. *)
Theorem uuid_matches_pattern (rnd : random_source) :
  (forall i, in_unit_interval (rnd i)) ->
  matches uuid_pattern (uuid rnd) = true
  /\ length (uuid rnd) = 36%nat
  /\ nth_error (uuid rnd) 14 = Some 52
  /\ nth_error (uuid rnd) 19
     = Some (hex_digit (Z.lor (Z.land 3 (randomInt (rnd 15%nat))) 8))
  /\ 8 <= Z.lor (Z.land 3 (randomInt (rnd 15%nat))) 8 <= 11.
Proof.
  intros Hrnd. split; [|split; [|split; [|split]]].
  - exact (replace_xy_matches rnd uuid_template Hrnd 0%nat).
  - reflexivity.
  - reflexivity.
  - reflexivity.
  - apply variant_nibble, randomInt_range, Hrnd.
Qed.

(** The theorem at a random source that always returns 0.7. *)
Lemma uuid_matches_pattern_witness :
  (forall i : nat, in_unit_interval (7 # 10))
  /\ matches uuid_pattern (uuid (fun _ => 7 # 10)) = true
  /\ uuid (fun _ => 7 # 10) = js "bbbbbbbb-bbbb-4bbb-bbbb-bbbbbbbbbbbb".
Proof.
  assert (forall i : nat, in_unit_interval (7 # 10)) as H
    by (intros _; split; [discriminate | reflexivity]).
  split; [exact H|]. split.
  - apply (uuid_matches_pattern (fun _ => 7 # 10) H).
  - vm_compute. reflexivity.
Defined.

Example uuid_variant_from_15 :
  uuid (fun _ => 63 # 64) = js "ffffffff-ffff-4fff-bfff-ffffffffffff".
Proof. vm_compute. reflexivity. Qed.

(** ** deepestIterate (claim C8) *)

(** Induction on values whose only recursive case is the plain object. *)
Lemma value_object_ind (P : value -> Prop) :
  (forall v, isPlainObject v = false -> P v) ->
  (forall props, Forall (fun kv => P (snd kv)) props -> P (VObject props)) ->
  forall v, P v.
Proof.
  intros Hleaf Hobj. fix IH 1.
  intros [ | | b | n | s | elems | props | repr own];
    try (apply Hleaf; reflexivity).
  apply Hobj.
  induction props as [|[k v] props IHprops]; constructor.
  - apply IH.
  - exact IHprops.
Qed.

Lemma non_empty_plain_object_spec (v : value) :
  isPlainObject v && negb (isEmpty v) = non_empty_plain_object v.
Proof. destruct v as [ | | | | | | [|kv props] | ]; reflexivity. Qed.

Lemma fold_left_map {A B C} (f : A -> C -> A) (g : B -> C) (l : list B)
    (a : A) :
  fold_left f (map g l) a = fold_left (fun a x => f a (g x)) l a.
Proof.
  revert a. induction l as [|x l IH]; intros a; simpl; [reflexivity|].
  apply IH.
Qed.

Lemma fold_left_ext_eq {A B} (f g : A -> B -> A) (l : list B) (a : A) :
  (forall a x, f a x = g a x) -> fold_left f l a = fold_left g l a.
Proof.
  intros H. revert a. induction l as [|x l IH]; intros a; simpl.
  - reflexivity.
  - rewrite H. apply IH.
Qed.

Section DeepestIterate.

Variable S : Type.
Variable fn : value -> jstring -> S -> S.

(** One call of the callback for a leaf and its keys. *)
Let call (path : option jstring) (s : S) (leaf : value * list jstring)
    : S :=
  fn (fst leaf) (code_path path (snd leaf)) s.

(** On a plain object, [deepestIterate] runs the callback on the leaves,
    in enumeration order, once each. *)
Lemma deepestIterate_leaves (obj : value) :
  isPlainObject obj = true ->
  forall path s,
    deepestIterate obj fn path s
    = fold_left (call path) (leaves obj) s.
Proof.
  induction obj as [v Hv | props IH] using value_object_ind.
  - congruence.
  - intros _ path s. simpl. revert s.
    induction IH as [|[key v] props Hv _ IHprops]; intros s.
    + reflexivity.
    + cbn [fold_left flat_map]. rewrite fold_left_app.
      rewrite non_empty_plain_object_spec.
      destruct (non_empty_plain_object v) eqn:Ev.
      * simpl in Hv. rewrite Hv by (now destruct v).
        rewrite fold_left_map.
        rewrite (fold_left_ext_eq
                   (fun a x => call path a (let '(leaf, keys) := x in
                                            (leaf, key :: keys)))
                   (call (Some (new_path path key)))).
        -- apply IHprops.
        -- intros a [leaf keys]. reflexivity.
      * apply IHprops.
Qed.

End DeepestIterate.

(** The path built by the code is the dotted path unless the first key
    is the empty string and more keys follow. *)
Lemma code_path_from (p : jstring) (keys : list jstring) :
  p <> [] ->
  code_path (Some p) keys = p ++ flat_map (fun k => js "." ++ k) keys.
Proof.
  revert p. induction keys as [|k keys IH]; intros p Hp; simpl.
  - now rewrite app_nil_r.
  - destruct p as [|c p]; [congruence|].
    rewrite IH by discriminate.
    now rewrite <- !app_assoc.
Qed.

Lemma dotted_cons (k : jstring) (keys : list jstring) :
  dotted (k :: keys) = k ++ flat_map (fun k => js "." ++ k) keys.
Proof.
  unfold dotted, join. revert k.
  induction keys as [|k' keys IH]; intros k.
  - simpl. now rewrite app_nil_r.
  - change (join_opt (js ".") (map Some (k :: k' :: keys)))
      with (k ++ js "." ++ join_opt (js ".") (map Some (k' :: keys))).
    rewrite IH. reflexivity.
Qed.

Lemma code_path_dotted (k : jstring) (keys : list jstring) :
  k <> [] \/ keys = [] ->
  code_path None (k :: keys) = dotted (k :: keys).
Proof.
  intros [Hk | ->].
  - rewrite dotted_cons. simpl. destruct k; [congruence|].
    now apply code_path_from.
  - reflexivity.
Qed.

Lemma fold_left_ext_in {A B} (f g : A -> B -> A) (l : list B) (a : A) :
  (forall a x, In x l -> f a x = g a x) -> fold_left f l a = fold_left g l a.
Proof.
  revert a. induction l as [|x l IH]; intros a H; simpl.
  - reflexivity.
  - rewrite H by now left. apply IH. intros; apply H; now right.
Qed.

Lemma str_eqb_eq (a b : jstring) : str_eqb a b = true <-> a = b.
Proof.
  revert b. induction a as [|x a IH]; intros [|y b]; simpl;
    try (split; congruence).
  rewrite andb_true_iff, Z.eqb_eq, IH. split.
  - intros [-> ->]; reflexivity.
  - intros [= -> ->]; split; reflexivity.
Qed.

Lemma str_eqb_refl (a : jstring) : str_eqb a a = true.
Proof. now apply str_eqb_eq. Qed.

Lemma leaves_keys (props : list (jstring * value)) (leaf : value)
    (keys : list jstring) :
  empty_key_branch props = false ->
  In (leaf, keys) (leaves (VObject props)) ->
  exists k ks, keys = k :: ks /\ (k <> [] \/ ks = []).
Proof.
  intros Hno Hin. simpl in Hin. apply in_flat_map in Hin.
  destruct Hin as [[key v] [Hprop Hin]].
  destruct (non_empty_plain_object v) eqn:Ev.
  - apply in_map_iff in Hin. destruct Hin as [[leaf' ks] [[= <- <-] _]].
    exists key, ks. split; [reflexivity|]. left. intros ->.
    unfold empty_key_branch in Hno.
    assert (existsb (fun '(k, v) => str_eqb k [] && non_empty_plain_object v)
                    props = true) as Hex.
    { apply existsb_exists. exists ([], v). split; [exact Hprop|].
      now rewrite Ev. }
    congruence.
  - destruct Hin as [[= <- <-] | []]. exists key, []. auto.
Qed.

(** What holds of [deepestIterate] on every plain-object tree in which no
    root property with the empty key holds a non-empty plain object: the
    callback runs exactly once per leaf, in enumeration order, on the leaf
    and its dotted path. *)
Theorem deepestIterate_visits_leaves (S : Type)
    (fn : value -> jstring -> S -> S) (props : list (jstring * value))
    (s : S) :
  empty_key_branch props = false ->
  deepestIterate (VObject props) fn None s
  = fold_left (fun s leaf => fn (fst leaf) (dotted (snd leaf)) s)
              (leaves (VObject props)) s.
Proof.
  intros Hno. rewrite deepestIterate_leaves by reflexivity.
  apply fold_left_ext_in. intros a [leaf keys] Hin. simpl.
  destruct (leaves_keys props leaf keys Hno Hin) as (k & ks & -> & Hk).
  now rewrite code_path_dotted.
Qed.

Lemma deepestIterate_visits_leaves_witness :
  deepestIterate
    (VObject [(js "a", VObject [(js "b", VNumber 1); (js "c", VObject [])]);
              (js "d", VNumber 2)])
    record_call None []
  = [(VNumber 1, js "a.b"); (VObject [], js "a.c"); (VNumber 2, js "d")].
Proof.
  rewrite deepestIterate_visits_leaves by reflexivity.
  reflexivity.
Defined.

(** The example of the specification. *)
Example deepestIterate_example :
  deepestIterate
    (VObject [(js "a", VObject [(js "b", VNumber 1); (js "c", VObject [])]);
              (js "d", VNumber 2)])
    record_call None []
  = [(VNumber 1, js "a.b"); (VObject [], js "a.c"); (VNumber 2, js "d")].
Proof. reflexivity. Qed.

(** A root without own enumerable properties: the callback never runs. *)
Lemma deepestIterate_empty_root (S : Type) (fn : value -> jstring -> S -> S)
    (s : S) :
  deepestIterate (VObject []) fn None s = s.
Proof. reflexivity. Qed.

(** Claim C8, at the input [{"": {a: 1}}].  The only leaf is the value 1,
    reached through the keys [""] and ["a"], so its dotted path is [.a];
    [deepestIterate] calls the callback once, with the path [a]: after the
    empty key the accumulated path is the empty string, which
    [path ? ... : key] takes for an absent path. *)
Theorem deepestIterate_empty_key_path :
  let obj := VObject [(js "", VObject [(js "a", VNumber 1)])] in
  leaves obj = [(VNumber 1, [js ""; js "a"])]
  /\ dotted [js ""; js "a"] = js ".a"
  /\ deepestIterate obj record_call None [] = [(VNumber 1, js "a")]
  /\ deepestIterate obj record_call None []
     <> map (fun leaf => (fst leaf, dotted (snd leaf))) (leaves obj).
Proof.
  cbv zeta. repeat split; try reflexivity. vm_compute. discriminate.
Qed.

(** ** toString *)

(** Induction on values, through arrays and plain objects. *)
Lemma value_nested_ind (P : value -> Prop) :
  P VUndefined -> P VNull ->
  (forall b, P (VBoolean b)) -> (forall n, P (VNumber n)) ->
  (forall s, P (VString s)) ->
  (forall elems, Forall P elems -> P (VArray elems)) ->
  (forall props, Forall (fun kv => P (snd kv)) props -> P (VObject props)) ->
  (forall repr own,
      Forall (fun kv => P (snd kv)) own -> P (VHost repr own)) ->
  forall v, P v.
Proof.
  intros Hu Hn Hb Hnum Hs Harr Hobj Hhost. fix IH 1.
  intros [ | | b | n | s | elems | props | repr own];
    [exact Hu | exact Hn | apply Hb | apply Hnum | apply Hs | | | ].
  - apply Harr. induction elems as [|v elems IHe]; constructor.
    + apply IH.
    + exact IHe.
  - apply Hobj. induction props as [|[k v] props IHp]; constructor.
    + apply IH.
    + exact IHp.
  - apply Hhost. induction own as [|[k v] own IHp]; constructor.
    + apply IH.
    + exact IHp.
Qed.

Lemma map_result_throw {A B} (f : A -> result B) (l : list A) (e : error) :
  map_result f l = Throw e -> exists x, In x l /\ f x = Throw e.
Proof.
  induction l as [|x l IH]; simpl; [discriminate|].
  destruct (f x) as [y|e'] eqn:Ex; simpl.
  - destruct (map_result f l) as [ys|e'']; simpl; [discriminate|].
    intros [= <-]. destruct IH as (x' & Hin & Hx'); [reflexivity|].
    exists x'. auto.
  - intros [= <-]. exists x. auto.
Qed.

(** [toString] fails only with a TypeError. *)
Lemma toString_error (v : value) (e : error) :
  toString v = Throw e -> e = TypeError.
Proof.
  revert e. induction v as [ | | b | n | s | elems IH | props _ | repr own _]
    using value_nested_ind; intros e; simpl; try congruence.
  - destruct (map_result _ elems) as [strs|e'] eqn:E; simpl; [discriminate|].
    intros [= <-]. apply map_result_throw in E.
    destruct E as (x & Hin & Hx). rewrite Forall_forall in IH.
    destruct (is_nullish x); [discriminate|]. now apply (IH x).
  - destruct (has_own props (js "toString")); congruence.
Qed.

Lemma toString_nullish (v : value) :
  is_nullish v = true -> toString v = Throw TypeError.
Proof. destruct v; simpl; congruence. Qed.

Lemma toString_not_nullish (v : value) (s : jstring) :
  toString v = Ok s -> is_nullish v = false.
Proof. destruct v; simpl; congruence. Qed.

(** ** packFormData (claim C10) *)

(** One entry of the carrier for a property of a mapping that [_.forEach]
    iterates by its keys. *)
Lemma packFormData_fold (l : list (jstring * value)) (fd : FormData) :
  fold_result
    (fun formData '(value, key) =>
       s <- toString value ;; Ok (FormData_append formData key s))
    (map (fun kv => (snd kv, VString (fst kv))) l) fd
  = (entries <- map_result
                  (fun kv => s <- toString (snd kv) ;;
                             Ok (to_USVString (fst kv), to_USVString s)) l ;;
     Ok (fd ++ entries)).
Proof.
  revert fd. induction l as [|[k v] l IH]; intros fd; simpl.
  - now rewrite app_nil_r.
  - destruct (toString v) as [s|e]; simpl; [|reflexivity].
    rewrite IH. unfold FormData_append. simpl.
    destruct (map_result _ l) as [entries|e]; simpl; [|reflexivity].
    now rewrite <- app_assoc.
Qed.

Lemma packFormData_by_keys (json : object) :
  array_like_length json = None ->
  packFormData json
  = map_result (fun kv => s <- toString (snd kv) ;;
                          Ok (to_USVString (fst kv), to_USVString s)) json.
Proof.
  intros Hlen. unfold packFormData, forEach_calls. rewrite Hlen.
  rewrite packFormData_fold.
  now destruct (map_result _ json).
Qed.

Lemma map_result_ok {A B} (f : A -> result B) (l : list A) (ys : list B) :
  map_result f l = Ok ys -> Forall (fun x => exists y, f x = Ok y) l.
Proof.
  revert ys. induction l as [|x l IH]; intros ys; simpl; [constructor|].
  destruct (f x) as [y|e] eqn:Ex; simpl; [|discriminate].
  destruct (map_result f l) as [ys'|e]; simpl; [|discriminate].
  intros _. constructor; [now exists y | now apply (IH ys')].
Qed.

Lemma map_result_first_throw {A B} (f : A -> result B) (l : list A) (x : A)
    (e : error) :
  In x l -> f x = Throw e -> exists e', map_result f l = Throw e'.
Proof.
  intros Hin Hx. destruct (map_result f l) as [ys|e'] eqn:E.
  - apply map_result_ok in E. rewrite Forall_forall in E.
    destruct (E x Hin) as [y Hy]. congruence.
  - now exists e'.
Qed.

(** What holds of the claim.  [_.forEach] iterates a mapping by its keys
    unless the mapping has a [length] property that is a valid array
    length.  For every mapping iterated by its keys: if some key is bound to
    [null] or [undefined], [packFormData] throws a TypeError and returns no
    carrier; and whenever it returns a carrier, no value is nullish. *)
Lemma packFormData_by_keys_throws (json : object) :
  array_like_length json = None ->
  ((exists k v, In (k, v) json /\ is_nullish v = true) ->
   packFormData json = Throw TypeError)
  /\ (forall fd, packFormData json = Ok fd ->
        Forall (fun kv => is_nullish (snd kv) = false) json).
Proof.
  intros Hlen. rewrite (packFormData_by_keys json Hlen). split.
  - intros (k & v & Hin & Hnull).
    destruct (map_result_first_throw
                (fun kv => s <- toString (snd kv) ;;
                           Ok (to_USVString (fst kv), to_USVString s))
                json (k, v) TypeError Hin) as [e He].
    { simpl. now rewrite (toString_nullish v Hnull). }
    rewrite He. f_equal.
    apply map_result_throw in He. destruct He as ([k' v'] & _ & Hthrow).
    simpl in Hthrow. destruct (toString v') as [s|e'] eqn:Ev; [discriminate|].
    simpl in Hthrow. injection Hthrow as <-.
    now apply (toString_error v').
  - intros fd Hfd.
    apply map_result_ok in Hfd.
    eapply Forall_impl; [|exact Hfd].
    intros [k v] [y Hy]. simpl in *.
    destruct (toString v) as [s|e] eqn:Ev; [|discriminate].
    now apply (toString_not_nullish v s).
Qed.

(** Claim C10, at the input [{length: 0, a: null}].  The mapping binds [a]
    to [null], so the claim has [packFormData] throw a TypeError, and going
    through its two properties key by key does throw one.  But [_.forEach]
    takes a mapping whose [length] is a valid array length for an array:
    here an empty one, so the callback is never called, no value is asked
    for its string, and [packFormData] returns an empty carrier in which
    neither [length] nor [a] is packed. *)
Theorem packFormData_length_zero_drops_keys :
  let json := [(js "length", VNumber 0); (js "a", VNull)] in
  (In (js "a", VNull) json /\ is_nullish VNull = true)
  /\ Object_keys json = [js "length"; js "a"]
  /\ fold_result
       (fun formData '(value, key) =>
          s <- toString value ;; Ok (FormData_append formData key s))
       (map (fun kv => (snd kv, VString (fst kv))) json) []
     = Throw TypeError
  /\ forEach_calls json = []
  /\ packFormData json = Ok []
  /\ packFormData json <> Throw TypeError.
Proof.
  cbv zeta. split; [split; [simpl; auto | reflexivity]|].
  split; [reflexivity|]. split; [reflexivity|]. split; [reflexivity|].
  split; [reflexivity|]. discriminate.
Qed.

(** The example of the specification, a mapping with a nullish value, and a
    mapping with a [length]. *)
Example packFormData_example :
  packFormData [(js "a", VNumber 1); (js "b", VString (js "x"))]
  = Ok [(js "a", js "1"); (js "b", js "x")].
Proof. reflexivity. Qed.

Example packFormData_null_value :
  packFormData [(js "a", VNumber 1); (js "b", VNull)] = Throw TypeError.
Proof. reflexivity. Qed.

Example packFormData_length_two :
  packFormData [(js "length", VNumber 2); (js "0", VString (js "x"))]
  = Throw TypeError.
Proof. reflexivity. Qed.

(** ** The order on strings and [sort] *)

Lemma str_compare_eq (a b : jstring) : str_compare a b = Eq <-> a = b.
Proof.
  revert b. induction a as [|x a IH]; intros [|y b]; simpl;
    try (split; congruence).
  destruct (Z.compare_spec x y) as [-> | H | H].
  - rewrite IH. split; congruence.
  - split; [discriminate | intros [= -> _]; lia].
  - split; [discriminate | intros [= -> _]; lia].
Qed.

Lemma str_compare_opp (a b : jstring) :
  str_compare b a = CompOpp (str_compare a b).
Proof.
  revert b. induction a as [|x a IH]; intros [|y b]; simpl; try reflexivity.
  rewrite (Z.compare_antisym x y).
  destruct (x ?= y); simpl; auto.
Qed.

Lemma str_leb_total (a b : jstring) : str_leb a b = true \/ str_leb b a = true.
Proof.
  unfold str_leb. rewrite (str_compare_opp a b).
  destruct (str_compare a b); simpl; auto.
Qed.

Lemma str_leb_antisym (a b : jstring) :
  str_leb a b = true -> str_leb b a = true -> a = b.
Proof.
  unfold str_leb. rewrite (str_compare_opp a b).
  destruct (str_compare a b) eqn:E; simpl; try discriminate.
  intros _ _. now apply str_compare_eq.
Qed.

Lemma str_leb_trans (a b c : jstring) :
  str_leb a b = true -> str_leb b c = true -> str_leb a c = true.
Proof.
  unfold str_leb. revert b c.
  induction a as [|x a IH]; intros [|y b] [|z c]; simpl;
    try reflexivity; try discriminate.
  destruct (Z.compare_spec x y), (Z.compare_spec y z), (Z.compare_spec x z);
    subst; try lia; try reflexivity; try discriminate.
  apply IH.
Qed.

Lemma sort_insert_perm (x : jstring) (l : list jstring) :
  Permutation (sort_insert x l) (x :: l).
Proof.
  induction l as [|y l IH]; simpl; [reflexivity|].
  destruct (str_leb x y); [reflexivity|].
  rewrite IH. apply perm_swap.
Qed.

Lemma sort_perm (l : list jstring) : Permutation (sort l) l.
Proof.
  induction l as [|x l IH]; simpl; [reflexivity|].
  rewrite sort_insert_perm. now constructor.
Qed.

Lemma sort_insert_sorted (x : jstring) (l : list jstring) :
  StronglySorted str_le l -> StronglySorted str_le (sort_insert x l).
Proof.
  induction 1 as [|y l Hl IH Hy]; simpl.
  - repeat constructor.
  - destruct (str_leb x y) eqn:E.
    + constructor; [now constructor|].
      constructor; [exact E|].
      eapply Forall_impl; [|exact Hy].
      intros z Hz. now apply (str_leb_trans x y z).
    + constructor; [exact IH|].
      apply (Permutation_Forall (Permutation_sym (sort_insert_perm x l))).
      constructor; [|exact Hy].
      destruct (str_leb_total x y) as [H|H]; [congruence | exact H].
Qed.

Lemma sort_sorted (l : list jstring) : StronglySorted str_le (sort l).
Proof.
  induction l as [|x l IH]; simpl; [constructor|].
  now apply sort_insert_sorted.
Qed.

(** A list of strings has only one ascending arrangement. *)
Lemma sorted_unique (l1 l2 : list jstring) :
  StronglySorted str_le l1 -> StronglySorted str_le l2 ->
  Permutation l1 l2 -> l1 = l2.
Proof.
  intros H1. revert l2.
  induction H1 as [|x l1 Hl1 IH Hx]; intros l2 H2 Hp.
  - apply Permutation_nil in Hp. now subst.
  - destruct H2 as [|y l2 Hl2 Hy].
    + symmetry in Hp. apply Permutation_nil in Hp. discriminate.
    + assert (x = y) as ->.
      { assert (In x (y :: l2)) as Hin1
          by (eapply Permutation_in; [exact Hp | now left]).
        assert (In y (x :: l1)) as Hin2
          by (eapply Permutation_in; [symmetry; exact Hp | now left]).
        rewrite Forall_forall in Hx, Hy.
        destruct Hin1 as [-> | Hin1]; [reflexivity|].
        destruct Hin2 as [-> | Hin2]; [reflexivity|].
        apply str_leb_antisym; [now apply Hx | now apply Hy]. }
      f_equal. apply IH; [exact Hl2|].
      now apply Permutation_cons_inv in Hp.
Qed.

(** ** The digest printed by CryptoJS *)

Lemma le_bytes_length (n : nat) (x : Z) : length (le_bytes n x) = n.
Proof. revert x. induction n; intros x; simpl; congruence. Qed.

Lemma le_bytes_range (n : nat) (x : Z) :
  Forall (fun b => 0 <= b < 256) (le_bytes n x).
Proof.
  revert x. induction n as [|n IH]; intros x; simpl; constructor.
  - apply Z.mod_pos_bound. lia.
  - apply IH.
Qed.

Lemma MD5_digest (msg : list Z) :
  length (MD5 msg) = 16%nat /\ Forall (fun b => 0 <= b < 256) (MD5 msg).
Proof.
  unfold MD5. destruct (md5_blocks _ _ _) as [[[a b] c] d]. split.
  - rewrite !length_app, !le_bytes_length. reflexivity.
  - repeat (apply Forall_app; split); apply le_bytes_range.
Qed.

Lemma hex_stringify_digits (bytes : list Z) :
  Forall (fun b => 0 <= b < 256) bytes ->
  length (hex_stringify bytes) = (2 * length bytes)%nat
  /\ Forall (fun c => is_lower_hex c = true) (hex_stringify bytes).
Proof.
  induction 1 as [|b bytes Hb _ [IHlen IHhex]]; simpl.
  - split; [reflexivity | constructor].
  - split; [lia|].
    constructor; [|constructor; [|exact IHhex]].
    + apply hex_digit_is_hex. rewrite Z.shiftr_div_pow2 by lia.
      change (2 ^ 4) with 16. split.
      * apply Z.div_pos; lia.
      * apply Z.div_lt_upper_bound; lia.
    + apply hex_digit_is_hex. change 15 with (Z.ones 4).
      rewrite Z.land_ones by lia. apply Z.mod_pos_bound. reflexivity.
Qed.

(** Whenever CryptoJS returns, the digest is 32 lowercase hexadecimal
    characters. *)
Lemma CryptoJS_MD5_hex (message w_rid : jstring) :
  CryptoJS_MD5 message = Ok w_rid ->
  length w_rid = 32%nat /\ Forall (fun c => is_lower_hex c = true) w_rid.
Proof.
  unfold CryptoJS_MD5. destruct (utf8_parse message) as [bytes|e]; simpl;
    [|discriminate].
  intros [= <-].
  destruct (MD5_digest bytes) as [Hlen Hrange].
  destruct (hex_stringify_digits (MD5 bytes) Hrange) as [Hl Hh].
  split; [rewrite Hl, Hlen; reflexivity | exact Hh].
Qed.

(** ** Objects *)

Lemma get_set_same (o : object) (key : jstring) (v : value) :
  get (set o key v) key = v.
Proof.
  induction o as [|[k v0] o IH]; simpl.
  - now rewrite str_eqb_refl.
  - destruct (str_eqb k key) eqn:E; simpl; rewrite E; [reflexivity | exact IH].
Qed.

Lemma get_set_other (o : object) (key key' : jstring) (v : value) :
  key' <> key -> get (set o key v) key' = get o key'.
Proof.
  intros Hne. induction o as [|[k v0] o IH]; simpl.
  - destruct (str_eqb key key') eqn:E; [|reflexivity].
    apply str_eqb_eq in E. congruence.
  - destruct (str_eqb k key) eqn:E; simpl.
    + apply str_eqb_eq in E. subst k.
      destruct (str_eqb key key') eqn:E'; [|reflexivity].
      apply str_eqb_eq in E'. congruence.
    + now rewrite IH.
Qed.

Lemma has_own_set_same (o : object) (key : jstring) (v : value) :
  has_own (set o key v) key = true.
Proof.
  induction o as [|[k v0] o IH]; simpl.
  - now rewrite str_eqb_refl.
  - destruct (str_eqb k key) eqn:E; simpl; rewrite E; [reflexivity | exact IH].
Qed.

Lemma has_own_set_other (o : object) (key key' : jstring) (v : value) :
  key' <> key -> has_own (set o key v) key' = has_own o key'.
Proof.
  intros Hne. induction o as [|[k v0] o IH]; simpl.
  - destruct (str_eqb key key') eqn:E; [|reflexivity].
    apply str_eqb_eq in E. congruence.
  - destruct (str_eqb k key) eqn:E; simpl; [reflexivity|].
    now rewrite IH.
Qed.

Lemma keys_set (o : object) (key : jstring) (v : value) :
  Object_keys (set o key v)
  = if has_own o key then Object_keys o else Object_keys o ++ [key].
Proof.
  unfold Object_keys. induction o as [|[k v0] o IH]; simpl; [reflexivity|].
  destruct (str_eqb k key) eqn:E; simpl; [reflexivity|].
  rewrite IH. now destruct (has_own o key).
Qed.

(** ** wbiSign: the mutation of [params] (claim C4) *)

(** Claim C4.  After [wbiSign], the caller's [params] binds [wts] to the
    clock time in whole seconds; every other key is bound, or absent, as it
    was before; and the keys are those of before with [wts] added at the
    end when it was not there. *)
Theorem wbiSign_mutates_only_wts (clock_ms : Z) (params : object)
    (imgKey subKey : jstring) :
  let params' := fst (wbiSign clock_ms params imgKey subKey) in
  get params' (js "wts") = VNumber (ts clock_ms)
  /\ has_own params' (js "wts") = true
  /\ 1000 * ts clock_ms <= clock_ms < 1000 * ts clock_ms + 1000
  /\ (forall key, key <> js "wts" ->
        get params' key = get params key
        /\ has_own params' key = has_own params key)
  /\ Object_keys params'
     = if has_own params (js "wts") then Object_keys params
       else Object_keys params ++ [js "wts"].
Proof.
  cbv zeta. unfold wbiSign. cbn [fst].
  split; [apply get_set_same|]. split; [apply has_own_set_same|].
  split.
  - unfold ts. pose proof (Z.mul_div_le clock_ms 1000).
    pose proof (Z.mul_succ_div_gt clock_ms 1000). lia.
  - split; [|apply keys_set].
    intros key Hkey. split.
    + now apply get_set_other.
    + now apply has_own_set_other.
Qed.

(** The theorem at [{foo: "114"}] and the clock at 1702204169999 ms. *)
Lemma wbiSign_mutates_only_wts_witness :
  js "foo" <> js "wts"
  /\ fst (wbiSign 1702204169999 [(js "foo", VString (js "114"))] [] [])
     = [(js "foo", VString (js "114")); (js "wts", VNumber 1702204169)]
  /\ get (fst (wbiSign 1702204169999 [(js "foo", VString (js "114"))] [] []))
         (js "foo")
     = get [(js "foo", VString (js "114"))] (js "foo").
Proof.
  assert (js "foo" <> js "wts") as Hne by discriminate.
  split; [exact Hne|]. split; [reflexivity|].
  apply (wbiSign_mutates_only_wts 1702204169999
           [(js "foo", VString (js "114"))] [] []).
  exact Hne.
Defined.

(** ** wbiSign: the query string (claim C2) *)

Lemma replace_class_removes (cls : code_unit -> bool) (s : jstring) :
  replace_class cls [] s = filter (fun c => negb (cls c)) s.
Proof.
  unfold replace_class. induction s as [|c s IH]; simpl; [reflexivity|].
  destruct (cls c); simpl; now rewrite IH.
Qed.

Lemma wbi_filtered_chars (c : code_unit) :
  wbi_filtered c = true <-> In c (js "!'()*").
Proof.
  unfold wbi_filtered. rewrite existsb_exists. split.
  - intros (x & Hin & Hx). apply Z.eqb_eq in Hx. now subst.
  - intros Hin. exists c. split; [exact Hin | apply Z.eqb_refl].
Qed.

Lemma map_result_ext {A B} (f g : A -> result B) (l : list A) :
  (forall x, f x = g x) -> map_result f l = map_result g l.
Proof.
  intros H. induction l as [|x l IH]; simpl; [reflexivity|].
  now rewrite H, IH.
Qed.

(** Claim C2, as the code has it.  The query string is built from the keys
    of [params] arranged in ascending order of their UTF-16 code units (the
    one such arrangement of the keys); for each key in that order the value
    is turned into its string, every [!], ['], [(], [)] and [*] is dropped
    from it and nothing else, key and cleaned value are percent-encoded by
    [encodeURIComponent] (under which a space becomes [%20]) and written as
    [key=value]; the pairs are joined with [&]. *)
Theorem wbi_query_sorted_pairs (params : object) :
  let keys := sort (Object_keys params) in
  (Permutation keys (Object_keys params)
   /\ StronglySorted str_le keys
   /\ forall l, Permutation l (Object_keys params) ->
                StronglySorted str_le l -> l = keys)
  /\ wbi_query params
     = (pairs <- map_result
                   (fun key =>
                      s <- toString (get params key) ;;
                      k <- encodeURIComponent key ;;
                      v <- encodeURIComponent
                             (filter (fun c => negb (wbi_filtered c)) s) ;;
                      Ok (k ++ js "=" ++ v))
                   keys ;;
        Ok (join (js "&") pairs))
  /\ (forall c, wbi_filtered c = true <-> In c (js "!'()*"))
  /\ encodeURIComponent (js " ") = Ok (js "%20")
  /\ (forall s, encodeURIComponent (js " " ++ s)
                = (r <- encodeURIComponent s ;; Ok (js "%20" ++ r))).
Proof.
  cbv zeta. split; [split; [apply sort_perm | split; [apply sort_sorted|]]|].
  - intros l Hperm Hsorted. apply sorted_unique.
    + exact Hsorted.
    + apply sort_sorted.
    + rewrite Hperm. symmetry. apply sort_perm.
  - split; [|split; [apply wbi_filtered_chars|split; reflexivity]].
    unfold wbi_query.
    rewrite (map_result_ext (wbi_pair params)
               (fun key =>
                  s <- toString (get params key) ;;
                  k <- encodeURIComponent key ;;
                  v <- encodeURIComponent
                         (filter (fun c => negb (wbi_filtered c)) s) ;;
                  Ok (k ++ js "=" ++ v))); [reflexivity|].
    intros key. unfold wbi_pair.
    destruct (toString (get params key)); simpl; [|reflexivity].
    now rewrite replace_class_removes.
Qed.

(** The theorem at [{bar: "5 1(4)", foo: "114", wts: 1702204169}], whose
    keys are already in order. *)
Lemma wbi_query_sorted_pairs_witness :
  let params := [(js "bar", VString (js "5 1(4)"));
                 (js "foo", VString (js "114"));
                 (js "wts", VNumber 1702204169)] in
  StronglySorted str_le (Object_keys params)
  /\ Object_keys params = sort (Object_keys params)
  /\ wbi_query params = Ok (js "bar=5%2014&foo=114&wts=1702204169").
Proof.
  cbv zeta.
  assert (StronglySorted str_le
            (Object_keys [(js "bar", VString (js "5 1(4)"));
                          (js "foo", VString (js "114"));
                          (js "wts", VNumber 1702204169)])) as Hsorted
    by (repeat constructor).
  split; [exact Hsorted|]. split; [|reflexivity].
  apply (wbi_query_sorted_pairs
           [(js "bar", VString (js "5 1(4)"));
            (js "foo", VString (js "114"));
            (js "wts", VNumber 1702204169)]).
  - apply Permutation_refl.
  - exact Hsorted.
Defined.

(** Claim C2 as stated, with the keys in code-point order, fails at the
    mapping whose keys are the one-character strings U+FF01 and U+1F600 (and
    [wts]): U+1F600 is the code units D83D DE00, which sort before FF01, so
    the code puts that key first, while in code-point order it comes
    after U+FF01. *)
Lemma wbi_query_code_point_counterexample :
  let k1 := [0xFF01] in
  let k2 := [0xD83D; 0xDE00] in
  let params := [(k1, VNumber 1); (k2, VNumber 2); (js "wts", VNumber 0)] in
  wbi_query params = Ok (js "wts=0&%F0%9F%98%80=2&%EF%BC%81=1")
  /\ sort (Object_keys params) = [js "wts"; k2; k1]
  /\ code_points k1 = [0xFF01] /\ code_points k2 = [0x1F600]
  /\ code_point_leb k2 k1 = false
  /\ ~ StronglySorted (fun a b => code_point_leb a b = true)
         (sort (Object_keys params)).
Proof.
  cbv zeta. repeat split; try reflexivity.
  intros H. change (sort _) with [js "wts"; [0xD83D; 0xDE00]; [0xFF01]] in H.
  inversion H as [|? ? H1 _]; subst.
  inversion H1 as [|? ? _ H2]; subst.
  inversion H2 as [|? ? H3 _]; subst.
  discriminate H3.
Qed.

(** ** wbiSign returns on ASCII inputs *)

Lemma is_ascii_range (c : code_unit) : is_ascii c = true <-> 0 <= c < 128.
Proof. unfold is_ascii. rewrite andb_true_iff, Z.leb_le, Z.ltb_lt. tauto. Qed.

Lemma ascii_not_surrogate (c : code_unit) :
  is_ascii c = true ->
  is_leading_surrogate c = false /\ is_trailing_surrogate c = false.
Proof.
  intros H. apply is_ascii_range in H.
  unfold is_leading_surrogate, is_trailing_surrogate.
  split; apply andb_false_iff; left; apply Z.leb_gt; lia.
Qed.

Lemma HEX_digit_ascii (d : Z) : 0 <= d < 16 -> is_ascii (HEX_digit d) = true.
Proof.
  intros H. apply is_ascii_range. unfold HEX_digit.
  destruct (d <? 10); lia.
Qed.

Lemma percent_encode_ascii (c : code_unit) :
  is_ascii c = true -> ascii_string (percent_encode c).
Proof.
  intros H. apply is_ascii_range in H. unfold percent_encode, utf8_octets.
  assert ((c <? 128) = true) as -> by (apply Z.ltb_lt; lia).
  cbn [flat_map app percent_octet]. repeat constructor.
  - apply HEX_digit_ascii. rewrite Z.shiftr_div_pow2 by lia.
    change (2 ^ 4) with 16. split.
    + apply Z.div_pos; lia.
    + apply Z.div_lt_upper_bound; lia.
  - apply HEX_digit_ascii. change 15 with (Z.ones 4).
    rewrite Z.land_ones by lia. apply Z.mod_pos_bound. reflexivity.
Qed.

Lemma uri_encode_ascii (unescaped : code_unit -> bool) (s : jstring) :
  ascii_string s ->
  exists r, uri_encode unescaped s = Ok r /\ ascii_string r.
Proof.
  induction 1 as [|c s Hc _ (r & Hr & Hascii)].
  - exists []. split; [reflexivity | constructor].
  - cbn [uri_encode]. rewrite Hr.
    destruct (ascii_not_surrogate c Hc) as [-> ->].
    destruct (unescaped c).
    + exists (c :: r). split; [reflexivity | now constructor].
    + exists (percent_encode c ++ r). split; [reflexivity|].
      apply Forall_app. split; [now apply percent_encode_ascii | exact Hascii].
Qed.

Lemma utf8_parse_ascii (s : jstring) :
  ascii_string s -> utf8_parse s = Ok s.
Proof.
  induction 1 as [|c s Hc _ IH]; [reflexivity|].
  cbn [utf8_parse]. rewrite IH.
  destruct (ascii_not_surrogate c Hc) as [-> ->].
  apply is_ascii_range in Hc. unfold utf8_octets.
  assert ((c <? 128) = true) as -> by (apply Z.ltb_lt; lia).
  reflexivity.
Qed.

Lemma dec_digits_ascii (fuel : nat) (n : Z) (acc : jstring) :
  ascii_string acc -> ascii_string (dec_digits fuel n acc).
Proof.
  revert n acc. induction fuel as [|fuel IH]; intros n acc Hacc; simpl.
  - exact Hacc.
  - assert (ascii_string ((48 + n mod 10) :: acc)) as Hacc'.
    { constructor; [|exact Hacc]. apply is_ascii_range.
      pose proof (Z.mod_pos_bound n 10). lia. }
    destruct (n <? 10); [exact Hacc' | now apply IH].
Qed.

Lemma decimal_ascii (n : Z) : ascii_string (decimal n).
Proof. apply dec_digits_ascii. constructor. Qed.

Lemma positive_toString_ascii (x : Z) : ascii_string (positive_toString x).
Proof.
  unfold positive_toString.
  destruct (x <=? MAX_SAFE_INTEGER); [apply decimal_ascii|].
  destruct (shortest_digits (to_double x)) as [[[s k] n]|];
    [|apply decimal_ascii].
  destruct (n <=? 21).
  - apply Forall_app. split; [apply decimal_ascii|].
    apply Forall_forall. intros c Hc. apply repeat_spec in Hc. now subst c.
  - pose proof (decimal_ascii s) as Hs.
    destruct (decimal s) as [|d rest]; [constructor|].
    inversion Hs as [|? ? Hd Hrest]; subst.
    cbn [app]. constructor; [exact Hd|].
    apply Forall_app. split.
    + destruct (k =? 1); [constructor|].
      constructor; [reflexivity | exact Hrest].
    + constructor; [reflexivity|]. constructor; [reflexivity|].
      apply decimal_ascii.
Qed.

Lemma number_toString_ascii (n : Z) : ascii_string (number_toString n).
Proof.
  unfold number_toString. destruct (n <? 0).
  - constructor; [reflexivity|]. apply positive_toString_ascii.
  - apply positive_toString_ascii.
Qed.

(** The model of [Number::toString] on Numbers that do not print as their
    exact decimal digits: [2^60], [10^21], [2^70], the Number nearest to
    [10^23], and [-10^21]. *)
Example number_toString_rounds :
  number_toString (2 ^ 60) = js "1152921504606847000"
  /\ number_toString (10 ^ 21) = js "1e+21"
  /\ number_toString (2 ^ 70) = js "1.1805916207174113e+21"
  /\ number_toString 99999999999999991611392 = js "1e+23"
  /\ number_toString (- 10 ^ 21) = js "-1e+21".
Proof. vm_compute. repeat split. Qed.

Lemma toString_ascii_scalar (v : value) :
  ascii_scalar v -> exists s, toString v = Ok s /\ ascii_string s.
Proof.
  destruct v; simpl; try contradiction.
  - intros _. eexists. split; [reflexivity | apply number_toString_ascii].
  - intros H. eexists. split; [reflexivity | exact H].
Qed.

Lemma get_ascii_params (params : object) (key : jstring) :
  ascii_params params -> In key (Object_keys params) ->
  ascii_string key /\ ascii_scalar (get params key).
Proof.
  induction 1 as [|[k v] params [Hk Hv] _ IH]; cbn [Object_keys map fst get].
  - contradiction.
  - intros Hin. destruct (str_eqb k key) eqn:E.
    + apply str_eqb_eq in E. subst k. split; assumption.
    + destruct Hin as [<- | Hin]; [now rewrite str_eqb_refl in E|].
      now apply IH.
Qed.

Lemma set_ascii_params (params : object) (key : jstring) (v : value) :
  ascii_params params -> ascii_string key -> ascii_scalar v ->
  ascii_params (set params key v).
Proof.
  intros Hp Hk Hv. induction Hp as [|[k v0] params [Hk0 Hv0] Hp IH]; simpl.
  - repeat constructor; assumption.
  - destruct (str_eqb k key).
    + constructor; [split; assumption | exact Hp].
    + constructor; [split; assumption | exact IH].
Qed.

Lemma wbi_pair_ascii (params : object) (key : jstring) :
  ascii_params params -> In key (Object_keys params) ->
  exists pair, wbi_pair params key = Ok pair /\ ascii_string pair.
Proof.
  intros Hp Hin. destruct (get_ascii_params params key Hp Hin) as [Hk Hv].
  destruct (toString_ascii_scalar _ Hv) as (s & Hs & Hascii).
  unfold wbi_pair. rewrite Hs. cbn [bind].
  destruct (uri_encode_ascii uri_unescaped key Hk) as (k & Hek & Hka).
  assert (ascii_string (replace_class wbi_filtered [] s)) as Hclean.
  { rewrite replace_class_removes. unfold ascii_string in *.
    rewrite Forall_forall in *. intros c Hc. apply filter_In in Hc.
    now apply Hascii. }
  destruct (uri_encode_ascii uri_unescaped _ Hclean) as (v & Hev & Hva).
  unfold encodeURIComponent. rewrite Hek, Hev. cbn [bind].
  eexists. split; [reflexivity|].
  apply Forall_app. split; [exact Hka|].
  constructor; [reflexivity | exact Hva].
Qed.

Lemma map_result_all_ok {A B} (f : A -> result B) (P : B -> Prop)
    (l : list A) :
  Forall (fun x => exists y, f x = Ok y /\ P y) l ->
  exists ys, map_result f l = Ok ys /\ Forall P ys.
Proof.
  induction 1 as [|x l (y & Hy & HP) _ (ys & Hys & HPs)].
  - exists []. split; [reflexivity | constructor].
  - exists (y :: ys). simpl. rewrite Hy, Hys. split; [reflexivity|].
    now constructor.
Qed.

Lemma join_ascii (sep : jstring) (l : list jstring) :
  ascii_string sep -> Forall ascii_string l -> ascii_string (join sep l).
Proof.
  intros Hsep. unfold join. induction 1 as [|x l Hx Hl IH]; [constructor|].
  destruct l as [|y l]; [exact Hx|].
  change (join_opt sep (map Some (x :: y :: l)))
    with (x ++ sep ++ join_opt sep (map Some (y :: l))).
  repeat (apply Forall_app; split); assumption.
Qed.

Lemma wbi_query_ascii (params : object) :
  ascii_params params ->
  exists query, wbi_query params = Ok query /\ ascii_string query.
Proof.
  intros Hp. unfold wbi_query.
  destruct (map_result_all_ok (wbi_pair params) ascii_string
              (sort (Object_keys params))) as (pairs & Hpairs & Hascii).
  { apply Forall_forall. intros key Hin. apply wbi_pair_ascii; [exact Hp|].
    eapply Permutation_in; [apply sort_perm | exact Hin]. }
  rewrite Hpairs. eexists. split; [reflexivity|].
  apply join_ascii; [repeat constructor | exact Hascii].
Qed.

Lemma in_firstn {A} (n : nat) (l : list A) (x : A) :
  In x (firstn n l) -> In x l.
Proof.
  revert l. induction n as [|n IH]; intros [|y l]; simpl; try tauto.
  intros [-> | H]; auto.
Qed.

Lemma wbi_salt_ascii (imgKey subKey : jstring) :
  ascii_string imgKey -> ascii_string subKey ->
  ascii_string (wbi_salt imgKey subKey).
Proof.
  intros Hi Hs. rewrite wbi_salt_unfold.
  assert (ascii_string (imgKey ++ subKey)) as HS
    by (apply Forall_app; split; assumption).
  apply Forall_forall. intros c Hc. apply in_firstn in Hc.
  apply in_flat_map in Hc. destruct Hc as (n & _ & Hc). unfold picked in Hc.
  destruct (nth_error (imgKey ++ subKey) n) eqn:E; [|contradiction].
  destruct Hc as [<- | []]. apply nth_error_In in E.
  unfold ascii_string in HS. rewrite Forall_forall in HS. now apply HS.
Qed.

(** ** wbiSign: the returned string (claim C3) *)

(** Claim C3.  [wbiSign] returns [query + "&w_rid=" + w_rid] where [query]
    is the query string of the mutated [params] and [w_rid] is the MD5
    digest of [query + salt] printed in lowercase hexadecimal, hence 32
    characters of [0-9a-f]; an exception raised while building the query or
    reading the message is the only other outcome, and there is none when
    keys, secrets and string values are ASCII and the other values are
    integers. *)
Theorem wbiSign_returns_query_and_w_rid (clock_ms : Z) (params : object)
    (imgKey subKey : jstring) :
  let params' := fst (wbiSign clock_ms params imgKey subKey) in
  let salt := wbi_salt imgKey subKey in
  snd (wbiSign clock_ms params imgKey subKey)
  = (query <- wbi_query params' ;;
     bytes <- utf8_parse (query ++ salt) ;;
     Ok (query ++ js "&w_rid=" ++ hex_stringify (MD5 bytes)))
  /\ (forall r, snd (wbiSign clock_ms params imgKey subKey) = Ok r ->
       exists query w_rid,
         wbi_query params' = Ok query
         /\ CryptoJS_MD5 (query ++ salt) = Ok w_rid
         /\ r = query ++ js "&w_rid=" ++ w_rid
         /\ length w_rid = 32%nat
         /\ Forall (fun c => is_lower_hex c = true) w_rid)
  /\ (ascii_params params -> ascii_string imgKey -> ascii_string subKey ->
      exists r, snd (wbiSign clock_ms params imgKey subKey) = Ok r).
Proof.
  cbv zeta. unfold wbiSign. cbn [fst snd]. split; [|split].
  - destruct (wbi_query _) as [query|e]; simpl; [|reflexivity].
    unfold CryptoJS_MD5. now destruct (utf8_parse _).
  - intros r. destruct (wbi_query _) as [query|e]; simpl; [|discriminate].
    destruct (CryptoJS_MD5 _) as [w_rid|e] eqn:E; simpl; [|discriminate].
    intros [= <-]. exists query, w_rid.
    destruct (CryptoJS_MD5_hex _ _ E) as [Hlen Hhex]. auto.
  - intros Hp Hi Hs.
    destruct (wbi_query_ascii (set params (js "wts") (VNumber (ts clock_ms))))
      as (query & Hq & Hascii).
    { apply set_ascii_params; [exact Hp | repeat constructor | exact I]. }
    rewrite Hq. cbn [bind]. unfold CryptoJS_MD5.
    rewrite utf8_parse_ascii
      by (apply Forall_app; split; [exact Hascii | now apply wbi_salt_ascii]).
    cbn [bind]. eexists. reflexivity.
Qed.

(** The theorem at the parameters of a real request. *)
Lemma wbiSign_returns_query_and_w_rid_witness :
  let params := [(js "foo", VString (js "114"));
                 (js "bar", VString (js "514"));
                 (js "baz", VNumber 1919810)] in
  let imgKey := js "7cd084941338484aae1ad9425b84077c" in
  let subKey := js "4932caff0ff746eab6f01bf08b70ac45" in
  let r := js ("bar=514&baz=1919810&foo=114&wts=1702204169"
               ++ "&w_rid=6149fdadf571698ca7e6a567265cd0ee") in
  (ascii_params params /\ ascii_string imgKey /\ ascii_string subKey)
  /\ snd (wbiSign 1702204169000 params imgKey subKey) = Ok r
  /\ (exists query w_rid,
        r = query ++ js "&w_rid=" ++ w_rid /\ length w_rid = 32%nat)
  /\ (exists r', snd (wbiSign 1702204169000 params imgKey subKey) = Ok r').
Proof.
  cbv zeta.
  set (params := [(js "foo", VString (js "114"));
                  (js "bar", VString (js "514"));
                  (js "baz", VNumber 1919810)]).
  set (imgKey := js "7cd084941338484aae1ad9425b84077c").
  set (subKey := js "4932caff0ff746eab6f01bf08b70ac45").
  assert (ascii_params params) as Hp by (repeat constructor).
  assert (ascii_string imgKey) as Hi by (repeat constructor).
  assert (ascii_string subKey) as Hs by (repeat constructor).
  assert (snd (wbiSign 1702204169000 params imgKey subKey)
          = Ok (js ("bar=514&baz=1919810&foo=114&wts=1702204169"
                    ++ "&w_rid=6149fdadf571698ca7e6a567265cd0ee"))) as Hr
    by (vm_compute; reflexivity).
  destruct (wbiSign_returns_query_and_w_rid 1702204169000 params imgKey subKey)
    as (_ & Hret & Htotal).
  split; [split; [exact Hp | split; [exact Hi | exact Hs]]|].
  split; [exact Hr|]. split.
  - destruct (Hret _ Hr) as (query & w_rid & _ & _ & Heq & Hlen & _).
    exists query, w_rid. split; [exact Heq | exact Hlen].
  - exact (Htotal Hp Hi Hs).
Defined.

(** ** The host tables *)

Lemma update_length {A} (l : list A) (i : nat) (f : A -> A) :
  length (update l i f) = length l.
Proof.
  revert i. induction l as [|x l IH]; intros [|i]; simpl; auto.
Qed.

Lemma nth_error_update_same {A} (l : list A) (i : nat) (f : A -> A) :
  nth_error (update l i f) i = option_map f (nth_error l i).
Proof.
  revert i. induction l as [|x l IH]; intros [|i]; simpl; auto.
Qed.

Lemma nth_error_update_other {A} (l : list A) (i j : nat) (f : A -> A) :
  i <> j -> nth_error (update l i f) j = nth_error l j.
Proof.
  revert i j. induction l as [|x l IH]; intros [|i] [|j] H; simpl; auto.
  congruence.
Qed.

Lemma nth_update_same {A} (l : list A) (i : nat) (f : A -> A) (d : A) :
  (i < length l)%nat -> nth i (update l i f) d = f (nth i l d).
Proof.
  revert i. induction l as [|x l IH]; intros [|i] H; simpl in *; try lia.
  - reflexivity.
  - apply IH. lia.
Qed.

Lemma nth_update_other {A} (l : list A) (i j : nat) (f : A -> A) (d : A) :
  i <> j -> nth j (update l i f) d = nth j l d.
Proof.
  revert i j. induction l as [|x l IH]; intros [|i] [|j] H; simpl; auto.
  congruence.
Qed.

(** *** Promises *)

Lemma status_settle_same (p : promise) (st : promise_state) (h : host) :
  (p < length (promises h))%nat ->
  promise_status (settle p st h) p
  = match promise_status h p with Pending => st | old => old end.
Proof.
  intros Hp. unfold promise_status, settle. cbn [promises].
  rewrite nth_update_same by exact Hp.
  now destruct (nth p (promises h) Pending).
Qed.

Lemma status_settle_other (p q : promise) (st : promise_state) (h : host) :
  p <> q -> promise_status (settle p st h) q = promise_status h q.
Proof.
  intros Hpq. unfold promise_status, settle. cbn [promises].
  rewrite nth_update_other by exact Hpq. reflexivity.
Qed.

Lemma status_new_promise (h : host) :
  promise_status (fst (new_promise h)) (snd (new_promise h)) = Pending
  /\ (snd (new_promise h) < length (promises (fst (new_promise h))))%nat.
Proof.
  unfold promise_status, new_promise. simpl. split.
  - rewrite app_nth2, Nat.sub_diag by lia. reflexivity.
  - rewrite length_app. simpl. lia.
Qed.

(** Resolving never turns a promise into a rejected one. *)
Lemma status_resolve_rejected (p q : promise) (h : host) (reason : value) :
  promise_status (resolve p h) q = Rejected reason ->
  promise_status h q = Rejected reason.
Proof.
  unfold resolve. destruct (Nat.eq_dec p q) as [->|Hne].
  - destruct (Nat.lt_ge_cases q (length (promises h))) as [Hlt|Hge].
    + rewrite status_settle_same by exact Hlt.
      change (promise_status (emit (EResolve q) h) q)
        with (promise_status h q).
      destruct (promise_status h q); congruence.
    + unfold promise_status, settle. simpl.
      rewrite !nth_overflow; [congruence | lia | rewrite update_length; lia].
  - rewrite status_settle_other by exact Hne. tauto.
Qed.

(** *** What page events leave alone *)

Lemma evolves_refl (h : host) : evolves h h.
Proof. constructor; auto. Qed.

Lemma evolves_fulfilled (h h' : host) (q : promise) :
  evolves h h' -> promise_status h q = Fulfilled ->
  promise_status h' q = Fulfilled.
Proof.
  intros He Hq. rewrite (ev_settled _ _ He); [exact Hq | congruence].
Qed.

Lemma evolves_trans (h1 h2 h3 : host) :
  evolves h1 h2 -> evolves h2 h3 -> evolves h1 h3.
Proof.
  intros [L1 P1 O1 R1 F1] [L2 P2 O2 R2 F2]. constructor.
  - congruence.
  - congruence.
  - congruence.
  - intros q reason H. apply R1, R2, H.
  - intros q H. rewrite F2; [now apply F1|]. now rewrite F1.
Qed.

Lemma status_resolve_settled (p q : promise) (h : host) :
  promise_status h q <> Pending ->
  promise_status (resolve p h) q = promise_status h q.
Proof.
  intros H. unfold resolve. destruct (Nat.eq_dec p q) as [->|Hne].
  - destruct (Nat.lt_ge_cases q (length (promises h))) as [Hlt|Hge].
    + rewrite status_settle_same by exact Hlt.
      change (promise_status (emit (EResolve q) h) q)
        with (promise_status h q).
      destruct (promise_status h q); congruence.
    + unfold promise_status in H. rewrite nth_overflow in H by lia.
      congruence.
  - now rewrite status_settle_other.
Qed.

Lemma evolves_resolve (p : promise) (h : host) : evolves h (resolve p h).
Proof.
  constructor; try reflexivity.
  - simpl. apply update_length.
  - intros q reason. apply status_resolve_rejected.
  - intros q. apply status_resolve_settled.
Qed.

Lemma map_update_same {A B} (g : A -> B) (f : A -> A) (l : list A) (i : nat) :
  (forall x, g (f x) = g x) -> map g (update l i f) = map g l.
Proof.
  intros H. revert i. induction l as [|x l IH]; intros [|i]; simpl;
    try reflexivity.
  - now rewrite H.
  - now rewrite IH.
Qed.

Lemma evolves_disconnect (o : observer) (h : host) :
  evolves h (disconnect o h).
Proof.
  constructor; try reflexivity; try (intros; assumption).
  simpl. now apply map_update_same.
Qed.

Lemma evolves_observer_callback (h : host) (o : observer) :
  evolves h (observer_callback h o).
Proof.
  unfold observer_callback. destruct (nth_error (observers h) o) as [r|].
  - destruct (attached r && present (doc h) (awaited r)).
    + eapply evolves_trans; [apply evolves_disconnect | apply evolves_resolve].
    + apply evolves_refl.
  - apply evolves_refl.
Qed.

Lemma evolves_listener_callback (t : event_target) (ty : event_type)
    (h : host) (l : listener) :
  evolves h (listener_callback t ty h l).
Proof.
  unfold listener_callback.
  destruct (event_target_eqb _ _ && event_type_eqb _ _).
  - apply evolves_resolve.
  - apply evolves_refl.
Qed.

Lemma evolves_fold {A} (f : host -> A -> host) (l : list A) (h : host) :
  (forall h x, evolves h (f h x)) -> evolves h (fold_left f l h).
Proof.
  intros Hf. revert h. induction l as [|x l IH]; intros h; simpl.
  - apply evolves_refl.
  - eapply evolves_trans; [apply Hf | apply IH].
Qed.

Lemma evolves_set_doc (d : document) (h : host) : evolves h (set_doc d h).
Proof. constructor; auto. Qed.

Lemma evolves_step (h : host) (ev : page_event) : evolves h (step h ev).
Proof.
  destruct ev as [hd bd | rs | t ty]; simpl.
  - eapply evolves_trans; [apply evolves_set_doc|].
    apply evolves_fold, evolves_observer_callback.
  - apply evolves_set_doc.
  - apply evolves_fold, evolves_listener_callback.
Qed.

Lemma evolves_run (h : host) (evs : list page_event) : evolves h (run h evs).
Proof. apply evolves_fold, evolves_step. Qed.

(** ** waitForMoment, case by case *)

Lemma waitForMoment_document_start (h : host) :
  waitForMoment (VString (js "document-start")) h
  = (resolve (length (promises h)) (fst (new_promise h)),
     length (promises h)).
Proof. reflexivity. Qed.

Lemma waitForMoment_document_head (h : host) :
  waitForMoment (VString (js "document-head")) h = wait_for_element Head h.
Proof. reflexivity. Qed.

Lemma waitForMoment_document_body (h : host) :
  waitForMoment (VString (js "document-body")) h = wait_for_element Body h.
Proof. reflexivity. Qed.

Lemma waitForMoment_document_end (h : host) :
  waitForMoment (VString (js "document-end")) h
  = let p := length (promises h) in
    let h1 := fst (new_promise h) in
    if negb (is_loading (readyState (doc h))) then (resolve p h1, p)
    else (addEventListener TheDocument DOMContentLoaded p h1, p).
Proof. reflexivity. Qed.

Lemma waitForMoment_window_load (h : host) :
  waitForMoment (VString (js "window-load")) h
  = let p := length (promises h) in
    let h1 := fst (new_promise h) in
    if is_complete (readyState (doc h)) then (resolve p h1, p)
    else (addEventListener TheWindow LoadEvent p h1, p).
Proof. reflexivity. Qed.

Lemma wait_for_element_unfold (e : element) (h : host) :
  wait_for_element e h
  = let p := length (promises h) in
    let h1 := fst (new_promise h) in
    if present (doc h) e then (resolve p h1, p)
    else (observe (length (observers h)) (fst (new_observer e p h1)), p).
Proof. reflexivity. Qed.

Lemma waitForMoment_illegal (moment : value) (h : host) :
  is_legal_moment moment = false ->
  waitForMoment moment h
  = (reject (length (promises h)) (VString (js "Illegal moment"))
            (fst (new_promise h)),
     length (promises h)).
Proof.
  unfold is_legal_moment, legal_moments. cbn [existsb]. intros H.
  repeat (apply orb_false_iff in H; destruct H as [? H]).
  unfold waitForMoment.
  repeat match goal with E : strict_equal _ _ = false |- _ =>
                           rewrite E; clear E end.
  reflexivity.
Qed.

Lemma legal_moment_cases (moment : value) :
  is_legal_moment moment = true ->
  moment = VString (js "document-start")
  \/ moment = VString (js "document-head")
  \/ moment = VString (js "document-body")
  \/ moment = VString (js "document-end")
  \/ moment = VString (js "window-load").
Proof.
  unfold is_legal_moment, legal_moments. cbn [existsb]. intros H.
  assert (forall label, strict_equal moment label = true ->
                        moment = VString (js label)) as Heq.
  { intros label. destruct moment; simpl; try discriminate.
    intros E. apply str_eqb_eq in E. now subst. }
  repeat (apply orb_true_iff in H; destruct H as [H|H]);
    try discriminate; apply Heq in H; tauto.
Qed.

Lemma status_fresh_resolved (h : host) :
  promise_status (resolve (length (promises h)) (fst (new_promise h)))
                 (length (promises h)) = Fulfilled.
Proof.
  destruct (status_new_promise h) as [Hst Hlt].
  change (snd (new_promise h)) with (length (promises h)) in Hst, Hlt.
  unfold resolve. rewrite status_settle_same by exact Hlt.
  change (promise_status (emit _ (fst (new_promise h))) (length (promises h)))
    with (promise_status (fst (new_promise h)) (length (promises h))).
  now rewrite Hst.
Qed.

Lemma status_fresh_rejected (h : host) (reason : value) :
  promise_status (reject (length (promises h)) reason (fst (new_promise h)))
                 (length (promises h)) = Rejected reason.
Proof.
  destruct (status_new_promise h) as [Hst Hlt].
  change (snd (new_promise h)) with (length (promises h)) in Hst, Hlt.
  unfold reject. rewrite status_settle_same by exact Hlt.
  change (promise_status (emit _ (fst (new_promise h))) (length (promises h)))
    with (promise_status (fst (new_promise h)) (length (promises h))).
  now rewrite Hst.
Qed.

Lemma status_fresh_pending (h : host) :
  promise_status (fst (new_promise h)) (length (promises h)) = Pending.
Proof. apply (status_new_promise h). Qed.

(** A legal moment gives a promise that is fulfilled or pending. *)
Lemma waitForMoment_legal_status (moment : value) (h : host) :
  is_legal_moment moment = true ->
  promise_status (fst (waitForMoment moment h)) (snd (waitForMoment moment h))
  = Fulfilled
  \/ promise_status (fst (waitForMoment moment h))
                    (snd (waitForMoment moment h)) = Pending.
Proof.
  intros H.
  destruct (legal_moment_cases moment H) as [-> | [-> | [-> | [-> | ->]]]].
  - rewrite waitForMoment_document_start. left. apply status_fresh_resolved.
  - rewrite waitForMoment_document_head, wait_for_element_unfold. cbv zeta.
    destruct (present (doc h) Head); cbn [fst snd].
    + left. apply status_fresh_resolved.
    + right. apply status_fresh_pending.
  - rewrite waitForMoment_document_body, wait_for_element_unfold. cbv zeta.
    destruct (present (doc h) Body); cbn [fst snd].
    + left. apply status_fresh_resolved.
    + right. apply status_fresh_pending.
  - rewrite waitForMoment_document_end. cbv zeta.
    destruct (negb (is_loading (readyState (doc h)))); cbn [fst snd].
    + left. apply status_fresh_resolved.
    + right. apply status_fresh_pending.
  - rewrite waitForMoment_window_load. cbv zeta.
    destruct (is_complete (readyState (doc h))); cbn [fst snd].
    + left. apply status_fresh_resolved.
    + right. apply status_fresh_pending.
Qed.

(** ** waitForMoment: the rejection (claim C5) *)

(** Claim C5.  The legal moments are exactly the five strings.  For every
    other input the promise returned by [waitForMoment] is rejected with the
    string [Illegal moment], at once and for good; for a legal moment the
    promise is never rejected, whatever the page does afterwards. *)
Theorem waitForMoment_rejects_illegal_only (moment : value) (h : host) :
  let h' := fst (waitForMoment moment h) in
  let p := snd (waitForMoment moment h) in
  (is_legal_moment moment = true <->
   moment = VString (js "document-start")
   \/ moment = VString (js "document-head")
   \/ moment = VString (js "document-body")
   \/ moment = VString (js "document-end")
   \/ moment = VString (js "window-load"))
  /\ (is_legal_moment moment = false ->
      forall evs,
        promise_status (run h' evs) p
        = Rejected (VString (js "Illegal moment")))
  /\ (is_legal_moment moment = true ->
      forall evs reason, promise_status (run h' evs) p <> Rejected reason).
Proof.
  cbv zeta. split; [|split].
  - split; [apply legal_moment_cases|].
    intros [-> | [-> | [-> | [-> | ->]]]]; reflexivity.
  - intros Hillegal evs. rewrite (waitForMoment_illegal moment h Hillegal).
    cbn [fst snd].
    rewrite (ev_settled _ _ (evolves_run _ evs));
      rewrite status_fresh_rejected; [reflexivity | discriminate].
  - intros Hlegal evs reason Hrej.
    apply (ev_rejected _ _ (evolves_run _ evs)) in Hrej.
    destruct (waitForMoment_legal_status moment h Hlegal) as [H|H];
      congruence.
Qed.

(** The theorem at ["nonsense"] and at ["document-end"], on a page that is
    loading and then fires its events. *)
Lemma waitForMoment_rejects_illegal_only_witness :
  is_legal_moment (VString (js "nonsense")) = false
  /\ promise_status
       (run (fst (waitForMoment (VString (js "nonsense")) loading_page))
            [Dispatch TheDocument DOMContentLoaded])
       (snd (waitForMoment (VString (js "nonsense")) loading_page))
     = Rejected (VString (js "Illegal moment"))
  /\ is_legal_moment (VString (js "document-end")) = true
  /\ promise_status
       (run (fst (waitForMoment (VString (js "document-end")) loading_page))
            [Dispatch TheDocument DOMContentLoaded])
       (snd (waitForMoment (VString (js "document-end")) loading_page))
     <> Rejected VNull.
Proof.
  split; [reflexivity|]. split.
  - apply (waitForMoment_rejects_illegal_only (VString (js "nonsense"))
             loading_page).
    reflexivity.
  - split; [reflexivity|].
    apply (waitForMoment_rejects_illegal_only (VString (js "document-end"))
             loading_page).
    reflexivity.
Defined.

Example waitForMoment_number_is_illegal :
  promise_status (fst (waitForMoment (VNumber 3) loading_page))
                 (snd (waitForMoment (VNumber 3) loading_page))
  = Rejected (VString (js "Illegal moment")).
Proof. reflexivity. Qed.

(** ** Listeners: who resolves a promise *)

Lemma status_resolve_same (p : promise) (h : host) :
  (p < length (promises h))%nat ->
  promise_status (resolve p h) p = resolved (promise_status h p).
Proof.
  intros Hp. unfold resolve. rewrite status_settle_same by exact Hp.
  change (promise_status (emit (EResolve p) h) p) with (promise_status h p).
  now destruct (promise_status h p).
Qed.

Lemma status_resolve_other (p q : promise) (h : host) :
  p <> q -> promise_status (resolve p h) q = promise_status h q.
Proof. intros H. unfold resolve. now rewrite status_settle_other. Qed.

Lemma resolved_idempotent (st : promise_state) :
  resolved (resolved st) = resolved st.
Proof. now destruct st. Qed.

Lemma resolved_not_pending (st : promise_state) : resolved st <> Pending.
Proof. now destruct st. Qed.

Lemma event_target_eqb_eq (a b : event_target) :
  event_target_eqb a b = true <-> a = b.
Proof. destruct a, b; simpl; split; congruence. Qed.

Lemma event_type_eqb_eq (a b : event_type) :
  event_type_eqb a b = true <-> a = b.
Proof. destruct a, b; simpl; split; congruence. Qed.

Lemma served_evolves (p : promise) (t : event_target) (ty : event_type)
    (h h' : host) :
  evolves h h' -> served_by_listener p t ty h -> served_by_listener p t ty h'.
Proof.
  intros [L P O _ _] (Hp & Hin & Honly & Hobs). unfold served_by_listener.
  rewrite L, P, O. auto.
Qed.

(** The callbacks of observers that belong to other promises leave [p]
    alone. *)
Lemma observer_callback_other (p : promise) (h : host) (o : observer) :
  Forall (fun ap => snd ap <> p)
         (map (fun r => (awaited r, obs_promise r)) (observers h)) ->
  promise_status (observer_callback h o) p = promise_status h p.
Proof.
  intros Hobs. unfold observer_callback.
  destruct (nth_error (observers h) o) as [r|] eqn:E; [|reflexivity].
  destruct (attached r && present (doc h) (awaited r)); [|reflexivity].
  rewrite status_resolve_other; [reflexivity|].
  rewrite Forall_forall in Hobs.
  apply (Hobs (awaited r, obs_promise r)).
  apply in_map_iff. exists r. split; [reflexivity|].
  eapply nth_error_In, E.
Qed.

Lemma notify_other (p : promise) (idx : list observer) (h : host) :
  Forall (fun ap => snd ap <> p)
         (map (fun r => (awaited r, obs_promise r)) (observers h)) ->
  promise_status (fold_left observer_callback idx h) p = promise_status h p.
Proof.
  revert h. induction idx as [|o idx IH]; intros h Hobs; simpl.
  - reflexivity.
  - rewrite IH.
    + now apply observer_callback_other.
    + now rewrite (ev_observers _ _ (evolves_observer_callback h o)).
Qed.

Lemma dispatch_other (p : promise) (t : event_target) (ty : event_type)
    (ls : list listener) (h : host) :
  (forall l, In l ls ->
             event_target_eqb (lst_target l) t
             && event_type_eqb (lst_type l) ty = true ->
             lst_promise l <> p) ->
  promise_status (fold_left (listener_callback t ty) ls h) p
  = promise_status h p.
Proof.
  revert h. induction ls as [|l ls IH]; intros h Hls; simpl.
  - reflexivity.
  - rewrite IH
      by (intros l' Hl' Hm; apply (Hls l'); [right; exact Hl' | exact Hm]).
    unfold listener_callback.
    destruct (event_target_eqb _ _ && event_type_eqb _ _) eqn:E;
      [|reflexivity].
    apply status_resolve_other, (Hls l); [now left | exact E].
Qed.

Lemma dispatch_hit (p : promise) (t : event_target) (ty : event_type)
    (ls : list listener) (h : host) :
  (p < length (promises h))%nat ->
  In (mkListener t ty p) ls ->
  promise_status (fold_left (listener_callback t ty) ls h) p
  = resolved (promise_status h p).
Proof.
  revert h. induction ls as [|l ls IH]; intros h Hp Hin; [destruct Hin|].
  cbn [fold_left].
  assert (p < length (promises (listener_callback t ty h l)))%nat as Hp'
    by (rewrite (ev_promises _ _ (evolves_listener_callback t ty h l));
        exact Hp).
  destruct Hin as [-> | Hin].
  - rewrite (ev_settled _ _ (evolves_fold _ ls _
                               (evolves_listener_callback t ty)));
      unfold listener_callback; cbn [lst_target lst_type lst_promise];
      rewrite (proj2 (event_target_eqb_eq t t) eq_refl),
        (proj2 (event_type_eqb_eq ty ty) eq_refl); cbn [andb];
      rewrite status_resolve_same by exact Hp;
      [reflexivity | apply resolved_not_pending].
  - rewrite (IH _ Hp' Hin). unfold listener_callback.
    destruct (event_target_eqb _ _ && event_type_eqb _ _); [|reflexivity].
    destruct (Nat.eq_dec (lst_promise l) p) as [-> | Hne].
    + rewrite status_resolve_same by exact Hp. apply resolved_idempotent.
    + now rewrite status_resolve_other.
Qed.

Lemma step_status_served (p : promise) (t : event_target) (ty : event_type)
    (h : host) (ev : page_event) :
  served_by_listener p t ty h ->
  promise_status (step h ev) p
  = if is_dispatch t ty ev then resolved (promise_status h p)
    else promise_status h p.
Proof.
  intros (Hp & Hin & Honly & Hobs).
  destruct ev as [hd bd | rs | t' ty']; cbn [step is_dispatch].
  - unfold notify_observers. now rewrite notify_other.
  - reflexivity.
  - destruct (event_target_eqb t' t && event_type_eqb ty' ty) eqn:E.
    + apply andb_true_iff in E. destruct E as [Et Ety].
      apply event_target_eqb_eq in Et. apply event_type_eqb_eq in Ety.
      subst t' ty'. now apply dispatch_hit.
    + apply dispatch_other. intros l Hl Hmatch Hpl.
      rewrite (Honly l Hl Hpl) in Hmatch. cbn in Hmatch.
      apply andb_true_iff in Hmatch. destruct Hmatch as [Et Ety].
      apply event_target_eqb_eq in Et. apply event_type_eqb_eq in Ety.
      subst t' ty'.
      rewrite (proj2 (event_target_eqb_eq t t) eq_refl),
        (proj2 (event_type_eqb_eq ty ty) eq_refl) in E.
      discriminate.
Qed.

(** A promise served by one listener only is resolved by the first
    dispatch of its event and by nothing else. *)
Lemma run_status_served (p : promise) (t : event_target) (ty : event_type)
    (evs : list page_event) (h : host) :
  served_by_listener p t ty h ->
  promise_status (run h evs) p
  = if existsb (is_dispatch t ty) evs then resolved (promise_status h p)
    else promise_status h p.
Proof.
  revert h. induction evs as [|ev evs IH]; intros h Hserved.
  - reflexivity.
  - change (run h (ev :: evs)) with (run (step h ev) evs).
    rewrite IH by (eapply served_evolves; [apply evolves_step | exact Hserved]).
    rewrite (step_status_served p t ty h ev Hserved). cbn [existsb].
    destruct (is_dispatch t ty ev), (existsb (is_dispatch t ty) evs);
      cbn [orb]; try reflexivity.
    apply resolved_idempotent.
Qed.

Lemma served_after_addEventListener (t : event_target) (ty : event_type)
    (h : host) :
  well_formed h ->
  served_by_listener (length (promises h)) t ty
    (addEventListener t ty (length (promises h)) (fst (new_promise h))).
Proof.
  intros [Hls Hobs]. unfold served_by_listener. cbn. repeat split.
  - rewrite length_app. simpl. lia.
  - apply in_or_app. right. now left.
  - intros l Hin Hp. apply in_app_or in Hin. destruct Hin as [Hin | [<- | []]].
    + rewrite Forall_forall in Hls. specialize (Hls l Hin). lia.
    + reflexivity.
  - rewrite Forall_map. eapply Forall_impl; [|exact Hobs].
    cbn. intros r Hr. lia.
Qed.

(** ** waitForMoment: document-end and window-load (claim C6) *)

(** Claim C6.  [waitForMoment("document-end")] returns a fulfilled promise,
    registering nothing, when the ready-state is not [loading]; when it is
    [loading], the promise is pending and one listener for
    [DOMContentLoaded] has been added to the document, and the promise is
    fulfilled by the first dispatch of that event and by nothing else.
    [waitForMoment("window-load")] does the same with the ready-state
    [complete] and one listener for [load] on the window. *)
Theorem waitForMoment_end_and_load (h : host) :
  let h1 := fst (waitForMoment (VString (js "document-end")) h) in
  let p1 := snd (waitForMoment (VString (js "document-end")) h) in
  let h2 := fst (waitForMoment (VString (js "window-load")) h) in
  let p2 := snd (waitForMoment (VString (js "window-load")) h) in
  (readyState (doc h) <> Loading ->
   promise_status h1 p1 = Fulfilled
   /\ listeners h1 = listeners h /\ observers h1 = observers h
   /\ log h1 = log h ++ [EResolve p1])
  /\ (readyState (doc h) = Loading ->
      promise_status h1 p1 = Pending
      /\ listeners h1
         = listeners h ++ [mkListener TheDocument DOMContentLoaded p1]
      /\ observers h1 = observers h
      /\ log h1 = log h ++ [EAddEventListener TheDocument DOMContentLoaded]
      /\ (well_formed h ->
          forall evs,
            promise_status (run h1 evs) p1
            = if existsb (is_dispatch TheDocument DOMContentLoaded) evs
              then Fulfilled else Pending))
  /\ (readyState (doc h) = Complete ->
      promise_status h2 p2 = Fulfilled
      /\ listeners h2 = listeners h /\ observers h2 = observers h
      /\ log h2 = log h ++ [EResolve p2])
  /\ (readyState (doc h) <> Complete ->
      promise_status h2 p2 = Pending
      /\ listeners h2 = listeners h ++ [mkListener TheWindow LoadEvent p2]
      /\ observers h2 = observers h
      /\ log h2 = log h ++ [EAddEventListener TheWindow LoadEvent]
      /\ (well_formed h ->
          forall evs,
            promise_status (run h2 evs) p2
            = if existsb (is_dispatch TheWindow LoadEvent) evs
              then Fulfilled else Pending)).
Proof.
  cbv zeta.
  rewrite waitForMoment_document_end, waitForMoment_window_load. cbv zeta.
  split; [|split; [|split]].
  - intros Hrs.
    assert (negb (is_loading (readyState (doc h))) = true) as ->
      by (destruct (readyState (doc h)); simpl; congruence).
    cbn [fst snd]. split; [apply status_fresh_resolved|].
    repeat split; reflexivity.
  - intros Hrs. rewrite Hrs. cbn [is_loading negb fst snd].
    split; [apply status_fresh_pending|].
    repeat split; try reflexivity.
    intros Hwf evs.
    rewrite (run_status_served _ TheDocument DOMContentLoaded evs _
               (served_after_addEventListener _ _ h Hwf)).
    change (promise_status (addEventListener _ _ _ (fst (new_promise h)))
                           (length (promises h)))
      with (promise_status (fst (new_promise h)) (length (promises h))).
    now rewrite status_fresh_pending.
  - intros Hrs. rewrite Hrs. cbn [is_complete fst snd].
    split; [apply status_fresh_resolved|].
    repeat split; reflexivity.
  - intros Hrs.
    assert (is_complete (readyState (doc h)) = false) as ->
      by (destruct (readyState (doc h)); simpl; congruence).
    cbn [fst snd]. split; [apply status_fresh_pending|].
    repeat split; try reflexivity.
    intros Hwf evs.
    rewrite (run_status_served _ TheWindow LoadEvent evs _
               (served_after_addEventListener _ _ h Hwf)).
    change (promise_status (addEventListener _ _ _ (fst (new_promise h)))
                           (length (promises h)))
      with (promise_status (fst (new_promise h)) (length (promises h))).
    now rewrite status_fresh_pending.
Qed.

Lemma well_formed_loading_page : well_formed loading_page.
Proof. split; constructor. Qed.

(** The theorem on a page that is loading: [document-end] waits for
    [DOMContentLoaded] through mutations and changes of the ready-state. *)
Lemma waitForMoment_end_and_load_witness :
  readyState (doc loading_page) = Loading
  /\ well_formed loading_page
  /\ promise_status
       (run (fst (waitForMoment (VString (js "document-end")) loading_page))
            [Mutation true false; ReadyStateChange Interactive])
       (snd (waitForMoment (VString (js "document-end")) loading_page))
     = Pending
  /\ promise_status
       (run (fst (waitForMoment (VString (js "document-end")) loading_page))
            [Mutation true false; ReadyStateChange Interactive;
             Dispatch TheDocument DOMContentLoaded])
       (snd (waitForMoment (VString (js "document-end")) loading_page))
     = Fulfilled.
Proof.
  split; [reflexivity|]. split; [exact well_formed_loading_page|].
  destruct (waitForMoment_end_and_load loading_page)
    as (_ & Hend & _ & _).
  destruct (Hend eq_refl) as (_ & _ & _ & _ & Hrun).
  split.
  - exact (Hrun well_formed_loading_page
                [Mutation true false; ReadyStateChange Interactive]).
  - exact (Hrun well_formed_loading_page
                [Mutation true false; ReadyStateChange Interactive;
                 Dispatch TheDocument DOMContentLoaded]).
Defined.

(** ** Mutation observers: one shot *)

Lemma disconnections_emit (o : observer) (eff : effect) (h : host) :
  disconnections o (emit eff h)
  = (disconnections o h + if is_disconnect o eff then 1 else 0)%nat.
Proof.
  unfold disconnections, emit. cbn [log].
  rewrite filter_app, length_app. cbn [filter].
  now destruct (is_disconnect o eff).
Qed.

Lemma disconnections_resolve (o : observer) (p : promise) (h : host) :
  disconnections o (resolve p h) = disconnections o h.
Proof.
  unfold resolve.
  change (disconnections o (settle p Fulfilled (emit (EResolve p) h)))
    with (disconnections o (emit (EResolve p) h)).
  rewrite disconnections_emit. cbn. lia.
Qed.

Lemma existsb_seq (o n : nat) :
  (o < n)%nat -> existsb (Nat.eqb o) (seq 0 n) = true.
Proof.
  intros Ho. apply existsb_exists. exists o. split.
  - apply in_seq. lia.
  - apply Nat.eqb_refl.
Qed.

Section OneObserver.

Variable o : observer.
Variable e : element.
Variable p : promise.

(** Observer [o] awaits [e] for promise [p]; [att] tells whether it is
    observing. *)
Let is_observer (att : bool) (h : host) : Prop :=
  nth_error (observers h) o = Some (mkObserver e p att).

Lemma callback_self (att : bool) (h : host) :
  is_observer att h ->
  let fire := att && present (doc h) e in
  is_observer (att && negb fire) (observer_callback h o)
  /\ disconnections o (observer_callback h o)
     = (disconnections o h + if fire then 1 else 0)%nat
  /\ doc (observer_callback h o) = doc h
  /\ (fire = true -> (p < length (promises h))%nat ->
      promise_status (observer_callback h o) p <> Pending).
Proof.
  unfold is_observer. intros Hobs. cbv zeta. unfold observer_callback.
  rewrite Hobs. cbn [attached awaited obs_promise].
  destruct (att && present (doc h) e) eqn:Hfire.
  - apply andb_true_iff in Hfire. destruct Hfire as [-> Hpresent].
    repeat split.
    + cbn. rewrite nth_error_update_same, Hobs. reflexivity.
    + rewrite disconnections_resolve. unfold disconnect.
      change (disconnections o (set_attached o false (emit (EDisconnect o) h)))
        with (disconnections o (emit (EDisconnect o) h)).
      rewrite disconnections_emit. cbn. now rewrite Nat.eqb_refl.
    + intros _ Hp. rewrite status_resolve_same by exact Hp.
      apply resolved_not_pending.
  - repeat split.
    + now rewrite andb_true_r.
    + lia.
    + discriminate.
Qed.

Lemma callback_other (att : bool) (h : host) (i : observer) :
  i <> o ->
  is_observer att h ->
  is_observer att (observer_callback h i)
  /\ disconnections o (observer_callback h i) = disconnections o h
  /\ doc (observer_callback h i) = doc h.
Proof.
  unfold is_observer. intros Hne Hobs. unfold observer_callback.
  destruct (nth_error (observers h) i) as [r|]; [|auto].
  destruct (attached r && present (doc h) (awaited r)); [|auto].
  repeat split.
  - cbn. now rewrite nth_error_update_other.
  - rewrite disconnections_resolve. unfold disconnect.
    change (disconnections o (set_attached i false (emit (EDisconnect i) h)))
      with (disconnections o (emit (EDisconnect i) h)).
    rewrite disconnections_emit. cbn.
    apply Nat.eqb_neq in Hne. rewrite Hne. lia.
Qed.

Lemma not_pending_evolves (h h' : host) :
  evolves h h' -> promise_status h p <> Pending ->
  promise_status h' p <> Pending.
Proof. intros He Hp. now rewrite (ev_settled _ _ He). Qed.

(** One notification: the callbacks of the observers listed in [idx]
    run in turn. *)
Lemma notify_one_observer (idx : list observer) (att : bool) (h : host) :
  is_observer att h ->
  let fire := att && present (doc h) e && existsb (Nat.eqb o) idx in
  is_observer (att && negb fire) (fold_left observer_callback idx h)
  /\ disconnections o (fold_left observer_callback idx h)
     = (disconnections o h + if fire then 1 else 0)%nat
  /\ doc (fold_left observer_callback idx h) = doc h
  /\ (fire = true -> (p < length (promises h))%nat ->
      promise_status (fold_left observer_callback idx h) p <> Pending).
Proof.
  revert att h. induction idx as [|i idx IH]; intros att h Hobs; cbv zeta.
  - cbn [existsb fold_left]. rewrite andb_false_r, andb_true_r.
    repeat split; [exact Hobs | lia | discriminate].
  - cbn [existsb fold_left]. destruct (Nat.eq_dec i o) as [-> | Hne].
    + rewrite Nat.eqb_refl. cbn [orb]. rewrite andb_true_r.
      pose proof (callback_self att h Hobs) as H1. cbv zeta in H1.
      destruct H1 as (Hobs1 & Hdis1 & Hdoc1 & Hp1).
      pose proof (IH _ _ Hobs1) as H2. cbv zeta in H2.
      rewrite Hdoc1 in H2.
      destruct att, (present (doc h) e) eqn:Hpresent;
        cbn [andb negb] in *;
        destruct H2 as (Hobs2 & Hdis2 & Hdoc2 & Hp2);
        repeat split;
        try exact Hobs2; try congruence; try discriminate;
        try (rewrite Hdis2, Hdis1; lia).
      * intros _ Hp. eapply not_pending_evolves.
        -- apply evolves_fold, evolves_observer_callback.
        -- now apply Hp1.
    + assert ((o =? i)%nat = false) as -> by (apply Nat.eqb_neq; congruence).
      cbn [orb].
      destruct (callback_other att h i Hne Hobs) as (Hobs1 & Hdis1 & Hdoc1).
      destruct (IH _ _ Hobs1) as (Hobs2 & Hdis2 & Hdoc2 & Hp2).
      rewrite Hdoc1 in Hobs2, Hdis2, Hp2.
      repeat split.
      * exact Hobs2.
      * rewrite Hdis2, Hdis1. reflexivity.
      * congruence.
      * intros Hfire Hp. apply Hp2; [exact Hfire|].
        now rewrite (ev_promises _ _ (evolves_observer_callback h i)).
Qed.

Lemma dispatch_keeps_observers (t : event_target) (ty : event_type)
    (ls : list listener) (h : host) :
  observers (fold_left (listener_callback t ty) ls h) = observers h
  /\ disconnections o (fold_left (listener_callback t ty) ls h)
     = disconnections o h.
Proof.
  revert h. induction ls as [|l ls IH]; intros h; cbn [fold_left].
  - split; reflexivity.
  - destruct (IH (listener_callback t ty h l)) as [-> ->].
    unfold listener_callback.
    destruct (event_target_eqb _ _ && event_type_eqb _ _).
    + split; [reflexivity | apply disconnections_resolve].
    + split; reflexivity.
Qed.

Lemma step_one_observer (att : bool) (h : host) (ev : page_event) :
  is_observer att h ->
  let fire := att && brings e ev in
  is_observer (att && negb fire) (step h ev)
  /\ disconnections o (step h ev)
     = (disconnections o h + if fire then 1 else 0)%nat
  /\ (fire = true -> (p < length (promises h))%nat ->
      promise_status (step h ev) p <> Pending).
Proof.
  intros Hobs. cbv zeta.
  destruct ev as [hd bd | rs | t ty]; cbn [step brings].
  - unfold notify_observers.
    set (h1 := set_doc (mkDocument (readyState (doc h)) hd bd) h).
    assert (is_observer att h1) as Hobs1 by exact Hobs.
    pose proof (notify_one_observer
                  (seq 0 (length (observers h1))) att h1 Hobs1) as H.
    cbv zeta in H. rewrite existsb_seq, andb_true_r in H.
    + replace (present (doc h1) e)
        with (match e with Head => hd | Body => bd end) in H
        by (now destruct e).
      destruct H as (H1 & H2 & _ & H4). auto.
    + apply nth_error_Some. unfold is_observer in Hobs1. congruence.
  - rewrite andb_false_r, andb_true_r.
    repeat split; [exact Hobs | | discriminate].
    unfold disconnections, set_doc. cbn [log]. lia.
  - rewrite andb_false_r, andb_true_r.
    destruct (dispatch_keeps_observers t ty (listeners h) h) as [H1 H2].
    repeat split.
    + unfold is_observer. now rewrite H1.
    + rewrite H2. lia.
    + discriminate.
Qed.

(** Over any sequence of page events: the observer stays attached until
    the first mutation that brings the awaited element, is disconnected
    then, once, and its promise is settled from then on. *)
Lemma run_one_observer (evs : list page_event) (att : bool) (h : host) :
  is_observer att h ->
  (p < length (promises h))%nat ->
  let fired := att && existsb (brings e) evs in
  is_observer (att && negb fired) (run h evs)
  /\ disconnections o (run h evs)
     = (disconnections o h + if fired then 1 else 0)%nat
  /\ (fired = true -> promise_status (run h evs) p <> Pending).
Proof.
  revert att h. induction evs as [|ev evs IH]; intros att h Hobs Hp;
    cbv zeta.
  - cbn [existsb run fold_left]. rewrite andb_false_r, andb_true_r.
    repeat split; [exact Hobs | lia | discriminate].
  - change (run h (ev :: evs)) with (run (step h ev) evs).
    cbn [existsb].
    pose proof (step_one_observer att h ev Hobs) as H1. cbv zeta in H1.
    destruct H1 as (Hobs1 & Hdis1 & Hp1).
    assert (p < length (promises (step h ev)))%nat as Hp'
      by (rewrite (ev_promises _ _ (evolves_step h ev)); exact Hp).
    pose proof (IH _ _ Hobs1 Hp') as H2. cbv zeta in H2.
    destruct att, (brings e ev) eqn:Hev; cbn [andb negb orb] in *;
      destruct H2 as (Hobs2 & Hdis2 & Hp2);
      repeat split;
      try exact Hobs2; try exact Hp2; try discriminate;
      try (rewrite Hdis2, Hdis1; lia).
    intros _. eapply not_pending_evolves.
    + apply evolves_run.
    + now apply Hp1.
Qed.

End OneObserver.

Lemma update_last {A} (l : list A) (x : A) (f : A -> A) :
  update (l ++ [x]) (length l) f = l ++ [f x].
Proof. induction l as [|y l IH]; simpl; [reflexivity | now rewrite IH]. Qed.

Lemma nth_error_last {A} (l : list A) (x : A) :
  nth_error (l ++ [x]) (length l) = Some x.
Proof.
  rewrite nth_error_app2, Nat.sub_diag by lia. reflexivity.
Qed.

Lemma waitForMoment_element (e : element) (h : host) :
  waitForMoment (element_moment e) h = wait_for_element e h.
Proof. destruct e; reflexivity. Qed.

(** ** waitForMoment: the subscriptions (claim C7) *)

(** Claim C7, as the code has it.  [waitForMoment] for [document-head] or
    [document-body] creates no subscription when the element exists
    already.  Otherwise it attaches one mutation observer, which stays
    attached through every event that does not bring the element, is
    disconnected exactly once, by the first mutation after which the element
    exists, is not attached afterwards, and fulfils the promise then.  The
    event listeners that [waitForMoment] registers are never removed:
    whatever the moment, the listeners present after the call are still
    registered after any page events. *)
Theorem waitForMoment_observer_one_shot (e : element) (h : host) :
  let h' := fst (waitForMoment (element_moment e) h) in
  let p := snd (waitForMoment (element_moment e) h) in
  let o := length (observers h) in
  (present (doc h) e = true ->
   promise_status h' p = Fulfilled
   /\ observers h' = observers h /\ listeners h' = listeners h)
  /\ (present (doc h) e = false ->
      observers h' = observers h ++ [mkObserver e p true]
      /\ listeners h' = listeners h
      /\ forall evs,
           let fired := existsb (brings e) evs in
           is_attached o (run h' evs) = negb fired
           /\ disconnections o (run h' evs)
              = (disconnections o h + if fired then 1 else 0)%nat
           /\ (fired = true -> promise_status (run h' evs) p = Fulfilled))
  /\ (forall moment evs,
        listeners (run (fst (waitForMoment moment h)) evs)
        = listeners (fst (waitForMoment moment h))).
Proof.
  cbv zeta. rewrite waitForMoment_element, wait_for_element_unfold. cbv zeta.
  split; [|split].
  - intros Hpresent. rewrite Hpresent. cbn [fst snd].
    split; [apply status_fresh_resolved | split; reflexivity].
  - intros Hpresent. rewrite Hpresent. cbn [fst snd].
    set (p := length (promises h)). set (o := length (observers h)).
    set (h' := observe o (fst (new_observer e p (fst (new_promise h))))).
    assert (observers h' = observers h ++ [mkObserver e p true]) as Hobs
      by (exact (update_last (observers h) (mkObserver e p false)
                   (fun r => mkObserver (awaited r) (obs_promise r) true))).
    assert (nth_error (observers h') o = Some (mkObserver e p true)) as Hnth
      by (rewrite Hobs; apply nth_error_last).
    assert (p < length (promises h'))%nat as Hp
      by (cbn; rewrite length_app; simpl; lia).
    assert (promise_status h' p = Pending) as Hpending
      by (apply (status_fresh_pending h)).
    assert (disconnections o h' = disconnections o h) as Hdis.
    { unfold h', observe.
      change (disconnections o (set_attached o true ?x))
        with (disconnections o x).
      rewrite disconnections_emit. cbn [is_disconnect].
      unfold disconnections. cbn [log new_observer new_promise fst]. lia. }
    split; [exact Hobs|]. split; [reflexivity|].
    intros evs.
    pose proof (run_one_observer o e p evs true h' Hnth Hp) as H.
    cbv zeta in H. cbn [andb] in H. destruct H as (Hatt & Hcount & Hset).
    split; [|split].
    + unfold is_attached. now rewrite Hatt.
    + now rewrite Hcount, Hdis.
    + intros Hfired. specialize (Hset Hfired).
      destruct (promise_status (run h' evs) p) as [ | |reason] eqn:Est;
        [congruence | reflexivity |].
      apply (ev_rejected _ _ (evolves_run h' evs)) in Est. congruence.
  - intros moment evs. apply (ev_listeners _ _ (evolves_run _ evs)).
Qed.

(** The theorem on a page that is loading: the observer for
    [document-body] ignores the mutation that brings the head, and is
    disconnected once, by the one that brings the body. *)
Lemma waitForMoment_observer_one_shot_witness :
  present (doc loading_page) Body = false
  /\ (let h' := fst (waitForMoment (element_moment Body) loading_page) in
      is_attached 0%nat (run h' [Mutation true false]) = true
      /\ disconnections 0%nat (run h' [Mutation true false]) = 0%nat
      /\ is_attached 0%nat
           (run h' [Mutation true false; Mutation true true;
                    Mutation true true]) = false
      /\ disconnections 0%nat
           (run h' [Mutation true false; Mutation true true;
                    Mutation true true]) = 1%nat).
Proof.
  split; [reflexivity|]. cbv zeta.
  destruct (waitForMoment_observer_one_shot Body loading_page)
    as (_ & Hwait & _).
  destruct (Hwait eq_refl) as (_ & _ & Hrun).
  destruct (Hrun [Mutation true false]) as (Ha1 & Hd1 & _).
  destruct (Hrun [Mutation true false; Mutation true true;
                  Mutation true true]) as (Ha2 & Hd2 & _).
  split; [exact Ha1 | split; [exact Hd1 | split; [exact Ha2 | exact Hd2]]].
Defined.

(** Claim C7 as stated fails for [document-end] on a page that is loading:
    once [DOMContentLoaded] has been dispatched the promise is fulfilled,
    and the listener that the waiter registered is still registered. *)
Lemma waitForMoment_listener_stays_counterexample :
  let h' := fst (waitForMoment (VString (js "document-end")) loading_page) in
  let p := snd (waitForMoment (VString (js "document-end")) loading_page) in
  let after := run h' [Dispatch TheDocument DOMContentLoaded] in
  promise_status after p = Fulfilled
  /\ listeners after = [mkListener TheDocument DOMContentLoaded p]
  /\ subscriptions p after = 1%nat
  /\ ~ (forall moment h evs,
          promise_status (run (fst (waitForMoment moment h)) evs)
                         (snd (waitForMoment moment h)) = Fulfilled ->
          subscriptions (snd (waitForMoment moment h))
                        (run (fst (waitForMoment moment h)) evs) = 0%nat).
Proof.
  cbv zeta. repeat split; try reflexivity.
  intros H.
  specialize (H (VString (js "document-end")) loading_page
                [Dispatch TheDocument DOMContentLoaded] eq_refl).
  discriminate H.
Qed.

(* ================================================================== *)
(** * Part III: more about the code *)
(* ================================================================== *)

(** ** wbiSign: what the salt reads *)

Lemma flat_map_ext_in {A B} (f g : A -> list B) (l : list A) :
  (forall x, In x l -> f x = g x) -> flat_map f l = flat_map g l.
Proof.
  induction l as [|x l IH]; intros H; simpl; [reflexivity|].
  rewrite H by now left. rewrite IH; [reflexivity|].
  intros; apply H; now right.
Qed.

Lemma picked_firstn (S : jstring) (n : nat) :
  (n < 64)%nat -> picked (firstn 64 S) n = picked S n.
Proof.
  intros Hn. unfold picked. rewrite nth_error_firstn.
  apply Nat.ltb_lt in Hn. now rewrite Hn.
Qed.

(** X1.  The salt depends on the first 64 characters of [imgKey + subKey] and
    on nothing else: neither on where the two keys are split nor on anything
    past the 64th character. *)
Theorem wbi_salt_reads_first_64 (imgKey subKey imgKey' subKey' : jstring) :
  firstn 64 (imgKey ++ subKey) = firstn 64 (imgKey' ++ subKey') ->
  wbi_salt imgKey subKey = wbi_salt imgKey' subKey'.
Proof.
  intros H. rewrite !wbi_salt_unfold. f_equal.
  transitivity (flat_map (picked (firstn 64 (imgKey ++ subKey))) salt_table).
  - apply flat_map_ext_in. intros n Hn. symmetry. apply picked_firstn.
    pose proof salt_table_bounded as Hb. rewrite Forall_forall in Hb.
    now apply Hb.
  - rewrite H. apply flat_map_ext_in. intros n Hn. apply picked_firstn.
    pose proof salt_table_bounded as Hb. rewrite Forall_forall in Hb.
    now apply Hb.
Qed.

Lemma wbi_salt_reads_first_64_witness :
  wbi_salt (js "7cd084941338484aae1ad9425b84077c")
           (js "4932caff0ff746eab6f01bf08b70ac45")
  = wbi_salt (js "7cd084941338484aae1ad9425b84077c4932")
             (js "caff0ff746eab6f01bf08b70ac45 and more").
Proof.
  apply wbi_salt_reads_first_64. reflexivity.
Defined.

(** ** wbiSign: the [wts] of the caller, and signing again *)

Lemma set_set (o : object) (key : jstring) (v v' : value) :
  set (set o key v) key v' = set o key v'.
Proof.
  induction o as [|[k v0] o IH]; simpl.
  - now rewrite str_eqb_refl.
  - destruct (str_eqb k key) eqn:E; simpl; rewrite E; [reflexivity|].
    now rewrite IH.
Qed.

(** X2.  A [wts] that the caller put into [params] is overwritten and has no
    influence on the result; in particular signing the mapping that an earlier
    call has mutated is the same as signing the original one. *)
Theorem wbiSign_discards_old_wts (clock_ms clock_ms' : Z) (params : object)
    (old : value) (imgKey subKey imgKey' subKey' : jstring) :
  wbiSign clock_ms (set params (js "wts") old) imgKey subKey
  = wbiSign clock_ms params imgKey subKey
  /\ wbiSign clock_ms (fst (wbiSign clock_ms' params imgKey' subKey'))
             imgKey subKey
     = wbiSign clock_ms params imgKey subKey.
Proof.
  unfold wbiSign. cbn [fst]. now rewrite !set_set.
Qed.

(** ** wbiSign: the order of the properties of [params] *)

Lemma has_own_in (o : object) (key : jstring) :
  has_own o key = true <-> In key (Object_keys o).
Proof.
  unfold Object_keys. induction o as [|[k v] o IH]; simpl.
  - split; [discriminate | contradiction].
  - rewrite orb_true_iff, IH, str_eqb_eq. tauto.
Qed.

Lemma get_absent (o : object) (key : jstring) :
  ~ In key (Object_keys o) -> get o key = VUndefined.
Proof.
  unfold Object_keys. induction o as [|[k v] o IH]; simpl; [reflexivity|].
  intros H. destruct (str_eqb k key) eqn:E.
  - apply str_eqb_eq in E. tauto.
  - apply IH. tauto.
Qed.

Lemma get_bound (o : object) (key : jstring) (v : value) :
  distinct_keys o -> In (key, v) o -> get o key = v.
Proof.
  unfold distinct_keys, Object_keys.
  induction o as [|[k v0] o IH]; simpl; [contradiction|].
  intros Hnd Hin. inversion Hnd as [|? ? Hk Hnd']; subst.
  destruct Hin as [[= -> ->] | Hin].
  - now rewrite str_eqb_refl.
  - destruct (str_eqb k key) eqn:E.
    + apply str_eqb_eq in E. subst k. exfalso. apply Hk.
      apply in_map_iff. now exists (key, v).
    + now apply IH.
Qed.

Lemma get_permutation (o1 o2 : object) (key : jstring) :
  distinct_keys o1 -> Permutation o1 o2 -> get o1 key = get o2 key.
Proof.
  intros Hnd Hperm.
  assert (distinct_keys o2) as Hnd2.
  { unfold distinct_keys, Object_keys in *.
    eapply Permutation_NoDup; [|exact Hnd]. now apply Permutation_map. }
  destruct (in_dec (list_eq_dec Z.eq_dec) key (Object_keys o1)) as [Hin|Hout].
  - unfold Object_keys in Hin. apply in_map_iff in Hin.
    destruct Hin as ([k v] & Hk & Hin). simpl in Hk. subst k.
    rewrite (get_bound o1 key v Hnd Hin).
    symmetry. apply get_bound; [exact Hnd2|].
    eapply Permutation_in; [exact Hperm | exact Hin].
  - rewrite (get_absent o1 key Hout). symmetry. apply get_absent.
    intros Hin. apply Hout. unfold Object_keys in *.
    eapply Permutation_in; [|exact Hin].
    apply Permutation_map. now symmetry.
Qed.

Lemma sort_permutation (l1 l2 : list jstring) :
  Permutation l1 l2 -> sort l1 = sort l2.
Proof.
  intros H. apply sorted_unique; try apply sort_sorted.
  rewrite !sort_perm. exact H.
Qed.

Lemma wbi_query_same_bindings (p1 p2 : object) :
  Permutation (Object_keys p1) (Object_keys p2) ->
  (forall key, get p1 key = get p2 key) ->
  wbi_query p1 = wbi_query p2.
Proof.
  intros Hkeys Hget. unfold wbi_query.
  rewrite (sort_permutation _ _ Hkeys).
  rewrite (map_result_ext (wbi_pair p1) (wbi_pair p2)); [reflexivity|].
  intros key. unfold wbi_pair. now rewrite Hget.
Qed.

(** X3.  The string returned by [wbiSign] does not depend on the order in
    which the properties of [params] are enumerated (the order in which the
    caller wrote them). *)
Theorem wbiSign_order_independent (clock_ms : Z) (params params' : object)
    (imgKey subKey : jstring) :
  distinct_keys params ->
  Permutation params params' ->
  snd (wbiSign clock_ms params imgKey subKey)
  = snd (wbiSign clock_ms params' imgKey subKey).
Proof.
  intros Hnd Hperm. unfold wbiSign. cbn [snd].
  assert (Permutation (Object_keys params) (Object_keys params')) as Hkeys
    by (unfold Object_keys; now apply Permutation_map).
  assert (has_own params (js "wts") = has_own params' (js "wts")) as Hown.
  { destruct (has_own params (js "wts")) eqn:E1,
             (has_own params' (js "wts")) eqn:E2; try reflexivity.
    - apply has_own_in in E1.
      apply (Permutation_in _ Hkeys), has_own_in in E1. congruence.
    - apply has_own_in in E2.
      apply (Permutation_in _ (Permutation_sym Hkeys)), has_own_in in E2.
      congruence. }
  rewrite (wbi_query_same_bindings
             (set params (js "wts") (VNumber (ts clock_ms)))
             (set params' (js "wts") (VNumber (ts clock_ms)))).
  - reflexivity.
  - rewrite !keys_set, Hown. destruct (has_own params' (js "wts")).
    + exact Hkeys.
    + now apply Permutation_app_tail.
  - intros key. destruct (list_eq_dec Z.eq_dec key (js "wts")) as [-> | Hne].
    + now rewrite !get_set_same.
    + rewrite !get_set_other by exact Hne. now apply get_permutation.
Qed.

Lemma wbiSign_order_independent_witness :
  snd (wbiSign 1702204169000
         [(js "foo", VString (js "114")); (js "bar", VString (js "514"))]
         (js "7cd084941338484aae1ad9425b84077c")
         (js "4932caff0ff746eab6f01bf08b70ac45"))
  = snd (wbiSign 1702204169000
           [(js "bar", VString (js "514")); (js "foo", VString (js "114"))]
           (js "7cd084941338484aae1ad9425b84077c")
           (js "4932caff0ff746eab6f01bf08b70ac45")).
Proof.
  apply wbiSign_order_independent.
  - unfold distinct_keys. constructor.
    + intros [H | []]. discriminate H.
    + constructor; [intros [] | constructor].
  - apply perm_swap.
Defined.

(** ** encodeURIComponent: the characters of its result *)

Lemma lor_below_pow2 (a b n : Z) :
  0 <= a < 2 ^ n -> 0 <= b < 2 ^ n -> 0 <= Z.lor a b < 2 ^ n.
Proof.
  intros Ha Hb.
  assert (0 <= Z.lor a b) as Hnonneg by (apply Z.lor_nonneg; lia).
  split; [exact Hnonneg|].
  destruct (Z.eq_dec (Z.lor a b) 0) as [-> | Hne]; [lia|].
  assert (0 < n) as Hn.
  { destruct (Z_lt_le_dec 0 n) as [H|H]; [exact H|].
    assert (2 ^ n <= 1) as Hpow.
    { destruct (Z.eq_dec n 0) as [-> | Hn0]; [simpl; lia|].
      rewrite Z.pow_neg_r by lia. lia. }
    assert (a = 0) by lia. assert (b = 0) by lia. subst.
    simpl in Hne. congruence. }
  apply Z.log2_lt_pow2; [lia|].
  rewrite Z.log2_lor by lia.
  apply Z.max_lub_lt.
  - destruct (Z.eq_dec a 0) as [-> | Ha0]; [simpl; lia|].
    apply Z.log2_lt_pow2; lia.
  - destruct (Z.eq_dec b 0) as [-> | Hb0]; [simpl; lia|].
    apply Z.log2_lt_pow2; lia.
Qed.

Lemma lor_octet (a b : Z) :
  0 <= a < 256 -> 0 <= b < 256 -> 0 <= Z.lor a b < 256.
Proof. apply (lor_below_pow2 a b 8). Qed.

Lemma shiftr_range (x k bound : Z) :
  0 <= k -> 0 <= x < bound * 2 ^ k -> 0 <= Z.shiftr x k < bound.
Proof.
  intros Hk Hx. rewrite Z.shiftr_div_pow2 by exact Hk.
  assert (0 < 2 ^ k) by (apply Z.pow_pos_nonneg; lia).
  split.
  - apply Z.div_pos; lia.
  - apply Z.div_lt_upper_bound; lia.
Qed.

Lemma land_63_range (x : Z) : 0 <= Z.land x 0x3F < 64.
Proof.
  change 0x3F with (Z.ones 6). rewrite Z.land_ones by lia.
  apply Z.mod_pos_bound. reflexivity.
Qed.

Lemma continuation_octet (x : Z) : 0 <= Z.lor 0x80 (Z.land x 0x3F) < 256.
Proof.
  apply lor_octet; [lia|]. pose proof (land_63_range x). lia.
Qed.

Lemma utf8_octets_range (cp : Z) :
  0 <= cp < 0x110000 -> Forall (fun b => 0 <= b < 256) (utf8_octets cp).
Proof.
  intros Hcp. unfold utf8_octets.
  destruct (cp <? 0x80) eqn:E1; [apply Z.ltb_lt in E1; repeat constructor; lia|].
  destruct (cp <? 0x800) eqn:E2.
  { apply Z.ltb_lt in E2. repeat constructor; try apply continuation_octet.
    - apply lor_octet; [lia|].
      pose proof (shiftr_range cp 6 32). simpl in *. lia.
    - apply lor_octet; [lia|].
      pose proof (shiftr_range cp 6 32). simpl in *. lia. }
  destruct (cp <? 0x10000) eqn:E3.
  { apply Z.ltb_lt in E3. repeat constructor; try apply continuation_octet.
    - apply lor_octet; [lia|].
      pose proof (shiftr_range cp 12 16). simpl in *. lia.
    - apply lor_octet; [lia|].
      pose proof (shiftr_range cp 12 16). simpl in *. lia. }
  repeat constructor; try apply continuation_octet.
  - apply lor_octet; [lia|].
    pose proof (shiftr_range cp 18 5). simpl in *. lia.
  - apply lor_octet; [lia|].
    pose proof (shiftr_range cp 18 5). simpl in *. lia.
Qed.

Lemma HEX_digit_is_HEX (d : Z) : 0 <= d < 16 -> is_HEX (HEX_digit d) = true.
Proof.
  intros Hd. pattern d. apply nibble_cases; [exact Hd|..]; reflexivity.
Qed.

Lemma percent_encode_chars (cp : Z) :
  0 <= cp < 0x110000 ->
  Forall (fun c => c = 37 \/ is_HEX c = true) (percent_encode cp).
Proof.
  intros Hcp. unfold percent_encode.
  pose proof (utf8_octets_range cp Hcp) as Hoct.
  induction Hoct as [|b bs Hb _ IH]; simpl; [constructor|].
  constructor; [now left|].
  constructor.
  { right. apply HEX_digit_is_HEX. apply (shiftr_range b 4 16); lia. }
  constructor; [|exact IH].
  right. apply HEX_digit_is_HEX. change 15 with (Z.ones 4).
  rewrite Z.land_ones by lia. apply Z.mod_pos_bound. reflexivity.
Qed.

Lemma surrogate_pair_range (lead trail : code_unit) :
  is_leading_surrogate lead = true -> is_trailing_surrogate trail = true ->
  0 <= surrogate_pair_to_code_point lead trail < 0x110000.
Proof.
  unfold is_leading_surrogate, is_trailing_surrogate,
    surrogate_pair_to_code_point.
  rewrite !andb_true_iff, !Z.leb_le. lia.
Qed.

(** Every character of an encoded string is a character of the input that
    the encoder leaves alone, or [%], or an uppercase hexadecimal digit. *)
Lemma uri_encode_chars (unescaped : code_unit -> bool) (n : nat) :
  forall s r,
    (length s <= n)%nat ->
    code_units s ->
    uri_encode unescaped s = Ok r ->
    Forall (fun c => (unescaped c = true /\ In c s) \/ c = 37
                     \/ is_HEX c = true) r.
Proof.
  induction n as [|n IH]; intros s r Hlen Hs Hr.
  - destruct s; [|simpl in Hlen; lia]. injection Hr as <-. constructor.
  - destruct s as [|c rest]; [injection Hr as <-; constructor|].
    inversion Hs as [|? ? Hc Hrest]; subst.
    assert (forall s' r', (length s' <= n)%nat -> code_units s' ->
              (forall x, In x s' -> In x (c :: rest)) ->
              uri_encode unescaped s' = Ok r' ->
              Forall (fun x => (unescaped x = true /\ In x (c :: rest))
                               \/ x = 37 \/ is_HEX x = true) r') as IH'.
    { intros s' r' Hl Hs' Hsub Hr'.
      eapply Forall_impl; [|exact (IH s' r' Hl Hs' Hr')].
      intros x [[Hu Hin] | H]; [left; split; auto | now right]. }
    cbn [uri_encode] in Hr. simpl in Hlen.
    destruct (unescaped c) eqn:Eu.
    + destruct (uri_encode unescaped rest) as [r0|] eqn:E0; [|discriminate].
      injection Hr as <-. constructor.
      * left. split; [exact Eu | now left].
      * apply (IH' rest r0); [lia | exact Hrest | intros; now right | exact E0].
    + destruct (is_leading_surrogate c) eqn:El.
      * destruct rest as [|c2 rest']; [discriminate|].
        destruct (is_trailing_surrogate c2) eqn:Et; [|discriminate].
        destruct (uri_encode unescaped rest') as [r0|] eqn:E0; [|discriminate].
        injection Hr as <-. inversion Hrest as [|? ? _ Hrest']; subst.
        apply Forall_app. split.
        -- eapply Forall_impl;
             [|apply percent_encode_chars, surrogate_pair_range; eassumption].
           intros x H. now right.
        -- apply (IH' rest' r0);
             [simpl in Hlen; lia | exact Hrest'
             | intros; right; now right | exact E0].
      * destruct (is_trailing_surrogate c); [discriminate|].
        destruct (uri_encode unescaped rest) as [r0|] eqn:E0; [|discriminate].
        injection Hr as <-. apply Forall_app. split.
        -- eapply Forall_impl; [|apply percent_encode_chars].
           ++ intros x H. now right.
           ++ unfold is_code_unit in Hc. lia.
        -- apply (IH' rest r0);
             [lia | exact Hrest | intros; now right | exact E0].
Qed.

(** ** wbiSign: the shape of the query string *)

Lemma is_HEX_alnum (c : code_unit) : is_HEX c = true -> is_alnum c = true.
Proof.
  unfold is_HEX, is_alnum.
  rewrite !orb_true_iff, !andb_true_iff, !Z.leb_le. lia.
Qed.

Lemma code_units_filter (f : code_unit -> bool) (s : jstring) :
  code_units s -> code_units (filter f s).
Proof.
  unfold code_units. rewrite !Forall_forall. intros H c Hc.
  apply filter_In in Hc. now apply H.
Qed.

Lemma encoded_key_chars (key k : jstring) :
  code_units key -> encodeURIComponent key = Ok k ->
  Forall (fun c => key_char c = true) k.
Proof.
  intros Hkey Hk.
  eapply Forall_impl;
    [|exact (uri_encode_chars uri_unescaped (length key) key k
               (Nat.le_refl _) Hkey Hk)].
  intros c [[Hu _] | [-> | Hhex]]; unfold key_char.
  - now rewrite Hu.
  - reflexivity.
  - unfold uri_unescaped. now rewrite (is_HEX_alnum c Hhex).
Qed.

Lemma unescaped_not_filtered (c : code_unit) :
  uri_unescaped c = true -> wbi_filtered c = false -> is_unreserved c = true.
Proof.
  unfold uri_unescaped, is_unreserved. intros Hu Hf.
  destruct (is_alnum c); [reflexivity|]. simpl in *.
  unfold is_uri_mark in Hu. apply existsb_exists in Hu.
  destruct Hu as (x & Hin & Hx). apply Z.eqb_eq in Hx. subst x.
  simpl in Hin.
  repeat (destruct Hin as [<- | Hin]; [try reflexivity; discriminate Hf|]).
  contradiction.
Qed.

Lemma encoded_value_chars (s v : jstring) :
  code_units s ->
  encodeURIComponent (replace_class wbi_filtered [] s) = Ok v ->
  Forall (fun c => value_char c = true) v.
Proof.
  rewrite replace_class_removes. intros Hs Hv.
  eapply Forall_impl;
    [|exact (uri_encode_chars uri_unescaped _ _ v (Nat.le_refl _)
               (code_units_filter _ s Hs) Hv)].
  intros c [[Hu Hin] | [-> | Hhex]]; unfold value_char.
  - apply filter_In in Hin. destruct Hin as [_ Hin].
    apply negb_true_iff in Hin.
    now rewrite (unescaped_not_filtered c Hu Hin).
  - reflexivity.
  - unfold is_unreserved. now rewrite (is_HEX_alnum c Hhex).
Qed.

Lemma get_in_keys (o : object) (key : jstring) :
  In key (Object_keys o) -> In (key, get o key) o.
Proof.
  unfold Object_keys. induction o as [|[k v] o IH]; simpl; [contradiction|].
  intros Hin. destruct (str_eqb k key) eqn:E.
  - apply str_eqb_eq in E. subst k. now left.
  - right. apply IH. destruct Hin as [-> | Hin]; [|exact Hin].
    now rewrite str_eqb_refl in E.
Qed.

Lemma map_result_Forall2 {A B} (f : A -> result B) (l : list A)
    (ys : list B) :
  map_result f l = Ok ys -> Forall2 (fun x y => f x = Ok y) l ys.
Proof.
  revert ys. induction l as [|x l IH]; intros ys; simpl.
  - intros [= <-]. constructor.
  - destruct (f x) as [y|] eqn:Ex; simpl; [|discriminate].
    destruct (map_result f l) as [ys'|]; simpl; [|discriminate].
    intros [= <-]. constructor; [exact Ex | now apply IH].
Qed.

Lemma count_char_app (c : code_unit) (a b : jstring) :
  count_char c (a ++ b) = (count_char c a + count_char c b)%nat.
Proof. unfold count_char. now rewrite filter_app, length_app. Qed.

Lemma count_char_none (c : code_unit) (P : code_unit -> bool) (s : jstring) :
  P c = false -> Forall (fun x => P x = true) s -> count_char c s = 0%nat.
Proof.
  intros Hc. unfold count_char. induction 1 as [|x s Hx _ IH]; simpl.
  - reflexivity.
  - destruct (c =? x) eqn:E; [|exact IH].
    apply Z.eqb_eq in E. congruence.
Qed.

Lemma well_shaped_counts (pair : jstring) :
  well_shaped_pair pair ->
  count_char 61 pair = 1%nat /\ count_char 38 pair = 0%nat.
Proof.
  intros (k & v & -> & Hk & Hv).
  rewrite !count_char_app.
  rewrite (count_char_none 61 key_char k eq_refl Hk),
    (count_char_none 61 value_char v eq_refl Hv),
    (count_char_none 38 key_char k eq_refl Hk),
    (count_char_none 38 value_char v eq_refl Hv).
  split; reflexivity.
Qed.

Lemma join_counts (pairs : list jstring) :
  Forall well_shaped_pair pairs ->
  count_char 61 (join (js "&") pairs) = length pairs
  /\ count_char 38 (join (js "&") pairs) = pred (length pairs).
Proof.
  unfold join. induction 1 as [|p pairs Hp Hrest IH]; [split; reflexivity|].
  destruct (well_shaped_counts p Hp) as [Heq Hamp].
  destruct pairs as [|p' pairs].
  - simpl. now rewrite Heq, Hamp.
  - change (join_opt (js "&") (map Some (p :: p' :: pairs)))
      with (p ++ js "&" ++ join_opt (js "&") (map Some (p' :: pairs))).
    destruct IH as [IHeq IHamp].
    rewrite !count_char_app, Heq, Hamp, IHeq, IHamp. simpl. split; lia.
Qed.

Lemma pairs_well_shaped (params : object) (keys pairs : list jstring) :
  code_unit_params params ->
  Forall (fun key => In key (Object_keys params)) keys ->
  Forall2 (fun key pair => wbi_pair params key = Ok pair) keys pairs ->
  Forall well_shaped_pair pairs.
Proof.
  intros Hparams Hkeys E.
  induction E as [|key pair keys pairs Hpair _ IH]; [constructor|].
  inversion Hkeys as [|? ? Hkey Hkeys']; subst.
  constructor; [|now apply IH].
  apply get_in_keys in Hkey.
  unfold code_unit_params in Hparams. rewrite Forall_forall in Hparams.
  destruct (Hparams _ Hkey) as [Hcu Hstr]. cbn [fst snd] in Hcu, Hstr.
  unfold wbi_pair in Hpair.
  destruct (toString (get params key)) as [s|] eqn:Es; [|discriminate].
  cbn [bind] in Hpair.
  destruct (encodeURIComponent key) as [k|] eqn:Ek; [|discriminate].
  cbn [bind] in Hpair.
  destruct (encodeURIComponent (replace_class wbi_filtered [] s))
    as [v|] eqn:Ev; [|discriminate].
  injection Hpair as <-. exists k, v. split; [reflexivity|]. split.
  - now apply (encoded_key_chars key).
  - apply (encoded_value_chars s); [now apply Hstr | exact Ev].
Qed.

Lemma wbi_query_pairs (params : object) (query : jstring) :
  code_unit_params params ->
  wbi_query params = Ok query ->
  exists pairs,
    query = join (js "&") pairs
    /\ length pairs = length params
    /\ Forall well_shaped_pair pairs
    /\ count_char 61 query = length params
    /\ count_char 38 query = pred (length params).
Proof.
  intros Hparams. unfold wbi_query.
  destruct (map_result _ _) as [pairs|] eqn:E; simpl; [|discriminate].
  intros [= <-]. exists pairs.
  apply map_result_Forall2 in E.
  assert (Forall well_shaped_pair pairs) as Hshape.
  { apply (pairs_well_shaped params (sort (Object_keys params)));
      [exact Hparams | | exact E].
    apply Forall_forall. intros key Hin.
    eapply Permutation_in; [apply sort_perm | exact Hin]. }
  assert (length pairs = length params) as Hlen.
  { rewrite <- (Forall2_length E).
    rewrite (Permutation_length (sort_perm _)).
    unfold Object_keys. apply length_map. }
  destruct (join_counts pairs Hshape) as [Heq Hamp].
  rewrite Heq, Hamp, Hlen. auto.
Qed.

(** X4.  On keys and values that are strings of code units, the query string
    of [wbiSign] is a sequence of pairs [key=value] joined by [&], one pair
    per key of [params]; an encoded key holds only characters that
    [encodeURIComponent] leaves alone and [%], an encoded value only
    unreserved characters ([A-Za-z0-9-_.~]) and [%]. So the query holds
    exactly one [=] per key and one [&] between two pairs, and can be split
    back into its pairs. *)
Theorem wbi_query_shape (params : object) (query : jstring) :
  code_unit_params params ->
  wbi_query params = Ok query ->
  exists pairs,
    query = join (js "&") pairs
    /\ length pairs = length params
    /\ Forall well_shaped_pair pairs
    /\ count_char 61 query = length params
    /\ count_char 38 query = pred (length params).
Proof. apply wbi_query_pairs. Qed.

Lemma wbi_query_shape_witness :
  let params := [(js "a&b", VString (js "x=y (z)"));
                 (js "wts", VNumber 1702204169)] in
  code_unit_params params
  /\ wbi_query params = Ok (js "a%26b=x%3Dy%20z&wts=1702204169")
  /\ count_char 61 (js "a%26b=x%3Dy%20z&wts=1702204169") = 2%nat.
Proof.
  cbv zeta.
  assert (code_unit_params [(js "a&b", VString (js "x=y (z)"));
                            (js "wts", VNumber 1702204169)]) as Hp.
  { repeat constructor; cbn; try lia;
      intros s [= <-]; repeat constructor; cbn; lia. }
  assert (wbi_query [(js "a&b", VString (js "x=y (z)"));
                     (js "wts", VNumber 1702204169)]
          = Ok (js "a%26b=x%3Dy%20z&wts=1702204169")) as Hq
    by reflexivity.
  split; [exact Hp|]. split; [exact Hq|].
  destruct (wbi_query_shape _ _ Hp Hq) as (pairs & _ & _ & _ & Heq & _).
  exact Heq.
Defined.

(** ** wbiSign: values that have no string *)

(** X5.  A key of [params] (other than [wts]) bound to [null] or [undefined]
    makes [wbiSign] throw; the [wts] field has been written all the same. *)
Theorem wbiSign_throws_on_nullish (clock_ms : Z) (params : object)
    (imgKey subKey key : jstring) :
  In key (Object_keys params) ->
  key <> js "wts" ->
  is_nullish (get params key) = true ->
  (exists e, snd (wbiSign clock_ms params imgKey subKey) = Throw e)
  /\ get (fst (wbiSign clock_ms params imgKey subKey)) (js "wts")
     = VNumber (ts clock_ms).
Proof.
  intros Hin Hne Hnull. unfold wbiSign. cbn [fst snd].
  split; [|apply get_set_same].
  set (params' := set params (js "wts") (VNumber (ts clock_ms))).
  assert (In key (sort (Object_keys params'))) as Hin'.
  { eapply Permutation_in; [symmetry; apply sort_perm|].
    unfold params'. rewrite keys_set.
    destruct (has_own params (js "wts")); [exact Hin|].
    apply in_or_app. now left. }
  assert (wbi_pair params' key = Throw TypeError) as Hthrow.
  { unfold wbi_pair, params'. rewrite get_set_other by exact Hne.
    now rewrite (toString_nullish _ Hnull). }
  destruct (map_result_first_throw (wbi_pair params') _ key TypeError
              Hin' Hthrow) as [e He].
  unfold wbi_query. rewrite He. now exists e.
Qed.

Lemma wbiSign_throws_on_nullish_witness :
  exists e,
    snd (wbiSign 0 [(js "mid", VUndefined); (js "pn", VNumber 1)] [] [])
    = Throw e.
Proof.
  apply (wbiSign_throws_on_nullish 0
           [(js "mid", VUndefined); (js "pn", VNumber 1)] [] [] (js "mid")).
  - simpl. now left.
  - discriminate.
  - reflexivity.
Defined.

(** ** packFormData: what ends up in the carrier *)

Lemma fold_result_append (calls : list (value * value)) (fd : FormData) :
  fold_result
    (fun formData '(value, key) =>
       s <- toString value ;; Ok (FormData_append formData key s))
    calls fd
  = (entries <- map_result
                  (fun call => s <- toString (fst call) ;;
                               Ok (to_USVString (entry_name (snd call)),
                                   to_USVString s)) calls ;;
     Ok (fd ++ entries)).
Proof.
  revert fd. induction calls as [|[v k] calls IH]; intros fd; simpl.
  - now rewrite app_nil_r.
  - destruct (toString v) as [s|e]; simpl; [|reflexivity].
    rewrite IH. unfold FormData_append.
    destruct (map_result _ calls) as [entries|e]; simpl; [|reflexivity].
    now rewrite <- app_assoc.
Qed.

Lemma map_result_map {A B C} (f : B -> result C) (g : A -> B) (l : list A) :
  map_result f (map g l) = map_result (fun x => f (g x)) l.
Proof.
  induction l as [|x l IH]; simpl; [reflexivity|]. now rewrite IH.
Qed.

(** A well-formed string is a scalar-value string already. *)
Lemma to_USVString_bounded (n : nat) :
  forall s, (length s <= n)%nat -> isWellFormed s = true ->
            to_USVString s = s.
Proof.
  induction n as [|n IH]; intros s Hlen.
  - destruct s; [reflexivity | simpl in Hlen; lia].
  - destruct s as [|c rest]; [reflexivity|].
    cbn [isWellFormed to_USVString]. simpl in Hlen.
    destruct (is_leading_surrogate c).
    + destruct rest as [|c2 rest']; [discriminate|].
      destruct (is_trailing_surrogate c2); [|discriminate].
      cbn [andb]. intros H.
      rewrite (IH rest'); [reflexivity | simpl in Hlen; lia | exact H].
    + destruct (is_trailing_surrogate c); [discriminate|].
      cbn [negb andb]. intros H.
      rewrite (IH rest); [reflexivity | lia | exact H].
Qed.

Lemma to_USVString_well_formed (s : jstring) :
  isWellFormed s = true -> to_USVString s = s.
Proof. apply (to_USVString_bounded (length s)). apply Nat.le_refl. Qed.

Lemma ascii_well_formed (s : jstring) :
  ascii_string s -> isWellFormed s = true.
Proof.
  induction 1 as [|c s Hc _ IH]; [reflexivity|].
  cbn [isWellFormed]. destruct (ascii_not_surrogate c Hc) as [-> ->].
  exact IH.
Qed.

Lemma to_USVString_index_key (i : nat) :
  to_USVString (index_key i) = index_key i.
Proof.
  apply to_USVString_well_formed, ascii_well_formed, number_toString_ascii.
Qed.

Lemma packFormData_by_indices (json : object) (n : Z) :
  array_like_length json = Some n ->
  packFormData json
  = map_result (fun i => s <- toString (get json (index_key i)) ;;
                         Ok (index_key i, to_USVString s))
               (seq 0 (Z.to_nat n)).
Proof.
  intros Hlen. unfold packFormData, forEach_calls. rewrite Hlen.
  rewrite fold_result_append, map_result_map. cbn [fst snd entry_name app].
  fold index_key.
  rewrite (map_result_ext _
             (fun i => s <- toString (get json (index_key i)) ;;
                       Ok (index_key i, to_USVString s))).
  - now destruct (map_result _ (seq 0 (Z.to_nat n))).
  - intros i. fold (index_key i). now rewrite to_USVString_index_key.
Qed.

Lemma Forall2_map_fst {A B C D} (f : A -> result C) (g : A -> B)
    (h : C -> D) (l : list A) (ys : list (B * D)) :
  Forall2 (fun x y => (s <- f x ;; Ok (g x, h s)) = Ok y) l ys ->
  map fst ys = map g l.
Proof.
  induction 1 as [|x y l ys Hxy _ IH]; simpl; [reflexivity|].
  destruct (f x); simpl in Hxy; [|discriminate].
  injection Hxy as <-. simpl. now rewrite IH.
Qed.

(** X7.  A mapping whose [length] is a valid array length [n] is packed like
    an array: the carrier gets the entries [0] to [n-1] and nothing else (not
    even [length]), and an index below [n] that is unbound, or bound to [null]
    or [undefined], makes [packFormData] throw a TypeError. *)
Theorem packFormData_array_like (json : object) (n : Z) :
  array_like_length json = Some n ->
  (forall fd, packFormData json = Ok fd ->
              map fst fd = map index_key (seq 0 (Z.to_nat n)))
  /\ ((exists i, (i < Z.to_nat n)%nat
                 /\ is_nullish (get json (index_key i)) = true) ->
      packFormData json = Throw TypeError).
Proof.
  intros Hlen. rewrite (packFormData_by_indices json n Hlen). split.
  - intros fd Hfd. apply map_result_Forall2 in Hfd.
    exact (Forall2_map_fst (fun i => toString (get json (index_key i)))
             index_key to_USVString _ fd Hfd).
  - intros (i & Hi & Hnull).
    destruct (map_result_first_throw
                (fun i => s <- toString (get json (index_key i)) ;;
                          Ok (index_key i, to_USVString s))
                (seq 0 (Z.to_nat n)) i TypeError) as [e He].
    { apply in_seq. lia. }
    { now rewrite (toString_nullish _ Hnull). }
    rewrite He. f_equal. apply map_result_throw in He.
    destruct He as (j & _ & Hj).
    destruct (toString (get json (index_key j))) as [s|e'] eqn:Ej;
      [discriminate|].
    simpl in Hj. injection Hj as <-. now apply (toString_error _ _ Ej).
Qed.

(** The theorem at [{length: 1, name: "x"}], where index 0 is unbound, and
    at [{length: 1, 0: "x"}]. *)
Lemma packFormData_array_like_witness :
  packFormData [(js "length", VNumber 1); (js "name", VString (js "x"))]
  = Throw TypeError
  /\ map fst [(js "0", js "x")] = map index_key (seq 0 (Z.to_nat 1)).
Proof.
  split.
  - apply (packFormData_array_like
             [(js "length", VNumber 1); (js "name", VString (js "x"))] 1
             eq_refl).
    exists 0%nat. split; [simpl; lia | reflexivity].
  - apply (proj1 (packFormData_array_like
                    [(js "length", VNumber 1); (js "0", VString (js "x"))] 1
                    eq_refl)).
    reflexivity.
Defined.

(** X8.  A mapping that [_.forEach] iterates by its keys and whose values all
    have a string is packed into a carrier with one entry per key, in the
    order of the keys.  [FormData.append] stores name and value as
    scalar-value strings: the entry of a key holds the key and the string of
    its value with every unpaired surrogate replaced by U+FFFD.  So the
    names are the keys when the keys are well-formed, and the entries hold
    the strings of the values when these are well-formed. *)
Theorem packFormData_keeps_keys (json : object) :
  array_like_length json = None ->
  Forall (fun kv => exists s, toString (snd kv) = Ok s) json ->
  exists fd,
    packFormData json = Ok fd
    /\ Forall2 (fun kv entry =>
                  fst entry = to_USVString (fst kv)
                  /\ exists s, toString (snd kv) = Ok s
                               /\ snd entry = to_USVString s)
               json fd
    /\ (Forall (fun kv => isWellFormed (fst kv) = true) json ->
        map fst fd = Object_keys json)
    /\ (Forall (fun kv => forall s, toString (snd kv) = Ok s ->
                                    isWellFormed s = true) json ->
        Forall2 (fun kv entry => toString (snd kv) = Ok (snd entry))
                json fd).
Proof.
  intros Hlen Hall. rewrite (packFormData_by_keys json Hlen).
  clear Hlen. unfold Object_keys.
  induction Hall
    as [|[k v] json [s Hs] _ (fd & Hfd & Hentries & Hnames & Hvals)].
  - exists []. split; [reflexivity|]. split; [constructor|].
    split; [reflexivity | constructor].
  - exists ((to_USVString k, to_USVString s) :: fd). cbn [snd] in Hs.
    cbn [map_result fst snd]. rewrite Hs, Hfd. cbn [bind].
    split; [reflexivity|]. split; [|split].
    + constructor; [|exact Hentries].
      split; [reflexivity|]. exists s. split; [exact Hs | reflexivity].
    + intros Hwf. inversion Hwf as [|? ? Hk Hrest]; subst.
      cbn [map fst] in *. rewrite (Hnames Hrest).
      now rewrite (to_USVString_well_formed k Hk).
    + intros Hwf. inversion Hwf as [|? ? Hv Hrest]; subst.
      constructor; [|exact (Hvals Hrest)].
      cbn [snd] in *. rewrite Hs. f_equal. symmetry.
      apply to_USVString_well_formed. now apply Hv.
Qed.

(** The theorem at [{a: "\uD800", "\uDC00k": "v"}], whose first value and
    second key hold a surrogate on its own. *)
Lemma packFormData_keeps_keys_witness :
  packFormData [(js "a", VString [0xD800]);
                (0xDC00 :: js "k", VString (js "v"))]
  = Ok [(js "a", [0xFFFD]); (0xFFFD :: js "k", js "v")].
Proof.
  destruct (packFormData_keeps_keys
              [(js "a", VString [0xD800]);
               (0xDC00 :: js "k", VString (js "v"))])
    as (fd & Hfd & Hentries & _).
  - reflexivity.
  - repeat constructor; eexists; reflexivity.
  - rewrite Hfd. f_equal.
    inversion Hentries as [|? [n1 v1] ? fd1 [Hn1 (s1 & Hs1 & Hv1)] Hrest];
      subst.
    inversion Hrest as [|? [n2 v2] ? fd2 [Hn2 (s2 & Hs2 & Hv2)] Hnil]; subst.
    inversion Hnil; subst.
    cbn [fst snd toString] in *.
    injection Hs1 as <-. injection Hs2 as <-. subst. reflexivity.
Defined.

(** ** deepestIterate: the calls, whatever the keys and the starting path *)

Lemma fold_left_record {A} (g : A -> value * jstring) (l : list A)
    (calls : list (value * jstring)) :
  fold_left (fun s x => record_call (fst (g x)) (snd (g x)) s) l calls
  = calls ++ map g l.
Proof.
  revert calls. induction l as [|x l IH]; intros calls; simpl.
  - now rewrite app_nil_r.
  - rewrite IH. unfold record_call. rewrite <- app_assoc. simpl.
    now destruct (g x).
Qed.






(** ** uuid: how much of the random source it keeps *)

Lemma uuid_explicit (rnd : random_source) :
  uuid rnd
  = [hex_digit (randomInt (rnd 0%nat));
     hex_digit (randomInt (rnd 1%nat));
     hex_digit (randomInt (rnd 2%nat));
     hex_digit (randomInt (rnd 3%nat));
     hex_digit (randomInt (rnd 4%nat));
     hex_digit (randomInt (rnd 5%nat));
     hex_digit (randomInt (rnd 6%nat));
     hex_digit (randomInt (rnd 7%nat));
     45;
     hex_digit (randomInt (rnd 8%nat));
     hex_digit (randomInt (rnd 9%nat));
     hex_digit (randomInt (rnd 10%nat));
     hex_digit (randomInt (rnd 11%nat));
     45;
     52;
     hex_digit (randomInt (rnd 12%nat));
     hex_digit (randomInt (rnd 13%nat));
     hex_digit (randomInt (rnd 14%nat));
     45;
     hex_digit (Z.lor (Z.land 3 (randomInt (rnd 15%nat))) 8);
     hex_digit (randomInt (rnd 16%nat));
     hex_digit (randomInt (rnd 17%nat));
     hex_digit (randomInt (rnd 18%nat));
     45;
     hex_digit (randomInt (rnd 19%nat));
     hex_digit (randomInt (rnd 20%nat));
     hex_digit (randomInt (rnd 21%nat));
     hex_digit (randomInt (rnd 22%nat));
     hex_digit (randomInt (rnd 23%nat));
     hex_digit (randomInt (rnd 24%nat));
     hex_digit (randomInt (rnd 25%nat));
     hex_digit (randomInt (rnd 26%nat));
     hex_digit (randomInt (rnd 27%nat));
     hex_digit (randomInt (rnd 28%nat));
     hex_digit (randomInt (rnd 29%nat));
     hex_digit (randomInt (rnd 30%nat))].
Proof. reflexivity. Qed.

Lemma hex_digit_injective (a b : Z) :
  0 <= a < 16 -> 0 <= b < 16 -> hex_digit a = hex_digit b -> a = b.
Proof.
  unfold hex_digit. intros Ha Hb.
  destruct (a <? 10) eqn:Ea, (b <? 10) eqn:Eb;
    try apply Z.ltb_lt in Ea; try apply Z.ltb_lt in Eb;
    try apply Z.ltb_ge in Ea; try apply Z.ltb_ge in Eb; lia.
Qed.

Lemma land_3_range (r : Z) : 0 <= Z.land 3 r < 4.
Proof.
  rewrite Z.land_comm. change 3 with (Z.ones 2).
  rewrite Z.land_ones by lia. apply Z.mod_pos_bound. reflexivity.
Qed.

Lemma variant_injective (r r' : Z) :
  0 <= r < 16 -> 0 <= r' < 16 ->
  hex_digit (Z.lor (Z.land 3 r) 8) = hex_digit (Z.lor (Z.land 3 r') 8) ->
  Z.land 3 r = Z.land 3 r'.
Proof.
  intros Hr Hr' H.
  apply hex_digit_injective in H;
    try (destruct (variant_nibble _ Hr); destruct (variant_nibble _ Hr'); lia).
  pose proof (land_3_range r) as Hx. pose proof (land_3_range r') as Hx'.
  assert (forall x, 0 <= x < 4 -> Z.lor x 8 = x + 8) as Hlor.
  { intros x Hx0.
    assert (x = 0 \/ x = 1 \/ x = 2 \/ x = 3) as [-> | [-> | [-> | ->]]]
      by lia; reflexivity. }
  rewrite !Hlor in H by assumption. lia.
Qed.

(** X12.  Two runs of [uuid] return the same string exactly when the random
    integers [(16 * Math.random()) | 0] drawn for the thirty [x] agree one by
    one and those drawn for the [y] agree in their two low bits: the string
    keeps 122 bits of the 31 draws, and reads no other draw. *)
Theorem uuid_keeps_122_bits (rnd rnd' : random_source) :
  (forall i, in_unit_interval (rnd i)) ->
  (forall i, in_unit_interval (rnd' i)) ->
  (uuid rnd = uuid rnd'
   <-> (forall i, (i < 31)%nat -> i <> 15%nat ->
                  randomInt (rnd i) = randomInt (rnd' i))
       /\ Z.land 3 (randomInt (rnd 15%nat))
          = Z.land 3 (randomInt (rnd' 15%nat))).
Proof.
  intros Hrnd Hrnd'. rewrite !uuid_explicit. split.
  - intros Heq. injection Heq. intros. split.
    + intros i Hi Hne.
      do 31 (destruct i as [|i];
             [first
                [ exfalso; apply Hne; reflexivity
                | apply hex_digit_injective;
                  [apply randomInt_range, Hrnd | apply randomInt_range, Hrnd'
                  | assumption] ]|]).
      lia.
    + apply variant_injective;
        [apply randomInt_range, Hrnd | apply randomInt_range, Hrnd'
        | assumption].
  - intros [Hx Hy].
    pose proof (Hx 0%nat ltac:(lia) ltac:(lia)) as E0.
    pose proof (Hx 1%nat ltac:(lia) ltac:(lia)) as E1.
    pose proof (Hx 2%nat ltac:(lia) ltac:(lia)) as E2.
    pose proof (Hx 3%nat ltac:(lia) ltac:(lia)) as E3.
    pose proof (Hx 4%nat ltac:(lia) ltac:(lia)) as E4.
    pose proof (Hx 5%nat ltac:(lia) ltac:(lia)) as E5.
    pose proof (Hx 6%nat ltac:(lia) ltac:(lia)) as E6.
    pose proof (Hx 7%nat ltac:(lia) ltac:(lia)) as E7.
    pose proof (Hx 8%nat ltac:(lia) ltac:(lia)) as E8.
    pose proof (Hx 9%nat ltac:(lia) ltac:(lia)) as E9.
    pose proof (Hx 10%nat ltac:(lia) ltac:(lia)) as E10.
    pose proof (Hx 11%nat ltac:(lia) ltac:(lia)) as E11.
    pose proof (Hx 12%nat ltac:(lia) ltac:(lia)) as E12.
    pose proof (Hx 13%nat ltac:(lia) ltac:(lia)) as E13.
    pose proof (Hx 14%nat ltac:(lia) ltac:(lia)) as E14.
    pose proof (Hx 16%nat ltac:(lia) ltac:(lia)) as E16.
    pose proof (Hx 17%nat ltac:(lia) ltac:(lia)) as E17.
    pose proof (Hx 18%nat ltac:(lia) ltac:(lia)) as E18.
    pose proof (Hx 19%nat ltac:(lia) ltac:(lia)) as E19.
    pose proof (Hx 20%nat ltac:(lia) ltac:(lia)) as E20.
    pose proof (Hx 21%nat ltac:(lia) ltac:(lia)) as E21.
    pose proof (Hx 22%nat ltac:(lia) ltac:(lia)) as E22.
    pose proof (Hx 23%nat ltac:(lia) ltac:(lia)) as E23.
    pose proof (Hx 24%nat ltac:(lia) ltac:(lia)) as E24.
    pose proof (Hx 25%nat ltac:(lia) ltac:(lia)) as E25.
    pose proof (Hx 26%nat ltac:(lia) ltac:(lia)) as E26.
    pose proof (Hx 27%nat ltac:(lia) ltac:(lia)) as E27.
    pose proof (Hx 28%nat ltac:(lia) ltac:(lia)) as E28.
    pose proof (Hx 29%nat ltac:(lia) ltac:(lia)) as E29.
    pose proof (Hx 30%nat ltac:(lia) ltac:(lia)) as E30.
    congruence.
Qed.

Lemma uuid_keeps_122_bits_witness :
  uuid (fun i => if Nat.eqb i 15 then 0 # 16 else 5 # 16)
  = uuid (fun i => if Nat.eqb i 15 then 4 # 16
                   else if Nat.ltb i 31 then 11 # 32 else 0 # 1).
Proof.
  apply (uuid_keeps_122_bits
           (fun i => if Nat.eqb i 15 then 0 # 16 else 5 # 16)
           (fun i => if Nat.eqb i 15 then 4 # 16
                     else if Nat.ltb i 31 then 11 # 32 else 0 # 1)).
  - intros i. destruct (Nat.eqb i 15); split; (discriminate || reflexivity).
  - intros i. destruct (Nat.eqb i 15); [split; (discriminate || reflexivity)|].
    destruct (Nat.ltb i 31); split; (discriminate || reflexivity).
  - split.
    + intros i Hi Hne.
      assert (Nat.eqb i 15 = false) as -> by now apply Nat.eqb_neq.
      assert (Nat.ltb i 31 = true) as -> by now apply Nat.ltb_lt.
      reflexivity.
    + reflexivity.
Defined.

(** ** waitForMoment: what a call adds to the host *)

Lemma promises_resolve_fresh (h : host) :
  promises (resolve (length (promises h)) (fst (new_promise h)))
  = promises h ++ [Fulfilled].
Proof.
  exact (update_last (promises h) Pending
           (fun old => match old with Pending => Fulfilled | _ => old end)).
Qed.

Lemma promises_reject_fresh (h : host) (reason : value) :
  promises (reject (length (promises h)) reason (fst (new_promise h)))
  = promises h ++ [Rejected reason].
Proof.
  exact (update_last (promises h) Pending
           (fun old => match old with
                       | Pending => Rejected reason
                       | _ => old
                       end)).
Qed.

Lemma call_frame_resolved (h : host) :
  call_frame h (resolve (length (promises h)) (fst (new_promise h)))
             (length (promises h)).
Proof.
  split; [reflexivity|]. split; [reflexivity|].
  exists Fulfilled, [], [].
  split; [apply promises_resolve_fresh|].
  split; [symmetry; apply app_nil_r|].
  split; [symmetry; apply app_nil_r|].
  split; [constructor|]. split; [constructor | reflexivity].
Qed.

Lemma call_frame_element (e : element) (h : host) :
  call_frame h (fst (wait_for_element e h)) (snd (wait_for_element e h)).
Proof.
  rewrite wait_for_element_unfold. cbv zeta.
  destruct (present (doc h) e) eqn:Hpresent; cbn [fst snd].
  - apply call_frame_resolved.
  - split; [reflexivity|]. split; [reflexivity|].
    exists Pending, [mkObserver e (length (promises h)) true], [].
    split; [reflexivity|].
    split.
    { exact (update_last (observers h)
               (mkObserver e (length (promises h)) false)
               (fun r => mkObserver (awaited r) (obs_promise r) true)). }
    split; [symmetry; apply app_nil_r|].
    split; [repeat constructor; exact Hpresent|].
    split; [constructor | reflexivity].
Qed.

Lemma call_frame_listener (t : event_target) (ty : event_type) (h : host) :
  call_frame h
    (addEventListener t ty (length (promises h)) (fst (new_promise h)))
    (length (promises h)).
Proof.
  split; [reflexivity|]. split; [reflexivity|].
  exists Pending, [], [mkListener t ty (length (promises h))].
  split; [reflexivity|].
  split; [symmetry; apply app_nil_r|].
  split; [reflexivity|].
  split; [constructor|]. split; [repeat constructor | reflexivity].
Qed.

Lemma waitForMoment_call_frame (moment : value) (h : host) :
  call_frame h (fst (waitForMoment moment h)) (snd (waitForMoment moment h)).
Proof.
  destruct (is_legal_moment moment) eqn:Hlegal.
  - destruct (legal_moment_cases moment Hlegal)
      as [-> | [-> | [-> | [-> | ->]]]].
    + rewrite waitForMoment_document_start. apply call_frame_resolved.
    + rewrite waitForMoment_document_head. apply call_frame_element.
    + rewrite waitForMoment_document_body. apply call_frame_element.
    + rewrite waitForMoment_document_end. cbv zeta.
      destruct (negb (is_loading (readyState (doc h)))); cbn [fst snd].
      * apply call_frame_resolved.
      * apply call_frame_listener.
    + rewrite waitForMoment_window_load. cbv zeta.
      destruct (is_complete (readyState (doc h))); cbn [fst snd].
      * apply call_frame_resolved.
      * apply call_frame_listener.
  - rewrite (waitForMoment_illegal moment h Hlegal). cbn [fst snd].
    split; [reflexivity|]. split; [reflexivity|].
    exists (Rejected (VString (js "Illegal moment"))), [], [].
    split; [apply promises_reject_fresh|].
    split; [symmetry; apply app_nil_r|].
    split; [symmetry; apply app_nil_r|].
    split; [constructor|]. split; [constructor | reflexivity].
Qed.

Lemma call_keeps_status (h h' : host) (p q : promise) :
  call_frame h h' p -> (q < length (promises h))%nat ->
  promise_status h' q = promise_status h q.
Proof.
  intros (_ & _ & st & obs & lst & Hpromises & _) Hq.
  unfold promise_status. rewrite Hpromises. now apply app_nth1.
Qed.

Lemma call_grows_promises (h h' : host) (p : promise) :
  call_frame h h' p -> length (promises h') = Datatypes.S (length (promises h)).
Proof.
  intros (_ & _ & st & obs & lst & Hpromises & _).
  rewrite Hpromises, length_app. simpl. lia.
Qed.

Lemma call_keeps_well_formed (h h' : host) (p : promise) :
  call_frame h h' p -> well_formed h -> well_formed h'.
Proof.
  intros Hframe [Hls Hobs]. pose proof (call_grows_promises _ _ _ Hframe) as Hlen.
  destruct Hframe as (Hp & _ & st & obs & lst & _ & Hobs' & Hls' & Hnew & Hl & _).
  unfold well_formed. rewrite Hobs', Hls', Hlen. split.
  - apply Forall_app. split.
    + eapply Forall_impl; [|exact Hls]. cbn. intros; lia.
    + eapply Forall_impl; [|exact Hl]. cbn. intros l ->. lia.
  - apply Forall_app. split.
    + eapply Forall_impl; [|exact Hobs]. cbn. intros; lia.
    + eapply Forall_impl; [|exact Hnew]. cbn. intros r (-> & _). lia.
Qed.

(** X13.  A call of [waitForMoment], whatever the moment, leaves the document
    and the promises, observers and listeners of earlier calls as they are. It
    adds one promise, and one subscription serving that promise exactly when
    the promise is still pending on return; and it keeps a well-formed host
    well-formed. *)
Theorem waitForMoment_leaves_earlier_waiters (moment : value) (h : host) :
  let h' := fst (waitForMoment moment h) in
  let p := snd (waitForMoment moment h) in
  p = length (promises h)
  /\ doc h' = doc h
  /\ (forall q, (q < length (promises h))%nat ->
                promise_status h' q = promise_status h q)
  /\ (exists obs lst,
        observers h' = observers h ++ obs
        /\ listeners h' = listeners h ++ lst
        /\ Forall (fun r => obs_promise r = p) obs
        /\ Forall (fun l => lst_promise l = p) lst
        /\ (length obs + length lst)%nat
           = match promise_status h' p with
             | Pending => 1%nat
             | _ => 0%nat
             end)
  /\ (well_formed h -> well_formed h').
Proof.
  cbv zeta. pose proof (waitForMoment_call_frame moment h) as Hframe.
  split; [apply Hframe|]. split; [apply Hframe|]. split; [|split].
  - intros q Hq. exact (call_keeps_status _ _ _ q Hframe Hq).
  - destruct Hframe
      as (Hp & _ & st & obs & lst & Hpr & Hobs & Hls & Hnew & Hl & Hcount).
    exists obs, lst.
    split; [exact Hobs|]. split; [exact Hls|]. split.
    + eapply Forall_impl; [|exact Hnew]. cbn. tauto.
    + split; [exact Hl|].
      unfold promise_status. rewrite Hpr, Hp, app_nth2, Nat.sub_diag by lia.
      exact Hcount.
  - exact (call_keeps_well_formed _ _ _ Hframe).
Qed.

Lemma waitForMoment_leaves_earlier_waiters_witness :
  well_formed loading_page
  /\ well_formed (fst (waitForMoment (VString (js "document-end"))
                                     loading_page)).
Proof.
  split; [exact well_formed_loading_page|].
  apply (waitForMoment_leaves_earlier_waiters (VString (js "document-end"))
           loading_page).
  exact well_formed_loading_page.
Defined.

Lemma act_promises (h : host) (a : activity) :
  (length (promises h) <= length (promises (act h a)))%nat.
Proof.
  destruct a as [ev | moment]; cbn [act].
  - rewrite (ev_promises _ _ (evolves_step h ev)). lia.
  - rewrite (call_grows_promises _ _ _ (waitForMoment_call_frame moment h)). lia.
Qed.

(** A promise that is settled stays as it is, through page events and
    further calls. *)
Lemma settled_perform (p : promise) (acts : list activity) (h : host) :
  (p < length (promises h))%nat ->
  promise_status h p <> Pending ->
  promise_status (perform h acts) p = promise_status h p.
Proof.
  revert h. induction acts as [|a acts IH]; intros h Hp Hst; [reflexivity|].
  change (perform h (a :: acts)) with (perform (act h a) acts).
  assert (promise_status (act h a) p = promise_status h p) as Hact.
  { destruct a as [ev | moment]; cbn [act].
    - now apply (ev_settled _ _ (evolves_step h ev)).
    - now apply (call_keeps_status _ _ _ _ (waitForMoment_call_frame moment h)). }
  rewrite IH.
  - exact Hact.
  - pose proof (act_promises h a). lia.
  - now rewrite Hact.
Qed.

Lemma page_events_cons (a : activity) (acts : list activity) :
  page_events (a :: acts)
  = match a with
    | PageEvent ev => ev :: page_events acts
    | Call _ => page_events acts
    end.
Proof. now destruct a. Qed.

(** *** A listener among further calls *)

Lemma call_keeps_served_listener (p q : promise) (t : event_target)
    (ty : event_type) (h h' : host) :
  call_frame h h' q -> served_by_listener p t ty h ->
  served_by_listener p t ty h'.
Proof.
  intros Hframe (Hp & Hin & Honly & Hobs).
  pose proof (call_grows_promises _ _ _ Hframe) as Hlen.
  destruct Hframe as (Hq & _ & st & obs & lst & _ & Hobs' & Hls' & Hnew & Hl & _).
  unfold served_by_listener. rewrite Hobs', Hls', Hlen.
  split; [lia|]. split; [apply in_or_app; now left|]. split.
  - intros l Hl' Hpl. apply in_app_or in Hl'. destruct Hl' as [Hl' | Hl'].
    + now apply Honly.
    + rewrite Forall_forall in Hl. specialize (Hl l Hl'). lia.
  - rewrite map_app. apply Forall_app. split; [exact Hobs|].
    rewrite Forall_map. eapply Forall_impl; [|exact Hnew].
    cbn. intros r (Hr & _). lia.
Qed.

Lemma perform_status_served (p : promise) (t : event_target)
    (ty : event_type) (acts : list activity) (h : host) :
  served_by_listener p t ty h ->
  promise_status (perform h acts) p
  = if existsb (is_dispatch t ty) (page_events acts)
    then resolved (promise_status h p) else promise_status h p.
Proof.
  revert h. induction acts as [|a acts IH]; intros h Hserved; [reflexivity|].
  change (perform h (a :: acts)) with (perform (act h a) acts).
  rewrite page_events_cons. destruct a as [ev | moment]; cbn [act].
  - rewrite IH
      by (eapply served_evolves; [apply evolves_step | exact Hserved]).
    rewrite (step_status_served p t ty h ev Hserved). cbn [existsb].
    destruct (is_dispatch t ty ev), (existsb _ (page_events acts));
      cbn [orb]; try reflexivity.
    apply resolved_idempotent.
  - rewrite IH
      by (eapply call_keeps_served_listener;
          [apply waitForMoment_call_frame | exact Hserved]).
    rewrite (call_keeps_status _ _ _ p (waitForMoment_call_frame moment h))
      by apply Hserved.
    reflexivity.
Qed.

(** *** An observer and its promise, among further calls *)

Section ObserverPromise.

Variable o : nat.
Variable e : element.
Variable p : nat.

Lemma served_observer_callback (att : bool) (h : host) (i : nat) :
  served_by_observer p o e att h ->
  let fire := att && present (doc h) e && Nat.eqb o i in
  served_by_observer p o e (att && negb fire) (observer_callback h i)
  /\ doc (observer_callback h i) = doc h
  /\ promise_status (observer_callback h i) p
     = if fire then resolved (promise_status h p) else promise_status h p.
Proof.
  intros (Hp & Hobs & Huniq & Hls). cbv zeta.
  destruct (Nat.eq_dec i o) as [-> | Hne].
  - rewrite Nat.eqb_refl, andb_true_r.
    destruct (callback_self o e p att h Hobs) as (Hobs1 & _ & Hdoc1 & _).
    split; [|split; [exact Hdoc1|]].
    + split; [|split; [exact Hobs1|split]].
      * now rewrite (ev_promises _ _ (evolves_observer_callback h o)).
      * intros i r Hi Hr. destruct (Nat.eq_dec i o) as [-> | Hio]; auto.
        apply (Huniq i r); [|exact Hr].
        unfold observer_callback in Hi. rewrite Hobs in Hi.
        cbn [attached awaited obs_promise] in Hi.
        destruct (att && present (doc h) e); [|exact Hi].
        cbn in Hi. now rewrite nth_error_update_other in Hi by congruence.
      * now rewrite (ev_listeners _ _ (evolves_observer_callback h o)).
    + unfold observer_callback. rewrite Hobs.
      cbn [attached awaited obs_promise].
      destruct (att && present (doc h) e); [|reflexivity].
      now rewrite status_resolve_same.
  - assert (Nat.eqb o i = false) as -> by (apply Nat.eqb_neq; congruence).
    rewrite andb_false_r, andb_true_r.
    destruct (callback_other o e p att h i Hne Hobs) as (Hobs1 & _ & Hdoc1).
    split; [|split; [exact Hdoc1|]].
    + split; [|split; [exact Hobs1|split]].
      * now rewrite (ev_promises _ _ (evolves_observer_callback h i)).
      * intros j r Hj Hr. unfold observer_callback in Hj.
        destruct (nth_error (observers h) i) as [ri|] eqn:Ei;
          [|now apply (Huniq j r)].
        destruct (attached ri && present (doc h) (awaited ri));
          [|now apply (Huniq j r)].
        cbn in Hj. destruct (Nat.eq_dec i j) as [<- | Hij].
        -- rewrite nth_error_update_same, Ei in Hj. cbn in Hj.
           injection Hj as <-. cbn in Hr. exfalso. apply Hne.
           now apply (Huniq i ri).
        -- rewrite nth_error_update_other in Hj by exact Hij.
           now apply (Huniq j r).
      * now rewrite (ev_listeners _ _ (evolves_observer_callback h i)).
    + unfold observer_callback.
      destruct (nth_error (observers h) i) as [ri|] eqn:Ei; [|reflexivity].
      destruct (attached ri && present (doc h) (awaited ri)); [|reflexivity].
      rewrite status_resolve_other; [reflexivity|].
      intros Hri. apply Hne. now apply (Huniq i ri).
Qed.

Lemma served_notify (idx : list nat) (att : bool) (h : host) :
  served_by_observer p o e att h ->
  let fire := att && present (doc h) e && existsb (Nat.eqb o) idx in
  served_by_observer p o e (att && negb fire)
                     (fold_left observer_callback idx h)
  /\ promise_status (fold_left observer_callback idx h) p
     = if fire then resolved (promise_status h p) else promise_status h p.
Proof.
  revert att h. induction idx as [|i idx IH]; intros att h Hserved; cbv zeta.
  - cbn [existsb fold_left]. rewrite andb_false_r, andb_true_r. auto.
  - cbn [existsb fold_left].
    pose proof (served_observer_callback att h i Hserved) as H1.
    cbv zeta in H1. destruct H1 as (Hserved1 & Hdoc1 & Hst1).
    pose proof (IH _ _ Hserved1) as H2. cbv zeta in H2.
    rewrite Hdoc1, Hst1 in H2.
    destruct att, (present (doc h) e), (Nat.eqb o i),
      (existsb (Nat.eqb o) idx); cbn [andb negb orb] in *;
      destruct H2 as [Hserved2 Hst2]; split;
      try exact Hserved2; try exact Hst2.
Qed.

Lemma served_observer_step (att : bool) (h : host) (ev : page_event) :
  served_by_observer p o e att h ->
  let fire := att && brings e ev in
  served_by_observer p o e (att && negb fire) (step h ev)
  /\ promise_status (step h ev) p
     = if fire then resolved (promise_status h p) else promise_status h p.
Proof.
  intros Hserved. cbv zeta.
  destruct ev as [hd bd | rs | t ty]; cbn [step brings].
  - unfold notify_observers.
    set (h1 := set_doc (mkDocument (readyState (doc h)) hd bd) h).
    assert (served_by_observer p o e att h1) as Hserved1 by exact Hserved.
    pose proof (served_notify (seq 0 (length (observers h1))) att h1 Hserved1)
      as H.
    cbv zeta in H. rewrite existsb_seq, andb_true_r in H.
    + replace (present (doc h1) e)
        with (match e with Head => hd | Body => bd end) in H
        by (now destruct e).
      exact H.
    + destruct Hserved1 as (_ & Hobs & _). apply nth_error_Some. congruence.
  - rewrite andb_false_r, andb_true_r. split; [exact Hserved | reflexivity].
  - rewrite andb_false_r, andb_true_r.
    destruct Hserved as (Hp & Hobs & Huniq & Hls).
    destruct (dispatch_keeps_observers o t ty (listeners h) h) as [Hsame _].
    pose proof (evolves_fold _ (listeners h) h
                  (evolves_listener_callback t ty)) as Hev.
    split.
    + unfold served_by_observer.
      rewrite Hsame, (ev_promises _ _ Hev), (ev_listeners _ _ Hev). auto.
    + apply dispatch_other. intros l Hl _.
      rewrite Forall_forall in Hls. now apply Hls.
Qed.

Lemma call_keeps_served_observer (att : bool) (q : promise) (h h' : host) :
  call_frame h h' q -> served_by_observer p o e att h ->
  served_by_observer p o e att h'.
Proof.
  intros Hframe (Hp & Hobs & Huniq & Hls).
  pose proof (call_grows_promises _ _ _ Hframe) as Hlen.
  destruct Hframe as (Hq & _ & st & obs & lst & _ & Hobs' & Hls' & Hnew & Hl & _).
  assert (o < length (observers h))%nat as Ho
    by (apply nth_error_Some; congruence).
  unfold served_by_observer. rewrite Hobs', Hls', Hlen.
  split; [lia|]. split; [now rewrite nth_error_app1|]. split.
  - intros i r Hi Hr.
    destruct (Nat.lt_ge_cases i (length (observers h))) as [Hlt | Hge].
    + rewrite nth_error_app1 in Hi by exact Hlt. now apply (Huniq i r).
    + rewrite nth_error_app2 in Hi by exact Hge.
      apply nth_error_In in Hi. rewrite Forall_forall in Hnew.
      destruct (Hnew r Hi) as (Hrq & _). lia.
  - apply Forall_app. split; [exact Hls|].
    eapply Forall_impl; [|exact Hl]. cbn. intros l Hlq. lia.
Qed.

Lemma perform_status_observer (acts : list activity) (att : bool) (h : host) :
  served_by_observer p o e att h ->
  promise_status (perform h acts) p
  = if att && existsb (brings e) (page_events acts)
    then resolved (promise_status h p) else promise_status h p.
Proof.
  revert att h. induction acts as [|a acts IH]; intros att h Hserved.
  - cbn. now rewrite andb_false_r.
  - change (perform h (a :: acts)) with (perform (act h a) acts).
    rewrite page_events_cons. destruct a as [ev | moment]; cbn [act].
    + pose proof (served_observer_step att h ev Hserved) as H.
      cbv zeta in H. destruct H as [Hserved1 Hst1].
      rewrite (IH _ _ Hserved1), Hst1. cbn [existsb].
      destruct att, (brings e ev), (existsb _ (page_events acts));
        cbn [andb negb orb]; reflexivity.
    + rewrite (IH att)
        by (eapply call_keeps_served_observer;
            [apply waitForMoment_call_frame | exact Hserved]).
      rewrite (call_keeps_status _ _ _ p (waitForMoment_call_frame moment h))
        by apply Hserved.
      reflexivity.
Qed.

End ObserverPromise.

(** ** waitForMoment: the promise, whatever else happens on the page *)

Lemma served_after_observe (e : element) (h : host) :
  well_formed h ->
  served_by_observer (length (promises h)) (length (observers h)) e true
    (observe (length (observers h))
       (fst (new_observer e (length (promises h)) (fst (new_promise h))))).
Proof.
  intros [Hls Hobs].
  set (p := length (promises h)). set (o := length (observers h)).
  set (h' := observe o (fst (new_observer e p (fst (new_promise h))))).
  assert (observers h' = observers h ++ [mkObserver e p true]) as Hobs'
    by (exact (update_last (observers h) (mkObserver e p false)
                 (fun r => mkObserver (awaited r) (obs_promise r) true))).
  unfold served_by_observer. rewrite Hobs'.
  split; [cbn; rewrite length_app; simpl; unfold p; lia|].
  split; [apply nth_error_last|]. split.
  - intros i r Hi Hr.
    destruct (Nat.lt_ge_cases i (length (observers h))) as [Hlt | Hge].
    + rewrite nth_error_app1 in Hi by exact Hlt. apply nth_error_In in Hi.
      rewrite Forall_forall in Hobs. specialize (Hobs r Hi).
      unfold p in Hr. lia.
    + assert (i < length (observers h ++ [mkObserver e p true]))%nat as Hi'
        by (apply nth_error_Some; congruence).
      rewrite length_app in Hi'. simpl in Hi'. unfold o. lia.
  - change (listeners h') with (listeners h).
    eapply Forall_impl; [|exact Hls]. cbn. unfold p. intros; lia.
Qed.

Lemma perform_fresh_resolved (h : host) (acts : list activity) :
  promise_status
    (perform (resolve (length (promises h)) (fst (new_promise h))) acts)
    (length (promises h)) = Fulfilled.
Proof.
  rewrite settled_perform; rewrite ?status_fresh_resolved;
    [reflexivity | | discriminate].
  rewrite promises_resolve_fresh, length_app. simpl. lia.
Qed.

Lemma perform_element (e : element) (h : host) (acts : list activity) :
  well_formed h ->
  promise_status (perform (fst (wait_for_element e h)) acts)
                 (snd (wait_for_element e h))
  = if present (doc h) e || existsb (brings e) (page_events acts)
    then Fulfilled else Pending.
Proof.
  intros Hwf. rewrite wait_for_element_unfold. cbv zeta.
  destruct (present (doc h) e); cbn [fst snd orb].
  - apply perform_fresh_resolved.
  - rewrite (perform_status_observer _ e _ acts true _
               (served_after_observe e h Hwf)).
    cbn [andb].
    change (promise_status (observe _ (fst (new_observer e _ _))) ?q)
      with (promise_status (fst (new_promise h)) q).
    now rewrite status_fresh_pending.
Qed.

Lemma perform_listener (t : event_target) (ty : event_type) (h : host)
    (acts : list activity) :
  well_formed h ->
  promise_status
    (perform (addEventListener t ty (length (promises h))
                (fst (new_promise h))) acts)
    (length (promises h))
  = if existsb (is_dispatch t ty) (page_events acts)
    then Fulfilled else Pending.
Proof.
  intros Hwf.
  rewrite (perform_status_served _ t ty acts _
             (served_after_addEventListener t ty h Hwf)).
  change (promise_status (addEventListener _ _ _ (fst (new_promise h))) ?q)
    with (promise_status (fst (new_promise h)) q).
  now rewrite status_fresh_pending.
Qed.

Lemma outcome_illegal (moment : value) (d : document)
    (evs : list page_event) :
  is_legal_moment moment = false ->
  outcome moment d evs = Rejected (VString (js "Illegal moment")).
Proof.
  unfold is_legal_moment, legal_moments. cbn [existsb]. intros H.
  repeat (apply orb_false_iff in H; destruct H as [? H]).
  unfold outcome.
  repeat match goal with E : strict_equal _ _ = false |- _ =>
                           rewrite E; clear E end.
  reflexivity.
Qed.

Lemma outcome_after_activities (moment : value) (h : host)
    (acts : list activity) :
  well_formed h ->
  promise_status (perform (fst (waitForMoment moment h)) acts)
                 (snd (waitForMoment moment h))
  = outcome moment (doc h) (page_events acts).
Proof.
  intros Hwf. destruct (is_legal_moment moment) eqn:Hlegal.
  - destruct (legal_moment_cases moment Hlegal)
      as [-> | [-> | [-> | [-> | ->]]]].
    + rewrite waitForMoment_document_start. cbn [fst snd].
      apply perform_fresh_resolved.
    + rewrite waitForMoment_document_head.
      apply (perform_element Head h acts Hwf).
    + rewrite waitForMoment_document_body.
      apply (perform_element Body h acts Hwf).
    + rewrite waitForMoment_document_end. cbv zeta.
      change (outcome (VString (js "document-end")) (doc h) (page_events acts))
        with (if negb (is_loading (readyState (doc h)))
                 || existsb (is_dispatch TheDocument DOMContentLoaded)
                            (page_events acts)
              then Fulfilled else Pending).
      destruct (negb (is_loading (readyState (doc h)))); cbn [fst snd orb].
      * apply perform_fresh_resolved.
      * now apply perform_listener.
    + rewrite waitForMoment_window_load. cbv zeta.
      change (outcome (VString (js "window-load")) (doc h) (page_events acts))
        with (if is_complete (readyState (doc h))
                 || existsb (is_dispatch TheWindow LoadEvent)
                            (page_events acts)
              then Fulfilled else Pending).
      destruct (is_complete (readyState (doc h))); cbn [fst snd orb].
      * apply perform_fresh_resolved.
      * now apply perform_listener.
  - rewrite (outcome_illegal moment _ _ Hlegal).
    rewrite (waitForMoment_illegal moment h Hlegal). cbn [fst snd].
    rewrite settled_perform; rewrite ?status_fresh_rejected;
      [reflexivity | | discriminate].
    rewrite promises_reject_fresh, length_app. simpl. lia.
Qed.

(** X14.  In a well-formed host, the state of the promise that
    [waitForMoment(moment)] returned depends on the moment, on the document at
    the time of the call and on the page events since, and on nothing else:
    not on the waiters registered before, nor on the calls made since. It is
    rejected for an illegal moment; fulfilled for [document-start]; for the
    other moments fulfilled if the condition held at the call or its event has
    come since, and pending otherwise. *)
Theorem waitForMoment_outcome (moment : value) (h : host)
    (acts : list activity) :
  well_formed h ->
  promise_status (perform (fst (waitForMoment moment h)) acts)
                 (snd (waitForMoment moment h))
  = outcome moment (doc h) (page_events acts).
Proof. apply outcome_after_activities. Qed.

(** The theorem on a page that is loading, with another waiter created in
    between. *)
Lemma waitForMoment_outcome_witness :
  well_formed loading_page
  /\ promise_status
       (perform (fst (waitForMoment (VString (js "document-body"))
                                    loading_page))
                [PageEvent (Mutation true false);
                 Call (VString (js "document-body"));
                 PageEvent (Mutation true true)])
       (snd (waitForMoment (VString (js "document-body")) loading_page))
     = Fulfilled.
Proof.
  split; [exact well_formed_loading_page|].
  exact (waitForMoment_outcome (VString (js "document-body")) loading_page
           [PageEvent (Mutation true false);
            Call (VString (js "document-body"));
            PageEvent (Mutation true true)]
           well_formed_loading_page).
Defined.



(** ** waitForMoment: no observer outlives its purpose *)

Lemma notify_length (h : host) :
  length (observers (notify_observers h)) = length (observers h).
Proof.
  unfold notify_observers.
  match goal with
  | |- context [fold_left ?f ?l ?g] =>
      pose proof (ev_observers _ _ (evolves_fold f l g
                                      evolves_observer_callback)) as H
  end.
  apply (f_equal (@length _)) in H. rewrite !length_map in H. exact H.
Qed.

Lemma notify_leaves_tidy (h : host) : tidy (notify_observers h).
Proof.
  intros o r' Hnth Hatt.
  assert (o < length (observers h))%nat as Ho
    by (rewrite <- notify_length; apply nth_error_Some; congruence).
  destruct (nth_error (observers h) o) as [[e p att]|] eqn:E;
    [|apply nth_error_None in E;
      exact (False_ind _ (Nat.lt_irrefl _ (Nat.lt_le_trans _ _ _ Ho E)))].
  pose proof (notify_one_observer o e p (seq 0 (length (observers h)))
                att h E) as H.
  cbv zeta in H. destruct H as (Hobs & _ & Hdoc & _).
  rewrite (existsb_seq o _ Ho), andb_true_r in Hobs.
  unfold notify_observers in Hnth. rewrite Hnth in Hobs.
  injection Hobs as ->.
  cbn [attached awaited] in *. unfold notify_observers. rewrite Hdoc.
  destruct att, (present (doc h) e); cbn in Hatt; congruence.
Qed.

Lemma dispatch_keeps_doc (t : event_target) (ty : event_type)
    (ls : list listener) (h : host) :
  doc (fold_left (listener_callback t ty) ls h) = doc h.
Proof.
  revert h. induction ls as [|l ls IH]; intros h; cbn [fold_left].
  - reflexivity.
  - rewrite IH. unfold listener_callback.
    now destruct (event_target_eqb _ _ && event_type_eqb _ _).
Qed.

Lemma step_keeps_tidy (h : host) (ev : page_event) :
  tidy h -> tidy (step h ev).
Proof.
  intros Htidy. destruct ev as [hd bd | rs | t ty]; cbn [step].
  - apply notify_leaves_tidy.
  - intros o r Hnth Hatt. specialize (Htidy o r Hnth Hatt).
    destruct (awaited r); exact Htidy.
  - intros o r Hnth Hatt.
    destruct (dispatch_keeps_observers o t ty (listeners h) h) as [Hsame _].
    rewrite Hsame in Hnth. rewrite dispatch_keeps_doc.
    exact (Htidy o r Hnth Hatt).
Qed.

Lemma call_keeps_tidy (h h' : host) (p : promise) :
  call_frame h h' p -> tidy h -> tidy h'.
Proof.
  intros (_ & Hdoc & st & obs & lst & _ & Hobs & _ & Hnew & _) Htidy.
  intros o r Hnth Hatt. rewrite Hdoc. rewrite Hobs in Hnth.
  destruct (Nat.lt_ge_cases o (length (observers h))) as [Hlt | Hge].
  - rewrite nth_error_app1 in Hnth by exact Hlt. exact (Htidy o r Hnth Hatt).
  - rewrite nth_error_app2 in Hnth by exact Hge. apply nth_error_In in Hnth.
    rewrite Forall_forall in Hnew. now apply Hnew.
Qed.

(** X16.  However many waiters are created and whatever the page does, no
    mutation observer is left observing while the element it awaits exists: at
    every time each attached observer still waits for an element that is
    absent. *)
Theorem observers_stay_tidy (h : host) (acts : list activity) :
  tidy h -> tidy (perform h acts).
Proof.
  revert h. induction acts as [|a acts IH]; intros h Htidy; [exact Htidy|].
  change (perform h (a :: acts)) with (perform (act h a) acts).
  apply IH. destruct a as [ev | moment]; cbn [act].
  - now apply step_keeps_tidy.
  - eapply call_keeps_tidy; [apply waitForMoment_call_frame | exact Htidy].
Qed.

Lemma observers_stay_tidy_witness :
  tidy loading_page
  /\ tidy (perform loading_page
             [Call (VString (js "document-head"));
              Call (VString (js "document-body"));
              PageEvent (Mutation true false);
              Call (VString (js "document-body"));
              PageEvent (Mutation true true)]).
Proof.
  assert (tidy loading_page) as Htidy
    by (intros [|o] r Hnth; discriminate Hnth).
  split; [exact Htidy|].
  apply (observers_stay_tidy loading_page _ Htidy).
Defined.

(** ** deepestIterate: an array at the root and an array inside *)

Lemma array_walk (S : Type) (fn : value -> jstring -> S -> S)
    (path : option jstring) (elems : list value) :
  Forall (fun v => non_empty_plain_object v = false) elems ->
  forall (i : nat) (s : S),
    (fix forOwn (i : nat) (l : list value) (s : S) {struct l} : S :=
       match l with
       | [] => s
       | value :: rest =>
           let newPath := new_path path (number_toString (Z.of_nat i)) in
           forOwn (Datatypes.S i) rest
             (if isPlainObject value && negb (isEmpty value)
              then deepestIterate value fn (Some newPath) s
              else fn value newPath s)
       end) i elems s
    = fold_left (fun s jv => fn (snd jv) (new_path path (index_key (fst jv))) s)
                (combine (seq i (length elems)) elems) s.
Proof.
  induction 1 as [|v elems Hv _ IH]; intros i s; [reflexivity|].
  cbn [length seq combine fold_left fst snd]. cbv zeta.
  rewrite non_empty_plain_object_spec, Hv. apply IH.
Qed.

(** X11.  An array is walked when it is the root and is a leaf when it is the
    value of a property: on an array of values none of which is a non-empty
    plain object, [deepestIterate] calls the callback once per element with
    the index as path, while on an object holding that array under a key it
    calls the callback once, with the whole array. *)
Theorem deepestIterate_array_root (elems : list value) (key : jstring) :
  Forall (fun v => non_empty_plain_object v = false) elems ->
  deepestIterate (VArray elems) record_call None []
  = map (fun jv => (snd jv, index_key (fst jv)))
        (combine (seq 0 (length elems)) elems)
  /\ deepestIterate (VObject [(key, VArray elems)]) record_call None []
     = [(VArray elems, key)].
Proof.
  intros Hleaves. split; [|reflexivity].
  etransitivity;
    [exact (array_walk _ record_call None elems Hleaves 0%nat [])|].
  exact (fold_left_record
           (fun jv => (snd jv, new_path None (index_key (fst jv)))) _ []).
Qed.

Lemma deepestIterate_array_root_witness :
  deepestIterate (VArray [VNumber 7; VObject []; VArray [VNull]])
                 record_call None []
  = [(VNumber 7, js "0"); (VObject [], js "1"); (VArray [VNull], js "2")].
Proof.
  apply (deepestIterate_array_root [VNumber 7; VObject []; VArray [VNull]] []).
  repeat constructor.
Defined.

(** An object that is not a plain one, here an instance with the fields
    [a] and [b], is walked by its own properties when it is the root, and is
    one leaf under a key. *)
Example deepestIterate_instance :
  let instance :=
    VHost (js "[object Object]")
          [(js "a", VNumber 1); (js "b", VObject [(js "c", VNull)])] in
  deepestIterate instance record_call None []
  = [(VNumber 1, js "a"); (VNull, js "b.c")]
  /\ deepestIterate (VObject [(js "p", instance)]) record_call None []
     = [(instance, js "p")].
Proof. split; reflexivity. Qed.

(** ** wbiSign: keys that are not ASCII *)

Lemma utf8_parse_after_ascii (q s : jstring) :
  ascii_string q ->
  utf8_parse (q ++ s) = (bytes <- utf8_parse s ;; Ok (q ++ bytes)).
Proof.
  induction 1 as [|c q Hc _ IH]; cbn [app utf8_parse].
  - now destruct (utf8_parse s).
  - destruct (ascii_not_surrogate c Hc) as [-> ->]. rewrite IH.
    apply is_ascii_range in Hc. unfold utf8_octets.
    assert ((c <? 128) = true) as -> by (apply Z.ltb_lt; lia).
    now destruct (utf8_parse s).
Qed.

Lemma key_char_ascii (c : code_unit) : key_char c = true -> is_ascii c = true.
Proof.
  unfold key_char, uri_unescaped. intros H. apply is_ascii_range.
  apply orb_true_iff in H. destruct H as [H | H].
  - apply orb_true_iff in H. destruct H as [H | H].
    + unfold is_alnum in H.
      rewrite !orb_true_iff, !andb_true_iff, !Z.leb_le in H. lia.
    + unfold is_uri_mark in H. apply existsb_exists in H.
      destruct H as (x & Hin & Hx). apply Z.eqb_eq in Hx. subst x.
      simpl in Hin.
      repeat (destruct Hin as [<- | Hin]; [lia|]). contradiction.
  - apply Z.eqb_eq in H. lia.
Qed.

Lemma value_char_key_char (c : code_unit) :
  value_char c = true -> key_char c = true.
Proof.
  unfold value_char, key_char, is_unreserved, uri_unescaped, is_uri_mark.
  intros H. destruct (c =? 37); [now rewrite orb_true_r|].
  rewrite orb_false_r in *. destruct (is_alnum c); [reflexivity|].
  cbn [orb] in *. apply existsb_exists in H. destruct H as (x & Hin & Hx).
  apply Z.eqb_eq in Hx. subst x. simpl in Hin.
  repeat (destruct Hin as [<- | Hin]; [reflexivity|]). contradiction.
Qed.

Lemma well_shaped_ascii (pair : jstring) :
  well_shaped_pair pair -> ascii_string pair.
Proof.
  intros (k & v & -> & Hk & Hv). apply Forall_app. split.
  - eapply Forall_impl; [|exact Hk]. apply key_char_ascii.
  - constructor; [reflexivity|].
    eapply Forall_impl; [|exact Hv].
    intros c Hc. now apply key_char_ascii, value_char_key_char.
Qed.

Lemma utf8_parse_error (n : nat) :
  forall s e, (length s <= n)%nat -> utf8_parse s = Throw e -> e = URIError.
Proof.
  induction n as [|n IH]; intros s e Hlen.
  - destruct s; [discriminate | simpl in Hlen; lia].
  - destruct s as [|c rest]; [discriminate|]. cbn [utf8_parse].
    simpl in Hlen. destruct (is_leading_surrogate c).
    + destruct rest as [|c2 rest']; [congruence|].
      destruct (is_trailing_surrogate c2); [|congruence].
      destruct (utf8_parse rest') eqn:E; [discriminate|]. simpl.
      intros [= <-]. apply (IH rest'); [simpl in Hlen; lia | exact E].
    + destruct (is_trailing_surrogate c); [congruence|].
      destruct (utf8_parse rest) eqn:E; [discriminate|]. simpl.
      intros [= <-]. apply (IH rest); [lia | exact E].
Qed.

(** X6.  The salt is made of single code units, so a character outside the
    Basic Multilingual Plane in the keys is torn apart: on keys and values
    that are strings of code units, once the query string is built [wbiSign]
    returns exactly when the salt is well-formed UTF-16, and throws a URIError
    when the salt holds an unpaired surrogate. *)
Theorem wbiSign_needs_well_formed_salt (clock_ms : Z) (params : object)
    (imgKey subKey query : jstring) :
  code_unit_params (fst (wbiSign clock_ms params imgKey subKey)) ->
  wbi_query (fst (wbiSign clock_ms params imgKey subKey)) = Ok query ->
  ((exists r, snd (wbiSign clock_ms params imgKey subKey) = Ok r)
   <-> exists bytes, utf8_parse (wbi_salt imgKey subKey) = Ok bytes)
  /\ (forall e, utf8_parse (wbi_salt imgKey subKey) = Throw e ->
                snd (wbiSign clock_ms params imgKey subKey) = Throw URIError).
Proof.
  intros Hparams Hquery.
  assert (ascii_string query) as Hascii.
  { destruct (wbi_query_pairs _ _ Hparams Hquery)
      as (pairs & -> & _ & Hshape & _).
    apply join_ascii; [repeat constructor|].
    eapply Forall_impl; [|exact Hshape]. apply well_shaped_ascii. }
  unfold wbiSign in *. cbn [fst snd] in *. rewrite Hquery. cbn [bind].
  unfold CryptoJS_MD5. rewrite (utf8_parse_after_ascii _ _ Hascii).
  destruct (utf8_parse (wbi_salt imgKey subKey)) as [bytes|e] eqn:E;
    cbn [bind].
  - split.
    + split; intros _; eexists; reflexivity.
    + discriminate.
  - split.
    + split; intros [x Hx]; discriminate Hx.
    + intros e' _. now rewrite (utf8_parse_error _ _ _ (Nat.le_refl _) E).
Qed.

(** The theorem at keys whose third character is U+1F600, the code units
    D83D DE00 at the positions 2 and 3, which the table sends to the places
    3 and 13 of the salt. *)
Lemma wbiSign_needs_well_formed_salt_witness :
  let imgKey := js "7c" ++ [0xD83D; 0xDE00]
                ++ js "84941338484aae1ad9425b84077c" in
  let subKey := js "4932caff0ff746eab6f01bf08b70ac45" in
  snd (wbiSign 0 [] imgKey subKey) = Throw URIError.
Proof.
  cbv zeta.
  apply (wbiSign_needs_well_formed_salt 0 []
           (js "7c" ++ [0xD83D; 0xDE00] ++ js "84941338484aae1ad9425b84077c")
           (js "4932caff0ff746eab6f01bf08b70ac45") (js "wts=0"))
    with (e := URIError).
  - repeat constructor; cbn; try lia.
    intros s [= <-]. repeat constructor; cbn; lia.
  - reflexivity.
  - vm_compute. reflexivity.
Defined.
